(** * micro-os: the entry store, its search view and its JSON import/export

    A shallow embedding of [App.tsx], [lib/storage.ts], [lib/id.ts] and
    [types.ts].

    Modelling conventions.
    - JavaScript strings are byte strings ([string]); white space and case
      mapping are those of the ASCII range (the Unicode tables behind
      [String.prototype.trim] and [toLowerCase] are not modelled).
    - JavaScript numbers are integers ([Z]): [Date.now()] returns whole
      milliseconds and the program only subtracts and compares them.
    - [uid()] and [Date.now()] are not deterministic: their results are
      arguments of the operations that call them.
    - [JSON.parse] and [JSON.stringify] belong to the runtime, not to the
      repository: they are the two fields of the class [Runtime], and every
      theorem holds for every instance of it.
    - An entry in memory is the JavaScript object itself, with every
      property it was created or imported with, in its order: the type
      [Entry] holds the objects that [isEntry] accepts.  The cast on line 11
      of [lib/storage.ts] is not checked by the program: when the stored
      array holds another value the state is not of the declared type
      [Entry[]], and start-up is then not described ([mount] gives [None]).
    - React state ([useState]) is an explicit record.  A handler returns the
      calls it makes to the state setters and to [alert]; [render] applies
      them, evaluates the view and, when the view does not throw, runs the
      two [useEffect] hooks whose dependencies changed.
    - The view throws when React is given an object as a child (a tag that
      is an object) or when a tag cannot be converted to a string.  No error
      boundary is installed: React then unmounts the application, no effect
      of that render runs and no handler runs afterwards.  A world whose
      view throws stands for that end state: its cells are those of the
      render that failed, [localStorage] and [alerts] are what the browser
      still holds. *)

From Stdlib Require Import ZArith String Ascii List Lia Sorted Permutation.
From stdpp Require Import base list strings gmap pretty.

Local Open Scope string_scope.
Local Open Scope list_scope.
Local Open Scope Z_scope.

(** ** String primitives of the runtime *)

Module JsString.

Definition isUpper (c : ascii) : bool :=
  (65 <=? nat_of_ascii c)%nat && (nat_of_ascii c <=? 90)%nat.

Definition toLowerCaseChar (c : ascii) : ascii :=
  if isUpper c then ascii_of_nat (nat_of_ascii c + 32) else c.

(** [s.toLowerCase()] *)
Fixpoint toLowerCase (s : string) : string :=
  match s with
  | EmptyString => EmptyString
  | String c r => String (toLowerCaseChar c) (toLowerCase r)
  end.

Fixpoint trimStart (s : string) : string :=
  match s with
  | EmptyString => EmptyString
  | String c r => if Ascii.is_space c then trimStart r else s
  end.

Fixpoint trimEnd (s : string) : string :=
  match s with
  | EmptyString => EmptyString
  | String c r =>
      match trimEnd r with
      | EmptyString => if Ascii.is_space c then EmptyString else String c EmptyString
      | r' => String c r'
      end
  end.

(** [s.trim()] *)
Definition trim (s : string) : string := trimEnd (trimStart s).

(** [s.split(sep)] for a one-character separator: the pieces between the
    separators, so that the empty string has the single piece [""]. *)
Fixpoint split (sep : ascii) (s : string) : list string :=
  match s with
  | EmptyString => [EmptyString]
  | String c r =>
      if Ascii.eqb c sep then EmptyString :: split sep r
      else match split sep r with
           | [] => [String c EmptyString]
           | p :: ps => String c p :: ps
           end
  end.

(** [Boolean(s)]: a string is truthy when it is not empty. *)
Definition truthy (s : string) : bool :=
  match s with EmptyString => false | _ => true end.

(** [arr.join(sep)] on an array of strings. *)
Fixpoint join (sep : string) (l : list string) : string :=
  match l with
  | [] => EmptyString
  | [x] => x
  | x :: r => x +:+ sep +:+ join sep r
  end.

Fixpoint startsWith (s q : string) : bool :=
  match q, s with
  | EmptyString, _ => true
  | String _ _, EmptyString => false
  | String b q', String a s' => Ascii.eqb a b && startsWith s' q'
  end.

(** [s.includes(q)] *)
Fixpoint includes (s q : string) : bool :=
  startsWith s q ||
  match s with
  | EmptyString => false
  | String _ s' => includes s' q
  end.

End JsString.

(** ** Array primitives of the runtime *)

Module JsArray.

Section Generic.
Context {A : Type}.

(** [arr.indexOf(x)]: the first index holding [x], or [-1]. *)
Fixpoint indexOf `{EqDecision A} (x : A) (arr : list A) : Z :=
  match arr with
  | [] => -1
  | y :: r =>
      if decide (y = x) then 0
      else let i := indexOf x r in if i <? 0 then -1 else i + 1
  end.

Fixpoint filteri_from (i : Z) (p : A -> Z -> bool) (l : list A) : list A :=
  match l with
  | [] => []
  | x :: r => if p x i then x :: filteri_from (i + 1) p r
              else filteri_from (i + 1) p r
  end.

(** [arr.filter((x, i) => p(x, i))] *)
Definition filteri (p : A -> Z -> bool) (l : list A) : list A :=
  filteri_from 0 p l.

(** The stable sort behind [arr.sort(cmp)]: [cmp a b > 0] asks for [a]
    after [b]; elements that compare [<= 0] keep their order. *)
Fixpoint sort_insert (cmp : A -> A -> Z) (x : A) (l : list A) : list A :=
  match l with
  | [] => [x]
  | y :: r => if 0 <? cmp x y then y :: sort_insert cmp x r else x :: l
  end.

Fixpoint sort (cmp : A -> A -> Z) (l : list A) : list A :=
  match l with
  | [] => []
  | x :: r => sort_insert cmp x (sort cmp r)
  end.

(** [arr.find(p) ?? null] *)
Fixpoint find (p : A -> bool) (l : list A) : option A :=
  match l with
  | [] => None
  | x :: r => if p x then Some x else find p r
  end.
End Generic.

End JsArray.

(** ** [normalizeTags] (App.tsx, lines 6-13) *)

Definition normalizeTags (input : string) : list string :=
  let pieces := JsString.split "," input in
  let trimmed := map JsString.trim pieces in
  let kept := List.filter JsString.truthy trimmed in
  let lowered := map JsString.toLowerCase kept in
  JsArray.filteri (fun t i => JsArray.indexOf t lowered =? i) lowered.

(** The specification's wording of the last step: walk the sequence and
    drop a piece that has already appeared earlier. *)
Fixpoint dropSeen (seen : list string) (l : list string) : list string :=
  match l with
  | [] => []
  | t :: r => if bool_decide (t ∈ seen) then dropSeen seen r
              else t :: dropSeen (t :: seen) r
  end.

Definition normalizeTags_spec (input : string) : list string :=
  dropSeen [] (map JsString.toLowerCase
                 (List.filter (fun p => negb (String.eqb p ""))
                    (map JsString.trim (JsString.split "," input)))).

(** ** JSON values and the runtime's JSON codec *)

#[local] Set Warnings "-register-all".

(** A parsed object holds each key once, in insertion order. *)
Inductive JSON : Type :=
  | JNull
  | JBool (b : bool)
  | JNumber (n : Z)
  | JString (s : string)
  | JArray (items : list JSON)
  | JObject (props : list (string * JSON)).

#[local] Set Warnings "register-all".

(** What a [try] block sees: a value, or a thrown [Error] with its message. *)
Inductive Result (A : Type) : Type :=
  | Ok (a : A)
  | Throw (message : string).
Arguments Ok {A} a.
Arguments Throw {A} message.

(** [JSON.parse(text)] and [JSON.stringify(value, null, space)]. *)
Class Runtime := {
  JSON_parse : string -> Result JSON;
  JSON_stringify : nat -> JSON -> string
}.

Module Js.

Inductive TypeOf := TUndefined | TObject | TBoolean | TNumber | TString.

Global Instance TypeOf_eq_dec : EqDecision TypeOf.
Proof. solve_decision. Defined.

(** [typeof v]; [None] stands for [undefined]. *)
Definition typeof (v : option JSON) : TypeOf :=
  match v with
  | None => TUndefined
  | Some JNull => TObject
  | Some (JBool _) => TBoolean
  | Some (JNumber _) => TNumber
  | Some (JString _) => TString
  | Some (JArray _) => TObject
  | Some (JObject _) => TObject
  end.

(** [Boolean(v)] *)
Definition truthy (v : JSON) : bool :=
  match v with
  | JNull => false
  | JBool b => b
  | JNumber n => negb (n =? 0)
  | JString s => JsString.truthy s
  | JArray _ => true
  | JObject _ => true
  end.

Definition isArray (v : option JSON) : bool :=
  match v with Some (JArray _) => true | _ => false end.

Fixpoint lookupProp (k : string) (props : list (string * JSON)) : option JSON :=
  match props with
  | [] => None
  | (k', v) :: r => if String.eqb k' k then Some v else lookupProp k r
  end.

(** [x.k] for the seven property names the program reads: only an object
    literal has them. *)
Definition get (x : JSON) (k : string) : option JSON :=
  match x with
  | JObject props => lookupProp k props
  | _ => None
  end.

(** [String(v)] as [Array.prototype.join] applies it to an element:
    [null] gives the empty string and a nested array is joined by commas.
    An object is converted by [Object.prototype.toString], unless it has
    a property of its own named [toString] (see [converts]). *)
Fixpoint toString (v : JSON) : string :=
  match v with
  | JNull => ""
  | JBool true => "true"
  | JBool false => "false"
  | JNumber n => pretty n
  | JString s => s
  | JArray items => JsString.join "," (map toString items)
  | JObject _ => "[object Object]"
  end.

(** Whether [String(v)] returns: an object parsed from JSON that has a
    property named [toString] hides the inherited method behind a value
    that cannot be called, and the conversion throws a [TypeError]. *)
Fixpoint converts (v : JSON) : bool :=
  match v with
  | JObject props =>
      match lookupProp "toString" props with Some _ => false | None => true end
  | JArray items => forallb converts items
  | _ => true
  end.

(** Whether React renders [v] as a child ([{v}] in JSX): text for a
    string or a number, nothing for [null] and a boolean, the elements of
    an array in turn; an object makes it throw "Objects are not valid as
    a React child". *)
Fixpoint validChild (v : JSON) : bool :=
  match v with
  | JObject _ => false
  | JArray items => forallb validChild items
  | _ => true
  end.

End Js.

(** An insertion-ordered [Map]: [set] on a present key replaces the value in
    place, on a new key appends. *)
Module JsMap.
Section Map.
Context {K V : Type} `{EqDecision K}.

Fixpoint set (k : K) (v : V) (m : list (K * V)) : list (K * V) :=
  match m with
  | [] => [(k, v)]
  | (k', v') :: r => if decide (k' = k) then (k, v) :: r
                     else (k', v') :: set k v r
  end.

(** [new Map(pairs)] *)
Definition ofPairs (pairs : list (K * V)) : list (K * V) :=
  fold_left (fun m kv => set (fst kv) (snd kv) m) pairs [].

(** [Array.from(map.values())] *)
Definition values (m : list (K * V)) : list V := map snd m.

Fixpoint get (k : K) (m : list (K * V)) : option V :=
  match m with
  | [] => None
  | (k', v) :: r => if decide (k' = k) then Some v else get k r
  end.
End Map.
End JsMap.


(** ** The entry model (types.ts) *)

(** [isEntry] (App.tsx, lines 25-37) *)
Definition isEntry (x : JSON) : bool :=
  Js.truthy x &&
  bool_decide (Js.typeof (Some x) = Js.TObject) &&
  bool_decide (Js.typeof (Js.get x "id") = Js.TString) &&
  bool_decide (Js.typeof (Js.get x "title") = Js.TString) &&
  bool_decide (Js.typeof (Js.get x "oneLiner") = Js.TString) &&
  bool_decide (Js.typeof (Js.get x "example") = Js.TString) &&
  Js.isArray (Js.get x "tags") &&
  bool_decide (Js.typeof (Js.get x "createdAt") = Js.TNumber) &&
  bool_decide (Js.typeof (Js.get x "updatedAt") = Js.TNumber).

(** A value of type [Entry]: an object, given by its own properties in
    their order, that [isEntry] accepts.  [isEntry] accepts any array for
    [tags], so the elements of [tags] are the JSON values the imported file
    holds, and it accepts any further property. *)
Record Entry := entryOf {
  props : list (string * JSON);
  shaped : Is_true (isEntry (JObject props))
}.

(** The object itself, as [JSON.stringify] and the view see it. *)
Definition object (e : Entry) : JSON := JObject (props e).

(** The type guard [isEntry(x)]: [x] at type [Entry] when it holds. *)
Definition checkEntry (x : JSON) : option Entry :=
  match x with
  | JObject p =>
      match Is_true_dec (isEntry (JObject p)) with
      | left H => Some (entryOf p H)
      | right _ => None
      end
  | _ => None
  end.

Definition stringProp (x : JSON) (k : string) : string :=
  match Js.get x k with Some (JString s) => s | _ => "" end.
Definition numberProp (x : JSON) (k : string) : Z :=
  match Js.get x k with Some (JNumber n) => n | _ => 0 end.
Definition arrayProp (x : JSON) (k : string) : list JSON :=
  match Js.get x k with Some (JArray l) => l | _ => [] end.

(** The seven properties as the program reads them, [e.id] to
    [e.updatedAt]; on an [Entry] each of them is present with its type. *)
Definition id (e : Entry) : string := stringProp (object e) "id".
Definition title (e : Entry) : string := stringProp (object e) "title".
Definition oneLiner (e : Entry) : string := stringProp (object e) "oneLiner".
Definition example (e : Entry) : string := stringProp (object e) "example".
Definition tags (e : Entry) : list JSON := arrayProp (object e) "tags".
Definition createdAt (e : Entry) : Z := numberProp (object e) "createdAt".
Definition updatedAt (e : Entry) : Z := numberProp (object e) "updatedAt".

(** The object literal with the seven properties in the order of lines
    47-55 and 105-113. *)
Definition mkEntry (i t o x : string) (tg : list JSON) (c u : Z) : Entry :=
  entryOf [("id", JString i); ("title", JString t); ("oneLiner", JString o);
           ("example", JString x); ("tags", JArray tg);
           ("createdAt", JNumber c); ("updatedAt", JNumber u)] I.

(** [Partial<Entry>] *)
Record Patch := mkPatch {
  p_id : option string;
  p_title : option string;
  p_oneLiner : option string;
  p_example : option string;
  p_tags : option (list JSON);
  p_createdAt : option Z;
  p_updatedAt : option Z
}.

Definition ownProp {A : Type} (k : string) (f : A -> JSON) (v : option A)
  : list (string * JSON) :=
  match v with Some a => [(k, f a)] | None => [] end.

(** The properties a patch holds. *)
Definition patchProps (patch : Patch) : list (string * JSON) :=
  ownProp "id" JString (p_id patch) ++ ownProp "title" JString (p_title patch)
  ++ ownProp "oneLiner" JString (p_oneLiner patch)
  ++ ownProp "example" JString (p_example patch)
  ++ ownProp "tags" JArray (p_tags patch)
  ++ ownProp "createdAt" JNumber (p_createdAt patch)
  ++ ownProp "updatedAt" JNumber (p_updatedAt patch).

(** The array that [JSON.stringify] traverses for a collection. *)
Definition entriesToJSON (es : list Entry) : JSON := JArray (map object es).

(** [parsed.filter(isEntry) as Entry[]] (line 148) *)
Definition filterEntries (items : list JSON) : list Entry := omap checkEntry items.

(** [parsed as Entry[]] (lib/storage.ts, line 11), which the program does
    not check: the array at type [Entry[]] when every element is an entry,
    [None] otherwise. *)
Definition castEntries (items : list JSON) : option (list Entry) :=
  mapM checkEntry items.

(** The comparator [(a, b) => b.updatedAt - a.updatedAt]. *)
Definition byUpdatedDesc (a b : Entry) : Z := updatedAt b - updatedAt a.

(** ** The persistence adapter (lib/storage.ts) *)

Definition KEY : string := "micro_os_entries_v1".

Section Storage.
Context `{Runtime}.

(** [loadEntries]: [localStorage.getItem] gives [null] for an absent key,
    and [!raw] also holds for the empty string.  What is returned is the
    parsed array as it is. *)
Definition loadEntries (localStorage : gmap string string) : list JSON :=
  match localStorage !! KEY with
  | None => []
  | Some raw =>
      if negb (JsString.truthy raw) then []
      else match JSON_parse raw with
           | Throw _ => []
           | Ok (JArray items) => items
           | Ok _ => []
           end
  end.

(** [saveEntries] *)
Definition saveEntries (entries : list Entry) (localStorage : gmap string string)
  : gmap string string :=
  <[KEY := JSON_stringify 0 (entriesToJSON entries)]> localStorage.
End Storage.

(** ** Application state (App.tsx) *)

(** The three [useState] cells, the browser's [localStorage] and the
    messages shown by [alert], oldest first. *)
Record World := mkWorld {
  entries : list Entry;
  selectedId : string;
  query : string;
  localStorage : gmap string string;
  alerts : list string
}.

(** What a handler asks of React: the updater passed to [setEntries], the
    value passed to [setSelectedId] or [setQuery], the message passed to
    [alert]; [None] where the handler does not make the call. *)
Record Update := mkUpdate {
  setEntries : option (list Entry -> list Entry);
  setSelectedId : option string;
  setQuery : option string;
  alert : option string
}.

Definition noUpdate : Update := mkUpdate None None None None.

(** [selected]: [entries.find((e) => e.id === selectedId) ?? null] *)
Definition selected (w : World) : option Entry :=
  JsArray.find (fun e => bool_decide (id e = selectedId w)) (entries w).

(** The line feed written [\n] in the template literal of line 97. *)
Definition LF : string := String "010"%char EmptyString.

(** The text an entry is searched in (line 97). *)
Definition haystack (e : Entry) : string :=
  JsString.toLowerCase
    (title e +:+ LF +:+ oneLiner e +:+ LF +:+ example e +:+ LF
       +:+ JsString.join " " (map Js.toString (tags e))).

(** [filtered] (lines 91-101), when the conversion of the tags on line 97
    does not throw ([renders] tells). *)
Definition filtered (entries : list Entry) (query : string) : list Entry :=
  let q := JsString.toLowerCase (JsString.trim query) in
  if negb (JsString.truthy q) then JsArray.sort byUpdatedDesc entries
  else JsArray.sort byUpdatedDesc
         (List.filter (fun e => JsString.includes (haystack e) q) entries).

(** The specification's wording of the search: [q] occurs in [s], and the
    text of an entry as the plain concatenation of its fields. *)
Definition contains (s q : string) : Prop :=
  exists pre post, s = pre +:+ q +:+ post.


(** ** The view (lines 196-388) *)

(** [e.tags.join(" ")] on line 97 returns. *)
Definition searchable (e : Entry) : bool := forallb Js.converts (tags e).

(** The item of the list for [e] (lines 248-271) shows its first six
    tags. *)
Definition listable (e : Entry) : bool :=
  forallb Js.validChild (take 6 (tags e)).

(** The editor (lines 296-376) joins the tags of the selected entry for
    the tags field and shows each of them in the preview. *)
Definition previewable (e : Entry) : bool :=
  forallb Js.converts (tags e) && forallb Js.validChild (tags e).

(** Whether the body of [App] evaluates: [filtered] is computed (the
    filter, which converts the tags of every entry, runs when the query is
    not blank), then an item for each entry of [filtered] and the editor for
    the selected entry are built.  The other expressions of the view read
    strings and numbers and cannot throw. *)
Definition renders (w : World) : bool :=
  let q := JsString.toLowerCase (JsString.trim (query w)) in
  (negb (JsString.truthy q) || forallb searchable (entries w))
  && forallb listable (filtered (entries w) (query w))
  && match selected w with Some sel => previewable sel | None => true end.

(** ** The handlers *)

(** [createNew] (lines 103-116); [newId] is what [uid()] returns and [now]
    what [Date.now()] returns. *)
Definition createNew (newId : string) (now : Z) (w : World) : Update :=
  let e := mkEntry newId "new rule" "" "" [] now now in
  {| setEntries := Some (fun prev => e :: prev);
     setSelectedId := Some (id e);
     setQuery := None; alert := None |}.

(** The properties of [{ ...e, ...patch, updatedAt: Date.now() }]: those of
    [e] in their order, each one replaced in place by the patch's and then
    [updatedAt] by the clock's (a property [e] did not have would be added
    at the end). *)
Definition patched (patch : Patch) (now : Z) (p : list (string * JSON))
  : list (string * JSON) :=
  JsMap.set "updatedAt" (JNumber now)
    (fold_left (fun o kv => JsMap.set (fst kv) (snd kv) o) (patchProps patch) p).

(** [{ ...e, ...patch, updatedAt: Date.now() }] at type [Entry].  The
    fields of a [Partial<Entry>] have the types of the entry's, so the
    object has the entry shape again and the guard always holds. *)
Definition applyPatch (e : Entry) (patch : Patch) (now : Z) : Entry :=
  default e (checkEntry (JObject (patched patch now (props e)))).

(** [updateSelected] (lines 118-127) *)
Definition updateSelected (patch : Patch) (now : Z) (w : World) : Update :=
  match selected w with
  | None => noUpdate
  | Some sel =>
      {| setEntries := Some (fun prev =>
           map (fun e => if bool_decide (id e = id sel)
                         then applyPatch e patch now else e) prev);
         setSelectedId := None; setQuery := None; alert := None |}
  end.

(** [deleteSelected] (lines 129-136) *)
Definition deleteSelected (w : World) : Update :=
  match selected w with
  | None => noUpdate
  | Some sel =>
      let i := id sel in
      let remaining :=
        JsArray.sort byUpdatedDesc
          (List.filter (fun e => negb (bool_decide (id e = i))) (entries w)) in
      {| setEntries := Some (fun prev =>
           List.filter (fun e => negb (bool_decide (id e = i))) prev);
         setSelectedId := Some (match remaining with e :: _ => id e | [] => "" end);
         setQuery := None; alert := None |}
  end.

(** The loop [for (const e of l) map.set(e.id, e)] (line 154). *)
Definition fill (l : list Entry) (m : list (string * Entry)) : list (string * Entry) :=
  fold_left (fun m e => JsMap.set (id e) e m) l m.

(** The updater of the import (lines 152-156): merge by id, incoming
    overwrites. *)
Definition mergeById (incoming prev : list Entry) : list Entry :=
  let map0 := JsMap.ofPairs (map (fun e => (id e, e)) prev) in
  let map1 := fill incoming map0 in
  JsArray.sort byUpdatedDesc (JsMap.values map1).

(** In the maps the import builds, every key is the id of its value. *)
Definition keyed (m : list (string * Entry)) : Prop :=
  Forall (fun kv => fst kv = id (snd kv)) m.

(** The last entry of [l] whose id is [i]: the one a [Map] filled from [l]
    in order ends up holding under [i]. *)
Fixpoint lastWithId (i : string) (l : list Entry) : option Entry :=
  match l with
  | [] => None
  | e :: r =>
      match lastWithId i r with
      | Some x => Some x
      | None => if bool_decide (id e = i) then Some e else None
      end
  end.

Section Codec.
Context `{Runtime}.

(** [downloadJson] (lines 15-23): the name and the text of the file
    offered for download. *)
Definition downloadJson (filename : string) (data : JSON) : string * string :=
  (filename, JSON_stringify 2 data).

(** [exportJson] (lines 138-140) *)
Definition exportJson (w : World) : string * string :=
  downloadJson "micro-os.json" (entriesToJSON (entries w)).

(** Lines 145-149 of [importJsonFile]: the valid incoming entries, or the
    error thrown. *)
Definition readIncoming (text : string) : Result (list Entry) :=
  match JSON_parse text with
  | Throw m => Throw m
  | Ok parsed =>
      match parsed with
      | JArray items =>
          let incoming := filterEntries items in
          if (length incoming =? 0)%nat then Throw "no valid entries found"
          else Ok incoming
      | _ => Throw "invalid json: expected an array"
      end
  end.

(** [importJsonFile] (lines 142-166), from the point where the text of the
    file has been read.  [incoming.sort] on line 159 sorts the array in
    place, and the updater given to [setEntries] on line 152 reads that
    same array: [eager] says whether React runs the updater inside the
    [setEntries] call (it then sees the file's order) or during the
    following render (it then sees the sorted order). *)
Definition importJsonFile (eager : bool) (text : string) (w : World) : Update :=
  match readIncoming text with
  | Throw m => {| setEntries := None; setSelectedId := None;
                  setQuery := None; alert := Some m |}
  | Ok incoming =>
      let sorted := JsArray.sort byUpdatedDesc incoming in
      let seen := if eager then incoming else sorted in
      {| setEntries := Some (mergeById seen);
         setSelectedId :=
           match sorted with
           | newest :: _ => if JsString.truthy (id newest) then Some (id newest) else None
           | [] => None
           end;
         setQuery := None; alert := None |}
  end.

(** ** Rendering: state changes, the view, then the two effects
    (lines 77-84) *)

Definition applyUpdate (u : Update) (w : World) : World :=
  {| entries := match setEntries u with Some f => f (entries w) | None => entries w end;
     selectedId := default (selectedId w) (setSelectedId u);
     query := default (query w) (setQuery u);
     localStorage := localStorage w;
     alerts := match alert u with Some m => alerts w ++ [m] | None => alerts w end |}.

(** The persist effect depends on [entries]: it runs after a render in
    which [setEntries] installed a new array. *)
Definition persistEffect (changed : bool) (w : World) : World :=
  if changed then
    {| entries := entries w; selectedId := selectedId w; query := query w;
       localStorage := saveEntries (entries w) (localStorage w);
       alerts := alerts w |}
  else w.

(** "if selectedId is empty but we have entries, select first".  The
    call of [setSelectedId] in the effect makes React render once more;
    that render throws exactly when the view of the world returned
    does. *)
Definition selectFirstEffect (w : World) : World :=
  match entries w with
  | e :: _ =>
      if negb (JsString.truthy (selectedId w)) then
        {| entries := entries w; selectedId := id e; query := query w;
           localStorage := localStorage w; alerts := alerts w |}
      else w
  | [] => w
  end.

(** React renders with the new state.  When the view throws, the
    application is unmounted and no effect of this render runs.
    Otherwise both effects run if their dependencies changed: [entries]
    when [setEntries] installed a new array, [selectedId] when its value
    differs. *)
Definition render (u : Update) (w : World) : World :=
  let w1 := applyUpdate u w in
  if renders w1 then
    let entriesChanged := bool_decide (is_Some (setEntries u)) in
    let selectedChanged := bool_decide (selectedId w1 <> selectedId w) in
    let w2 := persistEffect entriesChanged w1 in
    if entriesChanged || selectedChanged then selectFirstEffect w2 else w2
  else w1.
End Codec.

(** ** Start-up (lines 40-71) and the user's actions *)

Definition seedEntries (id1 id2 : string) (now : Z) : list Entry :=
  [ mkEntry id1
      "two-way door decisions"
      "reversible decisions → move fast; irreversible → slow down."
      "trying a new note app is reversible. signing a long contract isn’t."
      [JString "decision"; JString "speed"]
      now now;
    mkEntry id2
      "default alive"
      "if it keeps options open, bias toward it."
      "choose the path that preserves flexibility when you’re uncertain."
      [JString "life"; JString "optionalities"]
      (now + 1) (now + 1) ].

(** The four patches the editor passes to [updateSelected] (lines 303, 318,
    328, 338). *)
Inductive Edit :=
  | EditTitle (v : string)
  | EditOneLiner (v : string)
  | EditExample (v : string)
  | EditTags (v : string).

Definition patchOfEdit (ed : Edit) : Patch :=
  match ed with
  | EditTitle v => mkPatch None (Some v) None None None None None
  | EditOneLiner v => mkPatch None None (Some v) None None None None
  | EditExample v => mkPatch None None None (Some v) None None None
  | EditTags v => mkPatch None None None None (Some (map JString (normalizeTags v))) None None
  end.

Inductive Action :=
  | CreateNew (newId : string) (now : Z)
  | UpdateSelected (patch : Patch) (now : Z)
  | DeleteSelected
  | ImportJsonFile (eager : bool) (text : string)
  | Select (k : nat)
  | Search (q : string).

Section App.
Context `{Runtime}.

(** The initializer of [entries] (lines 40-66), on the array that
    [loadEntries] returns; [id1], [id2] are the two results of [uid()]. *)
Definition initEntries (storage : gmap string string) (id1 id2 : string) (now : Z)
  : list JSON :=
  let loaded := loadEntries storage in
  if (0 <? length loaded)%nat then loaded else map object (seedEntries id1 id2 now).

(** The initializer of [selectedId] (lines 68-71), [loaded[0]?.id ?? ""],
    on an array of entries. *)
Definition initSelectedId (loaded : list Entry) : string :=
  match loaded with
  | e :: _ => id e
  | [] => ""
  end.

(** What the first initializer returns on an array of entries. *)
Definition firstEntries (loaded : list Entry) (id1 id2 : string) (now : Z)
  : list Entry :=
  if (0 <? length loaded)%nat then loaded else seedEntries id1 id2 now.

(** The state of the first render: what the two initializers return. *)
Definition firstState (storage : gmap string string) (loaded init : list Entry)
  : World :=
  {| entries := init; selectedId := initSelectedId loaded;
     query := ""; localStorage := storage; alerts := [] |}.

(** The first render, followed by both effects when the view does not
    throw.  Both initializers call [loadEntries]; the state is of type
    [Entry[]] when the array they get is. *)
Definition mount (storage : gmap string string) (id1 id2 : string) (now : Z)
  : option World :=
  match castEntries (loadEntries storage),
        castEntries (initEntries storage id1 id2 now) with
  | Some loaded, Some init =>
      let w0 := firstState storage loaded init in
      Some (if renders w0 then selectFirstEffect (persistEffect true w0) else w0)
  | _, _ => None
  end.

(** A click on the [k]-th item of the list (line 251). *)
Definition selectVisible (k : nat) (w : World) : Update :=
  match filtered (entries w) (query w) !! k with
  | Some e => mkUpdate None (Some (id e)) None None
  | None => noUpdate
  end.

Definition handle (a : Action) (w : World) : Update :=
  match a with
  | CreateNew newId now => createNew newId now w
  | UpdateSelected patch now => updateSelected patch now w
  | DeleteSelected => deleteSelected w
  | ImportJsonFile eager text => importJsonFile eager text w
  | Select k => selectVisible k w
  | Search q => mkUpdate None None (Some q) None
  end.

(** An action of the user on the application showing [w].  Once the view
    has thrown there is nothing left to act on. *)
Definition step (a : Action) (w : World) : World :=
  if renders w then render (handle a w) w else w.

(** The stored snapshot is the serialization of the entries in memory. *)
Definition written (w : World) : Prop :=
  localStorage w !! KEY = Some (JSON_stringify 0 (entriesToJSON (entries w))).

(** Every entry was updated no earlier than it was created. *)
Definition timesOk (es : list Entry) : Prop :=
  Forall (fun e => createdAt e <= updatedAt e) es.

(** What an action must bring for [timesOk] to survive it: a patch without
    [createdAt] and a clock reading not before the creation of the entry
    being edited, incoming records that satisfy it themselves. *)
Definition keepsTimes (a : Action) (w : World) : Prop :=
  match a with
  | UpdateSelected patch now =>
      p_createdAt patch = None
      ∧ forall sel e, selected w = Some sel -> e ∈ entries w ->
                      id e = id sel -> createdAt e <= now
  | ImportJsonFile _ text =>
      forall incoming, readIncoming text = Ok incoming -> timesOk incoming
  | _ => True
  end.

Definition nonBlank (e : Entry) : Prop :=
  title e <> "" ∧ oneLiner e <> "" ∧ example e <> "" ∧ tags e <> [].

Definition run (acts : list Action) (w : World) : World :=
  fold_left (fun w a => step a w) acts w.

(** States the application can be in: after start-up and any actions. *)
Inductive reachable : World -> Prop :=
  | reachable_mount storage id1 id2 now w :
      mount storage id1 id2 now = Some w -> reachable w
  | reachable_step a w :
      reachable w -> reachable (step a w).
End App.

(** ** Properties of whole states and of actions *)

(** While there are entries one of them is selected, and nothing is
    selected when there are none. *)
Definition selectionOk (w : World) : Prop :=
  match entries w with
  | [] => selectedId w = ""
  | _ :: _ => selectedId w ∈ map id (entries w)
  end.

(** An update whose patch leaves the id alone. *)
Definition keepsIds (a : Action) : Prop :=
  match a with
  | UpdateSelected patch _ => p_id patch = None
  | _ => True
  end.

(** A creation with an id not in use, an update that leaves the id alone. *)
Definition freshIds (a : Action) (w : World) : Prop :=
  match a with
  | CreateNew newId _ => newId ∉ map id (entries w)
  | UpdateSelected patch _ => p_id patch = None
  | _ => True
  end.

(** The entry [createNew] builds. *)
Definition blankEntry (newId : string) (now : Z) : Entry :=
  mkEntry newId "new rule" "" "" [] now now.

(** The text the editor shows in the tags field (line 337):
    [selected.tags.join(", ")]. *)
Definition tagsFieldText (e : Entry) : string :=
  JsString.join ", " (map Js.toString (tags e)).

(** No tag of the collection is, or holds, an object: every entry can be
    listed, searched and edited. *)
Definition plainTags (es : list Entry) : Prop :=
  Forall (fun e => previewable e = true) es.

(** An action that brings no tag that is, or holds, an object: the four
    edits of the editor never do. *)
Definition bringsPlainTags `{Runtime} (a : Action) : Prop :=
  match a with
  | UpdateSelected patch _ =>
      match p_tags patch with
      | Some tg => forallb Js.converts tg && forallb Js.validChild tg = true
      | None => True
      end
  | ImportJsonFile _ text =>
      forall incoming, readIncoming text = Ok incoming -> plainTags incoming
  | _ => True
  end.

(** The property an edit writes. *)
Definition editedKey (ed : Edit) : string :=
  match ed with
  | EditTitle _ => "title"
  | EditOneLiner _ => "oneLiner"
  | EditExample _ => "example"
  | EditTags _ => "tags"
  end.

(** The value an edit writes there. *)
Definition editedValue (ed : Edit) : JSON :=
  match ed with
  | EditTitle v | EditOneLiner v | EditExample v => JString v
  | EditTags v => JArray (map JString (normalizeTags v))
  end.
(** ** A reference runtime

    A small JSON printer and reader used to run the operations on concrete
    inputs.  The reader covers integers, strings with the short escapes and
    [\u00XX], arrays and objects (a key written twice keeps its first place
    and its last value); the theorems below hold for every [Runtime], not
    only for this one. *)

Module RefRuntime.

Definition quote : ascii := "034"%char.
Definition backslash : ascii := "092"%char.

Definition hexDigit (n : nat) : ascii :=
  if (n <? 10)%nat then ascii_of_nat (48 + n) else ascii_of_nat (87 + n).

Definition escapeChar (c : ascii) : string :=
  if Ascii.eqb c quote then String backslash (String quote "")
  else if Ascii.eqb c backslash then String backslash (String backslash "")
  else if Ascii.eqb c "008"%char then String backslash "b"
  else if Ascii.eqb c "012"%char then String backslash "f"
  else if Ascii.eqb c "010"%char then String backslash "n"
  else if Ascii.eqb c "013"%char then String backslash "r"
  else if Ascii.eqb c "009"%char then String backslash "t"
  else if (nat_of_ascii c <? 32)%nat then
    String backslash
      ("u00" +:+ String (hexDigit (nat_of_ascii c / 16))
                   (String (hexDigit (nat_of_ascii c mod 16)) ""))
  else String c "".

Fixpoint escape (s : string) : string :=
  match s with
  | EmptyString => EmptyString
  | String c r => escapeChar c +:+ escape r
  end.

Definition quoted (s : string) : string :=
  String quote (escape s) +:+ String quote "".

Fixpoint spaces (n : nat) : string :=
  match n with O => "" | S k => String " " (spaces k) end.

(** Line break and indentation at nesting depth [depth]; nothing when
    [space] is 0. *)
Definition breakAt (space depth : nat) : string :=
  if (space =? 0)%nat then "" else LF +:+ spaces (space * depth).

Definition colon (space : nat) : string :=
  if (space =? 0)%nat then ":" else ": ".

Fixpoint print (space depth : nat) (v : JSON) : string :=
  match v with
  | JNull => "null"
  | JBool true => "true"
  | JBool false => "false"
  | JNumber n => pretty n
  | JString s => quoted s
  | JArray [] => "[]"
  | JArray items =>
      "[" +:+ breakAt space (S depth)
      +:+ JsString.join ("," +:+ breakAt space (S depth))
            (map (print space (S depth)) items)
      +:+ breakAt space depth +:+ "]"
  | JObject [] => "{}"
  | JObject props =>
      "{" +:+ breakAt space (S depth)
      +:+ JsString.join ("," +:+ breakAt space (S depth))
            (map (fun kv => quoted (fst kv) +:+ colon space
                              +:+ print space (S depth) (snd kv)) props)
      +:+ breakAt space depth +:+ "}"
  end.

Definition isWs (c : ascii) : bool :=
  Ascii.eqb c " " || Ascii.eqb c "009"%char || Ascii.eqb c "010"%char
  || Ascii.eqb c "013"%char.

Fixpoint skipWs (s : string) : string :=
  match s with
  | String c r => if isWs c then skipWs r else s
  | EmptyString => EmptyString
  end.

Definition hexValue (c : ascii) : option nat :=
  let n := nat_of_ascii c in
  if (48 <=? n)%nat && (n <=? 57)%nat then Some (n - 48)%nat
  else if (97 <=? n)%nat && (n <=? 102)%nat then Some (n - 87)%nat
  else if (65 <=? n)%nat && (n <=? 70)%nat then Some (n - 55)%nat
  else None.

(** The characters of a string literal after its opening quote, and the
    rest of the input after the closing quote. *)
Fixpoint readString (s : string) : option (string * string) :=
  match s with
  | EmptyString => None
  | String c r =>
      if Ascii.eqb c quote then Some (EmptyString, r)
      else if Ascii.eqb c backslash then
        match r with
        | String e r' =>
            let cont (ch : ascii) (rest : option (string * string)) :=
              match rest with
              | Some (body, after) => Some (String ch body, after)
              | None => None
              end in
            if Ascii.eqb e quote then cont quote (readString r')
            else if Ascii.eqb e backslash then cont backslash (readString r')
            else if Ascii.eqb e "/" then cont "/"%char (readString r')
            else if Ascii.eqb e "b" then cont "008"%char (readString r')
            else if Ascii.eqb e "f" then cont "012"%char (readString r')
            else if Ascii.eqb e "n" then cont "010"%char (readString r')
            else if Ascii.eqb e "r" then cont "013"%char (readString r')
            else if Ascii.eqb e "t" then cont "009"%char (readString r')
            else if Ascii.eqb e "u" then
              match r' with
              | String "0" (String "0" (String h (String l r''))) =>
                  match hexValue h, hexValue l with
                  | Some a, Some b => cont (ascii_of_nat (16 * a + b)) (readString r'')
                  | _, _ => None
                  end
              | _ => None
              end
            else None
        | EmptyString => None
        end
      else if (nat_of_ascii c <? 32)%nat then None
      else match readString r with
           | Some (body, after) => Some (String c body, after)
           | None => None
           end
  end.

Fixpoint readDigits (acc : Z) (s : string) : Z * string :=
  match s with
  | String c r =>
      match Ascii.is_nat c with
      | Some d => readDigits (10 * acc + Z.of_nat d) r
      | None => (acc, s)
      end
  | EmptyString => (acc, s)
  end.

Definition isDigit (c : ascii) : bool :=
  match Ascii.is_nat c with Some _ => true | None => false end.

(** An integer literal; a fraction or an exponent is not read. *)
Definition readNumber (s : string) : option (Z * string) :=
  let '(neg, body) :=
    match s with
    | String "-" r => (true, r)
    | _ => (false, s)
    end in
  match body with
  | String c _ =>
      if isDigit c then
        let '(n, rest) := readDigits 0 body in
        match rest with
        | String "." _ | String "e" _ | String "E" _ => None
        | _ => Some (if neg then - n else n, rest)
        end
      else None
  | EmptyString => None
  end.

Definition stripPrefix (p s : string) : option string :=
  if JsString.startsWith s p
  then Some (String.substring (String.length p) (String.length s - String.length p) s)
  else None.

Fixpoint readValue (fuel : nat) (s : string) : option (JSON * string) :=
  match fuel with
  | O => None
  | S fuel' =>
      match skipWs s with
      | String "[" r =>
          match skipWs r with
          | String "]" r' => Some (JArray [], r')
          | _ => match readItems fuel' r with
                 | Some (items, r') => Some (JArray items, r')
                 | None => None
                 end
          end
      | String "{" r =>
          match skipWs r with
          | String "}" r' => Some (JObject [], r')
          | _ => match readMembers fuel' r with
                 | Some (props, r') => Some (JObject (JsMap.ofPairs props), r')
                 | None => None
                 end
          end
      | String c r as s' =>
          if Ascii.eqb c quote then
            match readString r with
            | Some (str, r') => Some (JString str, r')
            | None => None
            end
          else match stripPrefix "null" s', stripPrefix "true" s', stripPrefix "false" s' with
               | Some r', _, _ => Some (JNull, r')
               | _, Some r', _ => Some (JBool true, r')
               | _, _, Some r' => Some (JBool false, r')
               | _, _, _ =>
                   match readNumber s' with
                   | Some (n, r') => Some (JNumber n, r')
                   | None => None
                   end
               end
      | EmptyString => None
      end
  end
with readItems (fuel : nat) (s : string) : option (list JSON * string) :=
  match fuel with
  | O => None
  | S fuel' =>
      match readValue fuel' s with
      | Some (v, r) =>
          match skipWs r with
          | String "," r' =>
              match readItems fuel' r' with
              | Some (vs, r'') => Some (v :: vs, r'')
              | None => None
              end
          | String "]" r' => Some ([v], r')
          | _ => None
          end
      | None => None
      end
  end
with readMembers (fuel : nat) (s : string) : option (list (string * JSON) * string) :=
  match fuel with
  | O => None
  | S fuel' =>
      match skipWs s with
      | String c r =>
          if Ascii.eqb c quote then
            match readString r with
            | Some (k, r1) =>
                match skipWs r1 with
                | String ":" r2 =>
                    match readValue fuel' r2 with
                    | Some (v, r3) =>
                        match skipWs r3 with
                        | String "," r4 =>
                            match readMembers fuel' r4 with
                            | Some (kvs, r5) => Some ((k, v) :: kvs, r5)
                            | None => None
                            end
                        | String "}" r4 => Some ([(k, v)], r4)
                        | _ => None
                        end
                    | None => None
                    end
                | _ => None
                end
            | None => None
            end
          else None
      | EmptyString => None
      end
  end.

Definition parse (text : string) : Result JSON :=
  match readValue (2 * String.length text + 2) text with
  | Some (v, rest) =>
      match skipWs rest with
      | EmptyString => Ok v
      | _ => Throw "Unexpected non-whitespace character after JSON"
      end
  | None => Throw "Unexpected token in JSON"
  end.

Definition runtime : Runtime :=
  {| JSON_parse := parse; JSON_stringify := fun space v => print space 0 v |}.

End RefRuntime.

(** ** Sample states and files, run on the reference runtime *)

Module Sample.

Definition blank : World :=
  {| entries := []; selectedId := ""; query := ""; localStorage := ∅;
     alerts := [] |}.

(** The application started on a given [localStorage]. *)
Definition start (storage : gmap string string) : World :=
  default blank (@mount RefRuntime.runtime storage "u1" "u2" 1000).

(** The application started on an empty [localStorage]. *)
Definition world : World := start ∅.

(** The file that [exportJson] writes for a collection. *)
Definition fileOf (es : list Entry) : string :=
  RefRuntime.print 2 0 (entriesToJSON es).

(** The application started on a stored collection. *)
Definition worldOf (es : list Entry) : World :=
  start {[ KEY := RefRuntime.print 0 0 (entriesToJSON es) ]}.

Definition older : Entry := mkEntry "x" "old" "before" "" [] 1 1.

Definition newer : Entry := mkEntry "x" "T" "" "" [] 1 5.

(** A record of the entry shape whose id is the empty string. *)
Definition unnamed : Entry := mkEntry "" "T" "" "" [] 1 5.

(** A record of the entry shape that was updated before it was created. *)
Definition stale : Entry := mkEntry "y" "T" "" "" [] 5 1.



End Sample.

(** * Theorems *)

(** ** Facts about the string primitives *)

Section StringFacts.
Implicit Types (c : ascii) (s q : string).

Lemma toLowerCaseChar_idem c :
  JsString.toLowerCaseChar (JsString.toLowerCaseChar c) = JsString.toLowerCaseChar c.
Proof. by destruct c as [[] [] [] [] [] [] [] []]. Qed.

Lemma is_space_toLowerCaseChar c :
  Ascii.is_space (JsString.toLowerCaseChar c) = Ascii.is_space c.
Proof. by destruct c as [[] [] [] [] [] [] [] []]. Qed.

Lemma toLowerCase_idem s :
  JsString.toLowerCase (JsString.toLowerCase s) = JsString.toLowerCase s.
Proof.
  induction s as [|c r IH]; simpl; [done|].
  by rewrite toLowerCaseChar_idem, IH.
Qed.

Lemma toLowerCase_trimStart s :
  JsString.trimStart (JsString.toLowerCase s)
  = JsString.toLowerCase (JsString.trimStart s).
Proof.
  induction s as [|c r IH]; simpl; [done|].
  rewrite is_space_toLowerCaseChar. by destruct (Ascii.is_space c).
Qed.

Lemma toLowerCase_trimEnd s :
  JsString.trimEnd (JsString.toLowerCase s)
  = JsString.toLowerCase (JsString.trimEnd s).
Proof.
  induction s as [|c r IH]; simpl; [done|].
  rewrite IH, is_space_toLowerCaseChar.
  destruct (JsString.trimEnd r); simpl; [|done].
  by destruct (Ascii.is_space c).
Qed.

Lemma toLowerCase_trim s :
  JsString.trim (JsString.toLowerCase s) = JsString.toLowerCase (JsString.trim s).
Proof. unfold JsString.trim. by rewrite toLowerCase_trimStart, toLowerCase_trimEnd. Qed.

Lemma trimEnd_cons c s :
  JsString.trimEnd (String c s)
  = match JsString.trimEnd s with
    | EmptyString => if Ascii.is_space c then EmptyString else String c EmptyString
    | String c' r' => String c (String c' r')
    end.
Proof. reflexivity. Qed.

Lemma trimEnd_idem s :
  JsString.trimEnd (JsString.trimEnd s) = JsString.trimEnd s.
Proof.
  induction s as [|c r IH]; [done|].
  rewrite trimEnd_cons.
  destruct (JsString.trimEnd r) as [|c' r'] eqn:Hr.
  - destruct (Ascii.is_space c) eqn:Hc; [done|].
    rewrite trimEnd_cons. simpl. by rewrite Hc.
  - rewrite trimEnd_cons, IH. done.
Qed.

(** What [trimStart] returns does not begin with white space. *)
Lemma trimStart_head s :
  match JsString.trimStart s with
  | EmptyString => True
  | String c _ => Ascii.is_space c = false
  end.
Proof.
  induction s as [|c r IH]; simpl; [done|].
  destruct (Ascii.is_space c) eqn:Hc; [done|]. simpl. done.
Qed.

Lemma trimEnd_head c s :
  Ascii.is_space c = false ->
  exists r, JsString.trimEnd (String c s) = String c r.
Proof.
  intros Hc. simpl. destruct (JsString.trimEnd s); rewrite ?Hc; eauto.
Qed.

Lemma trim_idem s : JsString.trim (JsString.trim s) = JsString.trim s.
Proof.
  unfold JsString.trim. pose proof (trimStart_head s) as Hh.
  destruct (JsString.trimStart s) as [|c r]; [done|].
  destruct (trimEnd_head c r Hh) as [r' Hr]. rewrite Hr.
  cbn [JsString.trimStart]. rewrite Hh, <- Hr. apply trimEnd_idem.
Qed.

(** The pieces of [split], joined by the separator, are the string. *)
Lemma join_split (sep : ascii) s :
  JsString.join (String sep "") (JsString.split sep s) = s.
Proof.
  induction s as [|c r IH]; simpl; [done|].
  destruct (Ascii.eqb_spec c sep) as [-> | Hne].
  - destruct (JsString.split sep r) as [|p ps] eqn:Hs; simpl in *.
    + by subst r.
    + by rewrite <- IH.
  - destruct (JsString.split sep r) as [|p ps] eqn:Hs; simpl in *.
    + by subst r.
    + rewrite <- IH. by destruct ps.
Qed.
End StringFacts.

(** ** Facts about the array primitives *)

Section ArrayFacts.
Context {A : Type} `{EqDecision A}.
Implicit Types (x : A) (l pre : list A).

Lemma indexOf_present x l :
  x ∈ l -> 0 <= JsArray.indexOf x l < Z.of_nat (length l).
Proof.
  induction l as [|y r IH]; simpl; intros Hx; [by apply elem_of_nil in Hx|].
  destruct (decide (y = x)); [lia|].
  apply elem_of_cons in Hx as [Heq | Hr]; [congruence|].
  specialize (IH Hr).
  destruct (Z.ltb_spec (JsArray.indexOf x r) 0); lia.
Qed.

Lemma indexOf_app_present x pre l :
  x ∈ pre -> JsArray.indexOf x (pre ++ l) = JsArray.indexOf x pre.
Proof.
  induction pre as [|y r IH]; simpl; intros Hx; [by apply elem_of_nil in Hx|].
  destruct (decide (y = x)); [done|].
  apply elem_of_cons in Hx as [Heq | Hr]; [congruence|].
  by rewrite (IH Hr).
Qed.

Lemma indexOf_app_first x pre l :
  x ∉ pre -> JsArray.indexOf x (pre ++ x :: l) = Z.of_nat (length pre).
Proof.
  induction pre as [|y r IH]; simpl; intros Hx.
  - by rewrite decide_True.
  - apply not_elem_of_cons in Hx as [Hne Hr].
    destruct (decide (y = x)); [congruence|].
    rewrite (IH Hr).
    destruct (Z.ltb_spec (Z.of_nat (length r)) 0); lia.
Qed.

(** At position [length pre] of [pre ++ x :: l], the test
    [arr.indexOf(x) === i] holds exactly when [x] is new. *)
Lemma indexOf_here x pre l :
  (JsArray.indexOf x (pre ++ x :: l) =? Z.of_nat (length pre)) = bool_decide (x ∉ pre).
Proof.
  destruct (decide (x ∈ pre)) as [Hin | Hout].
  - rewrite (bool_decide_eq_false_2 _ (λ Hn, Hn Hin)).
    rewrite indexOf_app_present by done.
    apply Z.eqb_neq. pose proof (indexOf_present x pre Hin). lia.
  - rewrite (bool_decide_eq_true_2 _ Hout).
    apply Z.eqb_eq. by apply indexOf_app_first.
Qed.
End ArrayFacts.

(** The index filter of [normalizeTags] is the walk that drops what it has
    already seen. *)
Lemma filteri_indexOf_dropSeen (pre seen l : list string) :
  (forall t, t ∈ seen <-> t ∈ pre) ->
  JsArray.filteri_from (Z.of_nat (length pre))
    (fun t i => JsArray.indexOf t (pre ++ l) =? i) l
  = dropSeen seen l.
Proof.
  revert pre seen. induction l as [|t r IH]; intros pre seen Hseen; simpl; [done|].
  rewrite indexOf_here.
  assert (Hnext : Z.of_nat (length pre) + 1 = Z.of_nat (length (pre ++ [t])))
    by (rewrite length_app; simpl; lia).
  assert (Happ : pre ++ t :: r = (pre ++ [t]) ++ r) by (by rewrite <- app_assoc).
  destruct (decide (t ∈ pre)) as [Hin | Hout].
  - rewrite (bool_decide_eq_false_2 (t ∉ pre)) by tauto.
    rewrite (bool_decide_eq_true_2 (t ∈ seen)) by (by apply Hseen).
    rewrite Hnext, Happ. apply IH.
    intros u. rewrite elem_of_app, list_elem_of_singleton, Hseen.
    split; [tauto|]. intros [?| ->]; done.
  - rewrite (bool_decide_eq_true_2 (t ∉ pre)) by done.
    rewrite (bool_decide_eq_false_2 (t ∈ seen)) by (by rewrite Hseen).
    f_equal. rewrite Hnext, Happ. apply IH.
    intros u. rewrite elem_of_cons, elem_of_app, list_elem_of_singleton, Hseen. tauto.
Qed.

Lemma dropSeen_elem seen l t :
  t ∈ dropSeen seen l <-> t ∈ l ∧ t ∉ seen.
Proof.
  revert seen. induction l as [|u r IH]; intros seen; simpl.
  - rewrite elem_of_nil. tauto.
  - case_bool_decide as Hu.
    + rewrite IH, elem_of_cons. split; [tauto|].
      intros [[-> | ?] ?]; tauto.
    + rewrite !elem_of_cons, IH, elem_of_cons.
      destruct (decide (t = u)) as [-> | Hne]; tauto.
Qed.

Lemma dropSeen_NoDup seen l : NoDup (dropSeen seen l).
Proof.
  revert seen. induction l as [|u r IH]; intros seen; simpl; [constructor|].
  case_bool_decide; [apply IH|].
  constructor; [|apply IH].
  rewrite dropSeen_elem, elem_of_cons. tauto.
Qed.

Lemma truthy_nonempty s : JsString.truthy s = negb (String.eqb s "").
Proof. by destruct s. Qed.

(** C6. For every input string, [normalizeTags] is: split on commas, trim
    each piece, drop the empty pieces, lowercase, keep the first occurrence
    of each value in order.  [normalizeTags "a, A, b ,, b"] is [["a"; "b"]],
    and the result never holds a duplicate or the empty string.  Its tags
    are the lowercased trimmed non-empty pieces between the commas of the
    input, and each is itself trimmed and lowercase. *)
Theorem normalizeTags_correct (input : string) :
  normalizeTags input = normalizeTags_spec input
  ∧ normalizeTags "a, A, b ,, b" = ["a"; "b"]
  ∧ NoDup (normalizeTags input)
  ∧ ("" ∉ normalizeTags input)
  ∧ (forall t, t ∈ normalizeTags input <->
       exists p, p ∈ JsString.split "," input
                 ∧ JsString.trim p <> ""
                 ∧ t = JsString.toLowerCase (JsString.trim p))
  ∧ (forall t, t ∈ normalizeTags input ->
       JsString.trim t = t ∧ JsString.toLowerCase t = t)
  ∧ JsString.join "," (JsString.split "," input) = input.
Proof.
  assert (Hspec : normalizeTags input = normalizeTags_spec input).
  { unfold normalizeTags, normalizeTags_spec, JsArray.filteri.
    rewrite (filter_ext _ _ truthy_nonempty).
    apply (filteri_indexOf_dropSeen [] []). done. }
  assert (Hmem : forall t, t ∈ normalizeTags input <->
            exists p, p ∈ JsString.split "," input
                      ∧ JsString.trim p <> ""
                      ∧ t = JsString.toLowerCase (JsString.trim p)).
  { intros t. rewrite Hspec. unfold normalizeTags_spec.
    rewrite dropSeen_elem, list_elem_of_In, in_map_iff. split.
    - intros [(u & <- & Hu) _]. apply filter_In in Hu as [Hu Hne].
      apply in_map_iff in Hu as (p & <- & Hp). exists p.
      split; [by apply list_elem_of_In|]. split; [|done].
      intros Hemp. by rewrite Hemp in Hne.
    - intros (p & Hp & Hne & ->). split; [|apply not_elem_of_nil].
      exists (JsString.trim p). split; [done|]. apply filter_In. split.
      + apply in_map, list_elem_of_In, Hp.
      + by destruct (JsString.trim p). }
  split; [exact Hspec|]. split; [reflexivity|].
  split; [rewrite Hspec; apply dropSeen_NoDup|].
  split; [|split; [exact Hmem|split]].
  - intros Hin. apply Hmem in Hin as (p & _ & Hne & Hp).
    destruct (JsString.trim p); [done | discriminate Hp].
  - intros t Ht. apply Hmem in Ht as (p & _ & _ & ->).
    by rewrite toLowerCase_trim, trim_idem, toLowerCase_idem.
  - apply (join_split ","%char).
Qed.

(** ** Substring search *)

Lemma app_String_l (a : ascii) (s t : string) :
  String a s +:+ t = String a (s +:+ t).
Proof. reflexivity. Qed.

Lemma startsWith_spec s q :
  JsString.startsWith s q = true <-> exists post, s = q +:+ post.
Proof.
  revert s. induction q as [|b q IH]; intros s; cbn [JsString.startsWith].
  - split; [intros _; exists s; reflexivity | by destruct s].
  - destruct s as [|a s].
    + split; [done | intros [post Hp]; discriminate Hp].
    + cbn [JsString.startsWith].
      rewrite andb_true_iff, IH, Ascii.eqb_eq. split.
      * intros [-> [post ->]]. by exists post.
      * intros [post Hp]. rewrite app_String_l in Hp.
        injection Hp as -> ->. eauto.
Qed.

Lemma includes_spec s q :
  JsString.includes s q = true <-> contains s q.
Proof.
  unfold contains. induction s as [|a s IH]; cbn [JsString.includes].
  - rewrite orb_false_r, startsWith_spec. split.
    + intros [post Hp]. by exists "", post.
    + intros (pre & post & Hp). destruct pre; [by exists post | discriminate Hp].
  - rewrite orb_true_iff, startsWith_spec, IH. split.
    + intros [[post Hp] | (pre & post & Hp)].
      * by exists "", post.
      * exists (String a pre), post. by rewrite app_String_l, Hp.
    + intros (pre & post & Hp). destruct pre as [|c pre].
      * left. by exists post.
      * right. rewrite app_String_l in Hp. injection Hp as -> ->.
        by exists pre, post.
Qed.

Lemma includes_empty s : JsString.includes s "" = true.
Proof. apply includes_spec. exists "", s. reflexivity. Qed.

(** ** The stable sort, for a comparator [(a, b) => key(b) - key(a)] *)

Section SortFacts.
Context {A : Type} (key : A -> Z).
Implicit Types (x : A) (l : list A).

Local Abbreviation cmp := (fun a b : A => key b - key a).
Local Abbreviation desc := (fun a b : A => key b <= key a).

Lemma sort_insert_perm x l : JsArray.sort_insert cmp x l ≡ₚ x :: l.
Proof.
  induction l as [|y r IH]; simpl; [done|].
  destruct (0 <? key y - key x); [|done].
  rewrite IH. apply Permutation_swap.
Qed.

Lemma sort_perm l : JsArray.sort cmp l ≡ₚ l.
Proof.
  induction l as [|x r IH]; simpl; [done|].
  by rewrite sort_insert_perm, IH.
Qed.

Lemma sort_insert_sorted x l :
  StronglySorted desc l -> StronglySorted desc (JsArray.sort_insert cmp x l).
Proof.
  induction 1 as [|y r Hr IH Hy]; simpl; [repeat constructor|].
  destruct (Z.ltb_spec 0 (key y - key x)) as [Hlt | Hge].
  - constructor; [done|].
    rewrite sort_insert_perm. constructor; [lia | done].
  - constructor; [by constructor|].
    constructor; [lia|].
    eapply Forall_impl; [exact Hy|]. simpl. intros; lia.
Qed.

Lemma sort_sorted l : StronglySorted desc (JsArray.sort cmp l).
Proof.
  induction l as [|x r IH]; simpl; [constructor|].
  by apply sort_insert_sorted.
Qed.

(** Stability: the elements of one key keep their order. *)
Lemma sort_insert_class k x l :
  List.filter (fun a => key a =? k) (JsArray.sort_insert cmp x l)
  = List.filter (fun a => key a =? k) (x :: l).
Proof.
  induction l as [|y r IH]; [done|].
  cbn [JsArray.sort_insert].
  destruct (Z.ltb_spec 0 (key y - key x)) as [Hlt | Hge]; [|done].
  cbn [List.filter]. rewrite IH. cbn [List.filter].
  destruct (Z.eqb_spec (key x) k), (Z.eqb_spec (key y) k); try done. lia.
Qed.

Lemma sort_stable k l :
  List.filter (fun a => key a =? k) (JsArray.sort cmp l)
  = List.filter (fun a => key a =? k) l.
Proof.
  induction l as [|x r IH]; [done|].
  cbn [JsArray.sort]. rewrite sort_insert_class. simpl. by rewrite IH.
Qed.

Lemma sort_elem x l : x ∈ JsArray.sort cmp l <-> x ∈ l.
Proof. by rewrite sort_perm. Qed.

(** The first element of the sorted array has the greatest key, and is
    the first of the input with that key. *)
Lemma sort_head h t l :
  JsArray.sort cmp l = h :: t ->
  h ∈ l ∧ (forall a, a ∈ l -> key a <= key h)
  ∧ List.hd_error (List.filter (fun a => key a =? key h) l) = Some h.
Proof.
  intros Hs. pose proof (sort_sorted l) as Hsorted.
  pose proof (sort_stable (key h) l) as Hst.
  rewrite Hs in Hsorted, Hst. split; [|split].
  - apply sort_elem. rewrite Hs. left.
  - intros a Ha. apply sort_elem in Ha. rewrite Hs in Ha.
    apply StronglySorted_inv in Hsorted as [_ Hall].
    apply elem_of_cons in Ha as [-> | Ha]; [lia|].
    rewrite Forall_forall in Hall. by apply Hall.
  - rewrite <- Hst. simpl. by rewrite Z.eqb_refl.
Qed.

Lemma filter_class_elem k x l :
  x ∈ List.filter (fun a => key a =? k) l <-> x ∈ l ∧ key x = k.
Proof. by rewrite list_elem_of_In, filter_In, Z.eqb_eq, list_elem_of_In. Qed.

Lemma sorted_head_max h t x :
  StronglySorted desc (h :: t) -> x ∈ h :: t -> key x <= key h.
Proof.
  intros Hs Hx. apply StronglySorted_inv in Hs as [_ Hall].
  apply elem_of_cons in Hx as [-> | Hx]; [lia|].
  rewrite Forall_forall in Hall. by apply Hall.
Qed.

(** A list in descending key order is determined by the order within
    each key: whatever stable algorithm the engine runs, [arr.sort]
    returns the list of [JsArray.sort]. *)
Lemma sorted_stable_unique l1 l2 :
  StronglySorted desc l1 -> StronglySorted desc l2 ->
  (forall k, List.filter (fun a => key a =? k) l1
             = List.filter (fun a => key a =? k) l2) ->
  l1 = l2.
Proof.
  revert l2. induction l1 as [|h1 t1 IH]; intros l2 Hs1 Hs2 Hcl.
  - destruct l2 as [|h2 t2]; [done|].
    specialize (Hcl (key h2)). simpl in Hcl. by rewrite Z.eqb_refl in Hcl.
  - destruct l2 as [|h2 t2].
    { specialize (Hcl (key h1)). simpl in Hcl. by rewrite Z.eqb_refl in Hcl. }
    assert (H21 : key h2 <= key h1).
    { apply (sorted_head_max h1 t1 h2 Hs1).
      apply (filter_class_elem (key h2)). rewrite Hcl.
      apply filter_class_elem. split; [left | done]. }
    assert (H12 : key h1 <= key h2).
    { apply (sorted_head_max h2 t2 h1 Hs2).
      apply (filter_class_elem (key h1)). rewrite <- Hcl.
      apply filter_class_elem. split; [left | done]. }
    assert (Hk : key h2 = key h1) by lia.
    pose proof (Hcl (key h1)) as Hh. simpl in Hh.
    rewrite Hk, Z.eqb_refl in Hh. injection Hh as <- Hh.
    f_equal. apply IH.
    + by apply StronglySorted_inv in Hs1 as [? _].
    + by apply StronglySorted_inv in Hs2 as [? _].
    + intros k. specialize (Hcl k). simpl in Hcl.
      destruct (key h1 =? k); [by injection Hcl | done].
Qed.

Lemma sort_unique l l' :
  StronglySorted desc l' ->
  (forall k, List.filter (fun a => key a =? k) l'
             = List.filter (fun a => key a =? k) l) ->
  l' = JsArray.sort cmp l.
Proof.
  intros Hs Hcl. apply sorted_stable_unique; [done | apply sort_sorted |].
  intros k. by rewrite sort_stable.
Qed.

Lemma sort_nil l : JsArray.sort cmp l = [] <-> l = [].
Proof.
  split; [|by intros ->].
  intros Hs. apply Permutation_nil_r. by rewrite <- Hs, sort_perm.
Qed.
End SortFacts.

(** ** The search view *)



(** ** The insertion-ordered map *)

Section MapFacts.
Context {K V : Type} `{EqDecision K}.
Implicit Types (k : K) (v : V) (m : list (K * V)).

Lemma get_set k k' v m :
  JsMap.get k' (JsMap.set k v m)
  = if decide (k = k') then Some v else JsMap.get k' m.
Proof.
  induction m as [|[k0 v0] r IH]; simpl.
  - destruct (decide (k = k')); done.
  - destruct (decide (k0 = k)) as [-> | Hne]; simpl.
    + destruct (decide (k = k')); done.
    + destruct (decide (k0 = k')) as [-> | Hne'].
      * by rewrite decide_False by congruence.
      * exact IH.
Qed.

Lemma set_keys k v m :
  map fst (JsMap.set k v m)
  = if bool_decide (k ∈ map fst m) then map fst m else map fst m ++ [k].
Proof.
  induction m as [|[k0 v0] r IH]; simpl; [done|].
  destruct (decide (k0 = k)) as [-> | Hne]; simpl.
  - rewrite bool_decide_eq_true_2 by left. done.
  - rewrite IH. case_bool_decide as Hin.
    + rewrite bool_decide_eq_true_2 by (by right). done.
    + rewrite bool_decide_eq_false_2; [done|].
      rewrite elem_of_cons. intros [? | ?]; [congruence | done].
Qed.

Lemma set_NoDup k v m :
  NoDup (map fst m) -> NoDup (map fst (JsMap.set k v m)).
Proof.
  intros Hnd. rewrite set_keys. case_bool_decide as Hin; [done|].
  apply NoDup_app. split; [done|]. split; [|apply NoDup_singleton].
  intros x Hx Hk. apply list_elem_of_singleton in Hk as ->. done.
Qed.

Lemma elem_of_get k v m :
  NoDup (map fst m) -> (k, v) ∈ m <-> JsMap.get k m = Some v.
Proof.
  induction m as [|[k0 v0] r IH]; simpl; intros Hnd.
  - rewrite elem_of_nil. split; [tauto | discriminate].
  - apply NoDup_cons in Hnd as [Hk0 Hnd]. rewrite elem_of_cons, (IH Hnd).
    destruct (decide (k0 = k)) as [-> | Hne].
    + split.
      * intros [Heq | Hget]; [congruence|].
        apply (IH Hnd) in Hget. exfalso. apply Hk0.
        apply list_elem_of_In, in_map_iff. exists (k, v).
        split; [done | by apply list_elem_of_In].
      * intros [= ->]. by left.
    + split; [intros [? | ?]; [congruence | done] | by right].
Qed.

(** Writing back what the map already holds changes nothing. *)
Lemma set_same k v m :
  NoDup (map fst m) -> (k, v) ∈ m -> JsMap.set k v m = m.
Proof.
  induction m as [|[k0 v0] r IH]; simpl; intros Hnd Hin.
  - by apply elem_of_nil in Hin.
  - apply NoDup_cons in Hnd as [Hk0 Hnd].
    destruct (decide (k0 = k)) as [-> | Hne].
    + apply elem_of_cons in Hin as [[= ->] | Hin]; [done|].
      exfalso. apply Hk0. apply list_elem_of_In, in_map_iff. exists (k, v).
      split; [done | by apply list_elem_of_In].
    + apply elem_of_cons in Hin as [? | Hin]; [congruence|].
      by rewrite (IH Hnd Hin).
Qed.

Lemma set_fresh k v m :
  k ∉ map fst m -> JsMap.set k v m = m ++ [(k, v)].
Proof.
  induction m as [|[k0 v0] r IH]; simpl; intros Hk; [done|].
  apply not_elem_of_cons in Hk as [Hne Hk].
  rewrite decide_False by congruence. by rewrite (IH Hk).
Qed.
End MapFacts.

(** ** Merging by id *)

Lemma ofPairs_fill (prev : list Entry) :
  JsMap.ofPairs (map (fun e => (id e, e)) prev) = fill prev [].
Proof.
  unfold JsMap.ofPairs, fill. generalize (@nil (string * Entry)).
  induction prev as [|e r IH]; intros m; simpl; [done|]. apply IH.
Qed.

Lemma mergeById_fill (incoming prev : list Entry) :
  mergeById incoming prev
  = JsArray.sort byUpdatedDesc (JsMap.values (fill (prev ++ incoming) [])).
Proof.
  unfold mergeById. rewrite ofPairs_fill. unfold fill.
  by rewrite fold_left_app.
Qed.

Lemma lastWithId_app i l1 l2 :
  lastWithId i (l1 ++ l2)
  = match lastWithId i l2 with Some e => Some e | None => lastWithId i l1 end.
Proof.
  induction l1 as [|e r IH]; simpl.
  - by destruct (lastWithId i l2).
  - rewrite IH. by destruct (lastWithId i l2).
Qed.

Lemma lastWithId_Some i l e :
  lastWithId i l = Some e -> e ∈ l ∧ id e = i.
Proof.
  induction l as [|x r IH]; simpl; [done|].
  destruct (lastWithId i r) as [y|].
  - intros [= ->]. destruct (IH eq_refl). split; [by right | done].
  - case_bool_decide; [|done]. intros [= ->]. split; [left | done].
Qed.

Lemma lastWithId_None i l :
  lastWithId i l = None <-> i ∉ map id l.
Proof.
  induction l as [|x r IH]; simpl.
  - split; [intros _; apply not_elem_of_nil | done].
  - rewrite not_elem_of_cons, <- IH. destruct (lastWithId i r).
    + split; [done | intros [_ ?]; done].
    + case_bool_decide; split; try done; intros [? _]; congruence.
Qed.

Lemma lastWithId_is_Some i l :
  i ∈ map id l -> exists e, lastWithId i l = Some e.
Proof.
  intros Hin. destruct (lastWithId i l) as [e|] eqn:Hl; [by exists e|].
  by apply lastWithId_None in Hl.
Qed.

Lemma elem_of_ids (e : Entry) (l : list Entry) : e ∈ l -> id e ∈ map id l.
Proof. intros He. apply list_elem_of_In, in_map, list_elem_of_In, He. Qed.

Lemma lastWithId_unique l e :
  NoDup (map id l) -> e ∈ l -> lastWithId (id e) l = Some e.
Proof.
  induction l as [|x r IH]; simpl; intros Hnd He; [by apply elem_of_nil in He|].
  apply NoDup_cons in Hnd as [Hx Hnd].
  apply elem_of_cons in He as [-> | He].
  - destruct (lastWithId (id x) r) as [y|] eqn:Hy.
    + apply lastWithId_Some in Hy as [Hy Hid]. exfalso. apply Hx.
      rewrite <- Hid. by apply elem_of_ids.
    + by rewrite bool_decide_eq_true_2.
  - by rewrite (IH Hnd He).
Qed.

Lemma fill_get i l m :
  JsMap.get i (fill l m)
  = match lastWithId i l with Some e => Some e | None => JsMap.get i m end.
Proof.
  revert m. induction l as [|e r IH]; intros m; simpl; [done|].
  unfold fill in *. simpl. rewrite IH.
  destruct (lastWithId i r); [done|].
  rewrite get_set. case_bool_decide; destruct (decide (id e = i)); done.
Qed.

Lemma fill_NoDup l m :
  NoDup (map fst m) -> NoDup (map fst (fill l m)).
Proof.
  revert m. induction l as [|e r IH]; intros m Hnd; simpl; [done|].
  apply IH. by apply set_NoDup.
Qed.

Lemma set_keyed e m : keyed m -> keyed (JsMap.set (id e) e m).
Proof.
  unfold keyed. induction 1 as [|[k0 v0] r Hk Hr IH]; simpl.
  - by repeat constructor.
  - destruct (decide (k0 = id e)); constructor; done.
Qed.

Lemma fill_keyed l m : keyed m -> keyed (fill l m).
Proof.
  revert m. induction l as [|e r IH]; intros m Hk; simpl; [done|].
  apply IH. by apply set_keyed.
Qed.

Lemma keyed_values m : keyed m -> map id (JsMap.values m) = map fst m.
Proof.
  unfold keyed, JsMap.values. induction 1 as [|[k v] r Hk Hr IH]; simpl; [done|].
  simpl in Hk. by rewrite IH, Hk.
Qed.

Lemma keyed_elem m e :
  keyed m -> e ∈ JsMap.values m <-> (id e, e) ∈ m.
Proof.
  unfold keyed, JsMap.values. intros Hk. split.
  - intros He. apply list_elem_of_In, in_map_iff in He as ([k v] & Hv & Hin).
    simpl in Hv. subst v. rewrite Forall_forall in Hk.
    apply list_elem_of_In in Hin. specialize (Hk _ Hin). simpl in Hk. by subst k.
  - intros He. apply list_elem_of_In, in_map_iff. exists (id e, e).
    split; [done | by apply list_elem_of_In].
Qed.

(** An entry is in the merged collection exactly when it is the last one
    with its id in the existing entries followed by the incoming ones. *)
Lemma mergeById_elem incoming prev e :
  e ∈ mergeById incoming prev
  <-> lastWithId (id e) (prev ++ incoming) = Some e.
Proof.
  rewrite mergeById_fill. unfold byUpdatedDesc.
  rewrite (sort_elem updatedAt), keyed_elem by (apply fill_keyed; constructor).
  rewrite elem_of_get by (apply fill_NoDup; constructor).
  rewrite fill_get. simpl. by destruct (lastWithId (id e) (prev ++ incoming)).
Qed.

Lemma mergeById_NoDup incoming prev :
  NoDup (map id (mergeById incoming prev)).
Proof.
  rewrite mergeById_fill. unfold byUpdatedDesc.
  rewrite (sort_perm updatedAt), keyed_values by (apply fill_keyed; constructor).
  apply fill_NoDup. constructor.
Qed.

Lemma fill_distinct l m :
  NoDup (map id l) -> (forall e, e ∈ l -> id e ∉ map fst m) ->
  fill l m = m ++ map (fun e => (id e, e)) l.
Proof.
  revert m. induction l as [|e r IH]; intros m Hnd Hfresh; simpl.
  - by rewrite app_nil_r.
  - apply NoDup_cons in Hnd as [He Hnd].
    rewrite set_fresh by (apply Hfresh; left).
    rewrite IH; [by rewrite <- app_assoc | done |].
    intros x Hx. rewrite map_app, elem_of_app. simpl.
    rewrite list_elem_of_singleton. intros [Hm | Heq].
    + by apply (Hfresh x); [right|].
    + apply He. rewrite <- Heq. by apply elem_of_ids.
Qed.

Lemma fill_same l m :
  NoDup (map fst m) -> (forall e, e ∈ l -> (id e, e) ∈ m) -> fill l m = m.
Proof.
  intros Hnd. induction l as [|e r IH]; intros Hin; simpl; [done|].
  rewrite set_same; [|done|apply Hin; left].
  apply IH. intros x Hx. apply Hin. by right.
Qed.

(** Merging a collection with distinct ids into itself only sorts it. *)
Lemma mergeById_self seen es :
  NoDup (map id es) -> seen ≡ₚ es ->
  mergeById seen es = JsArray.sort byUpdatedDesc es.
Proof.
  intros Hnd Hperm. unfold mergeById. rewrite ofPairs_fill.
  rewrite (fill_distinct es []); [|done|intros; apply not_elem_of_nil].
  simpl. fold (fill seen (map (fun e => (id e, e)) es)).
  rewrite fill_same.
  - unfold JsMap.values. rewrite map_map. simpl. by rewrite map_id.
  - rewrite map_map. simpl. done.
  - intros e He. rewrite Hperm in He.
    apply list_elem_of_In, in_map_iff. exists e. split; [done | by apply list_elem_of_In].
Qed.
(** ** The type [Entry] *)

(** Two entries are equal when they are the same object. *)
Lemma Entry_eq (e1 e2 : Entry) : props e1 = props e2 -> e1 = e2.
Proof.
  destruct e1 as [p1 H1], e2 as [p2 H2]. simpl. intros ->.
  f_equal. apply proof_irrel.
Qed.

Lemma object_inj (e1 e2 : Entry) : object e1 = object e2 -> e1 = e2.
Proof. unfold object. intros [= Hp]. by apply Entry_eq. Qed.

Lemma map_object_inj (es1 es2 : list Entry) :
  map object es1 = map object es2 -> es1 = es2.
Proof.
  revert es2. induction es1 as [|e r IH]; intros [|e' r']; try done.
  cbn [map]. intros [= He Hr]. f_equal; [by apply Entry_eq | by apply IH].
Qed.

Lemma isEntry_object (e : Entry) : isEntry (object e) = true.
Proof. apply Is_true_true, (shaped e). Qed.

(** The guard gives back the value it was asked about. *)
Lemma checkEntry_Some (x : JSON) (e : Entry) :
  checkEntry x = Some e -> object e = x.
Proof.
  unfold checkEntry. destruct x as [| | | | |p]; try done.
  destruct (Is_true_dec (isEntry (JObject p))); [|done]. by intros [= <-].
Qed.

Lemma isEntry_JObject (x : JSON) :
  isEntry x = true -> exists p, x = JObject p.
Proof.
  destruct x as [|b|n|s|l|p]; intros Hx; [..|by exists p];
    unfold isEntry in Hx; simpl in Hx; by rewrite ?andb_false_r in Hx.
Qed.

Lemma checkEntry_isEntry (x : JSON) :
  isEntry x = true -> exists e, checkEntry x = Some e ∧ object e = x.
Proof.
  intros Hx. destruct (isEntry_JObject x Hx) as [p ->].
  unfold checkEntry. destruct (Is_true_dec (isEntry (JObject p))) as [Hp | Hn].
  - by eexists.
  - destruct Hn. by apply Is_true_true.
Qed.

Lemma checkEntry_None (x : JSON) :
  isEntry x = false -> checkEntry x = None.
Proof.
  intros Hx. destruct (checkEntry x) as [e|] eqn:He; [|done].
  apply checkEntry_Some in He. subst x. by rewrite isEntry_object in Hx.
Qed.

Lemma checkEntry_object (e : Entry) : checkEntry (object e) = Some e.
Proof.
  destruct (checkEntry_isEntry _ (isEntry_object e)) as (e' & -> & He').
  f_equal. by apply object_inj.
Qed.

(** The typed filter keeps the elements that [isEntry] accepts. *)
Lemma filterEntries_objects (items : list JSON) :
  map object (filterEntries items) = List.filter isEntry items.
Proof.
  unfold filterEntries. induction items as [|x r IH]; [done|].
  cbn [omap list_omap List.filter]. destruct (isEntry x) eqn:Hx.
  - destruct (checkEntry_isEntry x Hx) as (e & -> & <-).
    cbn [map]. by rewrite IH.
  - by rewrite (checkEntry_None x Hx).
Qed.

Lemma filterEntries_encoded (es : list Entry) :
  filterEntries (map object es) = es.
Proof.
  unfold filterEntries. induction es as [|e r IH]; [done|].
  cbn [map omap list_omap]. rewrite checkEntry_object. cbn. by f_equal.
Qed.

Lemma filterEntries_nil (items : list JSON) :
  filterEntries items = [] <-> List.filter isEntry items = [].
Proof.
  rewrite <- filterEntries_objects. by destruct (filterEntries items).
Qed.

(** The cast succeeds exactly on the arrays of entries, and then gives the
    array itself. *)
Lemma castEntries_encoded (es : list Entry) :
  castEntries (map object es) = Some es.
Proof.
  unfold castEntries. apply mapM_Some. induction es as [|e r IH]; cbn [map];
    constructor; [apply checkEntry_object | done].
Qed.

Lemma castEntries_Some (items : list JSON) (es : list Entry) :
  castEntries items = Some es <-> map object es = items.
Proof.
  split; [|intros <-; apply castEntries_encoded].
  unfold castEntries. intros Hm. apply mapM_Some in Hm.
  induction Hm as [|x e r es' Hx _ IH]; [done|].
  cbn [map]. by rewrite (checkEntry_Some _ _ Hx), IH.
Qed.

Lemma castEntries_is_Some (items : list JSON) :
  is_Some (castEntries items) <-> Forall (fun x => isEntry x = true) items.
Proof.
  unfold castEntries. rewrite mapM_is_Some. apply Forall_iff. intros x. simpl.
  split.
  - intros [e He]. apply checkEntry_Some in He as <-. apply isEntry_object.
  - intros Hx. destruct (checkEntry_isEntry x Hx) as (e & -> & _). by eexists.
Qed.

(** On an entry each of the seven properties is there, with its type. *)
Lemma entry_reads (e : Entry) :
  Js.get (object e) "id" = Some (JString (id e))
  ∧ Js.get (object e) "title" = Some (JString (title e))
  ∧ Js.get (object e) "oneLiner" = Some (JString (oneLiner e))
  ∧ Js.get (object e) "example" = Some (JString (example e))
  ∧ Js.get (object e) "tags" = Some (JArray (tags e))
  ∧ Js.get (object e) "createdAt" = Some (JNumber (createdAt e))
  ∧ Js.get (object e) "updatedAt" = Some (JNumber (updatedAt e)).
Proof.
  pose proof (isEntry_object e) as He.
  unfold id, title, oneLiner, example, tags, createdAt, updatedAt,
    stringProp, numberProp, arrayProp.
  revert He. generalize (object e). intros x. unfold isEntry.
  rewrite !andb_true_iff, !bool_decide_eq_true.
  intros ((((((((_ & _) & Hid) & Hti) & Hol) & Hex) & Hta) & Hcr) & Hup).
  destruct (Js.get x "id") as [[]|]; try done.
  destruct (Js.get x "title") as [[]|]; try done.
  destruct (Js.get x "oneLiner") as [[]|]; try done.
  destruct (Js.get x "example") as [[]|]; try done.
  destruct (Js.get x "tags") as [[]|]; try done.
  destruct (Js.get x "createdAt") as [[]|]; try done.
  destruct (Js.get x "updatedAt") as [[]|]; try done.
Qed.

(** ** Writing properties *)

Lemma lookupProp_set (k k' : string) (v : JSON) (p : list (string * JSON)) :
  Js.lookupProp k (JsMap.set k' v p)
  = if decide (k' = k) then Some v else Js.lookupProp k p.
Proof.
  induction p as [|[k0 v0] r IH]; cbn [JsMap.set Js.lookupProp].
  - destruct (decide (k' = k)) as [->|Hne].
    + by rewrite String.eqb_refl.
    + by rewrite (proj2 (String.eqb_neq k' k) Hne).
  - destruct (decide (k0 = k')) as [->|Hne0]; cbn [Js.lookupProp].
    + destruct (decide (k' = k)) as [->|Hne].
      * by rewrite String.eqb_refl.
      * by rewrite (proj2 (String.eqb_neq k' k) Hne).
    + rewrite IH. destruct (String.eqb_spec k0 k) as [->|Hk]; [|done].
      by rewrite decide_False by (intros ->; done).
Qed.

Lemma lookupProp_assign (k : string) (kvs p : list (string * JSON)) :
  Js.lookupProp k (fold_left (fun o kv => JsMap.set (fst kv) (snd kv) o) kvs p)
  = match Js.lookupProp k (reverse kvs) with
    | Some v => Some v
    | None => Js.lookupProp k p
    end.
Proof.
  revert p. induction kvs as [|[k0 v0] r IH] using rev_ind; intros p; [done|].
  rewrite fold_left_app, reverse_app. cbn [fold_left reverse rev_append app fst snd].
  rewrite lookupProp_set. cbn [Js.lookupProp].
  destruct (decide (k0 = k)) as [->|Hne].
  - by rewrite String.eqb_refl.
  - rewrite (proj2 (String.eqb_neq k0 k) Hne). apply IH.
Qed.

Lemma lookupProp_is_Some (k : string) (p : list (string * JSON)) :
  is_Some (Js.lookupProp k p) <-> k ∈ map fst p.
Proof.
  induction p as [|[k0 v0] r IH]; cbn [Js.lookupProp map fst].
  - split; [by intros [? ?] | by intros ?%elem_of_nil].
  - rewrite elem_of_cons. destruct (String.eqb_spec k0 k) as [->|Hne].
    + split; [by left | by eexists].
    + rewrite IH. split; [by right | by intros [->|?]].
Qed.

(** What the program reads from a patched object. *)
Lemma patched_lookup (patch : Patch) (now : Z) (p : list (string * JSON)) :
  let get k := Js.lookupProp k (patched patch now p) in
  let old k := Js.lookupProp k p in
  get "id" = match p_id patch with Some v => Some (JString v) | None => old "id" end
  ∧ get "title" = match p_title patch with Some v => Some (JString v) | None => old "title" end
  ∧ get "oneLiner" = match p_oneLiner patch with Some v => Some (JString v) | None => old "oneLiner" end
  ∧ get "example" = match p_example patch with Some v => Some (JString v) | None => old "example" end
  ∧ get "tags" = match p_tags patch with Some v => Some (JArray v) | None => old "tags" end
  ∧ get "createdAt" = match p_createdAt patch with Some v => Some (JNumber v) | None => old "createdAt" end
  ∧ get "updatedAt" = Some (JNumber now).
Proof.
  unfold patched. cbv zeta. rewrite !lookupProp_set, !lookupProp_assign.
  destruct patch as [[i|] [t|] [o|] [x|] [tg|] [c|] [u|]];
    repeat split; reflexivity.
Qed.

Lemma patchProps_keys (patch : Patch) (k : string) (v : JSON) :
  (k, v) ∈ patchProps patch ->
  k ∈ ["id"; "title"; "oneLiner"; "example"; "tags"; "createdAt"; "updatedAt"].
Proof.
  unfold patchProps. intros Hin.
  repeat (apply elem_of_app in Hin as [Hin|Hin]);
    match type of Hin with _ ∈ ownProp _ _ ?o => destruct o; simpl in Hin end;
    try (by apply elem_of_nil in Hin);
    apply list_elem_of_singleton in Hin; injection Hin as -> _;
    repeat constructor.
Qed.

(** A property that is no field of [Entry] is left as it is. *)
Lemma patched_other (patch : Patch) (now : Z) (p : list (string * JSON)) (k : string) :
  k ∉ ["id"; "title"; "oneLiner"; "example"; "tags"; "createdAt"; "updatedAt"] ->
  Js.lookupProp k (patched patch now p) = Js.lookupProp k p.
Proof.
  intros Hk. unfold patched. rewrite lookupProp_set, lookupProp_assign.
  rewrite decide_False by (intros <-; apply Hk; repeat constructor).
  assert (Hnone : Js.lookupProp k (reverse (patchProps patch)) = None).
  { apply eq_None_not_Some. rewrite lookupProp_is_Some.
    intros Hin. apply Hk.
    apply list_elem_of_In, in_map_iff in Hin as ([k0 v0] & <- & Hin).
    apply list_elem_of_In in Hin. rewrite elem_of_reverse in Hin.
    by apply patchProps_keys in Hin. }
  by rewrite Hnone.
Qed.

Lemma patched_shaped (patch : Patch) (now : Z) (p : list (string * JSON)) :
  isEntry (JObject p) = true -> isEntry (JObject (patched patch now p)) = true.
Proof.
  unfold isEntry. cbn [Js.truthy Js.typeof Js.get].
  destruct (patched_lookup patch now p) as (-> & -> & -> & -> & -> & -> & ->).
  rewrite !andb_true_iff, !bool_decide_eq_true.
  intros ((((((((_ & _) & Hid) & Hti) & Hol) & Hex) & Hta) & Hcr) & Hup).
  destruct patch as [[i|] [t|] [o|] [x|] [tg|] [c|] [u|]]; cbn; repeat split; done.
Qed.

(** The guard in [applyPatch] always holds: the patched object is the
    entry. *)
Lemma applyPatch_props (e : Entry) (patch : Patch) (now : Z) :
  props (applyPatch e patch now) = patched patch now (props e).
Proof.
  unfold applyPatch.
  destruct (checkEntry_isEntry (JObject (patched patch now (props e))))
    as (e' & -> & He').
  - apply patched_shaped, (isEntry_object e).
  - simpl. by injection He'.
Qed.

Lemma applyPatch_reads (e : Entry) (patch : Patch) (now : Z) :
  id (applyPatch e patch now) = default (id e) (p_id patch)
  ∧ title (applyPatch e patch now) = default (title e) (p_title patch)
  ∧ oneLiner (applyPatch e patch now) = default (oneLiner e) (p_oneLiner patch)
  ∧ example (applyPatch e patch now) = default (example e) (p_example patch)
  ∧ tags (applyPatch e patch now) = default (tags e) (p_tags patch)
  ∧ createdAt (applyPatch e patch now) = default (createdAt e) (p_createdAt patch)
  ∧ updatedAt (applyPatch e patch now) = now.
Proof.
  unfold id, title, oneLiner, example, tags, createdAt, updatedAt,
    stringProp, numberProp, arrayProp, object. cbn [Js.get].
  rewrite applyPatch_props.
  destruct (patched_lookup patch now (props e)) as (-> & -> & -> & -> & -> & -> & ->).
  destruct patch as [[i|] [t|] [o|] [x|] [tg|] [c|] [u|]]; cbn; repeat split; done.
Qed.


(** What the program reads from an object literal. *)
Lemma mkEntry_reads (i t o x : string) (tg : list JSON) (c u : Z) :
  let e := mkEntry i t o x tg c u in
  id e = i ∧ title e = t ∧ oneLiner e = o ∧ example e = x ∧ tags e = tg
  ∧ createdAt e = c ∧ updatedAt e = u.
Proof. repeat split; reflexivity. Qed.

Lemma id_mkEntry (i t o x : string) (tg : list JSON) (c u : Z) :
  id (mkEntry i t o x tg c u) = i.
Proof. reflexivity. Qed.

Lemma updatedAt_mkEntry (i t o x : string) (tg : list JSON) (c u : Z) :
  updatedAt (mkEntry i t o x tg c u) = u.
Proof. reflexivity. Qed.

(** ** The layout of a patched entry *)

Lemma entry_keys (e : Entry) (k : string) :
  k ∈ ["id"; "title"; "oneLiner"; "example"; "tags"; "createdAt"; "updatedAt"] ->
  k ∈ map fst (props e).
Proof.
  intros Hk. apply lookupProp_is_Some.
  destruct (entry_reads e) as (H1 & H2 & H3 & H4 & H5 & H6 & H7).
  unfold object in *. cbn [Js.get] in *.
  repeat (apply elem_of_cons in Hk as [->|Hk]; [by eexists|]).
  by apply elem_of_nil in Hk.
Qed.

Lemma assign_keys (kvs p : list (string * JSON)) :
  (forall kv, kv ∈ kvs -> fst kv ∈ map fst p) ->
  map fst (fold_left (fun o kv => JsMap.set (fst kv) (snd kv) o) kvs p) = map fst p.
Proof.
  revert p. induction kvs as [|kv r IH]; intros p Hk; [done|].
  cbn [fold_left].
  assert (Hp : map fst (JsMap.set (fst kv) (snd kv) p) = map fst p).
  { rewrite set_keys. rewrite bool_decide_eq_true_2; [done|]. apply Hk. left. }
  rewrite IH; [done|]. intros kv' Hkv'. rewrite Hp. apply Hk. by right.
Qed.

(** An update keeps the properties of an entry in their places. *)
Lemma applyPatch_keys (e : Entry) (patch : Patch) (now : Z) :
  map fst (props (applyPatch e patch now)) = map fst (props e).
Proof.
  rewrite applyPatch_props. unfold patched.
  assert (Ha : map fst (fold_left (fun o kv => JsMap.set (fst kv) (snd kv) o)
                          (patchProps patch) (props e)) = map fst (props e)).
  { apply assign_keys. intros [k v] Hkv. simpl.
    by apply entry_keys, (patchProps_keys patch k v). }
  rewrite set_keys, Ha. rewrite bool_decide_eq_true_2; [done|].
  apply entry_keys. repeat constructor.
Qed.

(** It changes only what the patch holds, and [updatedAt]. *)
Lemma applyPatch_other (e : Entry) (patch : Patch) (now : Z) (k : string) :
  k ∉ map fst (patchProps patch) -> k <> "updatedAt" ->
  Js.get (object (applyPatch e patch now)) k = Js.get (object e) k.
Proof.
  intros Hk Hu. unfold object. cbn [Js.get]. rewrite applyPatch_props.
  unfold patched. rewrite lookupProp_set, lookupProp_assign.
  rewrite decide_False by done.
  assert (Hnone : Js.lookupProp k (reverse (patchProps patch)) = None).
  { apply eq_None_not_Some. rewrite lookupProp_is_Some. intros Hin. apply Hk.
    apply list_elem_of_In, in_map_iff in Hin as (kv & <- & Hin).
    apply list_elem_of_In in Hin. rewrite elem_of_reverse in Hin.
    apply list_elem_of_In, in_map, list_elem_of_In, Hin. }
  by rewrite Hnone.
Qed.

Lemma patchOfEdit_keys (ed : Edit) :
  map fst (patchProps (patchOfEdit ed)) = [editedKey ed].
Proof. by destruct ed. Qed.

(** ** Rendering *)

Section RenderFacts.
Context `{Runtime}.
Implicit Types (u : Update) (w : World).

(** The view reads the three state cells only. *)
Lemma renders_ext w w' :
  entries w = entries w' -> selectedId w = selectedId w' -> query w = query w' ->
  renders w = renders w'.
Proof.
  intros He Hs Hq. unfold renders, selected. by rewrite He, Hs, Hq.
Qed.

Lemma selectFirstEffect_frame w :
  entries (selectFirstEffect w) = entries w
  ∧ localStorage (selectFirstEffect w) = localStorage w
  ∧ alerts (selectFirstEffect w) = alerts w
  ∧ query (selectFirstEffect w) = query w.
Proof.
  unfold selectFirstEffect.
  destruct (entries w) eqn:He; [by rewrite He|].
  destruct (JsString.truthy (selectedId w)); simpl; by rewrite ?He.
Qed.

Lemma selectFirstEffect_selected w :
  selectedId (selectFirstEffect w)
  = match entries w with
    | e :: _ => if JsString.truthy (selectedId w) then selectedId w else id e
    | [] => selectedId w
    end.
Proof.
  unfold selectFirstEffect. destruct (entries w); [done|].
  by destruct (JsString.truthy (selectedId w)).
Qed.

Lemma persistEffect_frame b w :
  entries (persistEffect b w) = entries w
  ∧ selectedId (persistEffect b w) = selectedId w
  ∧ alerts (persistEffect b w) = alerts w
  ∧ query (persistEffect b w) = query w.
Proof. by destruct b. Qed.

Lemma render_entries u w :
  entries (render u w)
  = match setEntries u with Some f => f (entries w) | None => entries w end.
Proof.
  unfold render. cbv zeta. destruct (renders _); [|done].
  destruct (_ || _); rewrite ?(proj1 (selectFirstEffect_frame _));
    by rewrite (proj1 (persistEffect_frame _ _)).
Qed.

Lemma render_alerts u w :
  alerts (render u w)
  = match alert u with Some m => alerts w ++ [m] | None => alerts w end.
Proof.
  unfold render. cbv zeta. destruct (renders _); [|done].
  destruct (_ || _); rewrite ?(proj1 (proj2 (proj2 (selectFirstEffect_frame _))));
    by rewrite (proj1 (proj2 (proj2 (persistEffect_frame _ _)))).
Qed.

Lemma render_query u w :
  query (render u w) = default (query w) (setQuery u).
Proof.
  unfold render. cbv zeta. destruct (renders _); [|done].
  destruct (_ || _); rewrite ?(proj2 (proj2 (proj2 (selectFirstEffect_frame _))));
    by rewrite (proj2 (proj2 (proj2 (persistEffect_frame _ _)))).
Qed.

(** One full save after a render in which [setEntries] was called and the
    view did not throw, no write otherwise. *)
Lemma render_localStorage u w :
  localStorage (render u w)
  = match setEntries u with
    | Some _ =>
        if renders (applyUpdate u w)
        then saveEntries (entries (render u w)) (localStorage w)
        else localStorage w
    | None => localStorage w
    end.
Proof.
  rewrite render_entries. unfold render. cbv zeta.
  destruct (renders _); [|by destruct (setEntries u)].
  destruct (_ || _); rewrite ?(proj1 (proj2 (selectFirstEffect_frame _)));
    unfold persistEffect, applyUpdate; by destruct (setEntries u).
Qed.

Lemma render_selected u w :
  selectedId (render u w)
  = let s := default (selectedId w) (setSelectedId u) in
    if renders (applyUpdate u w)
       && (bool_decide (is_Some (setEntries u)) || bool_decide (s <> selectedId w))
    then match entries (render u w) with
         | e :: _ => if JsString.truthy s then s else id e
         | [] => s
         end
    else s.
Proof.
  cbv zeta. rewrite render_entries. unfold render. cbv zeta.
  destruct (renders _); [|done]. rewrite andb_true_l.
  change (selectedId (applyUpdate u w)) with (default (selectedId w) (setSelectedId u)).
  destruct (_ || _).
  - rewrite selectFirstEffect_selected.
    rewrite (proj1 (persistEffect_frame _ _)).
    by rewrite (proj1 (proj2 (persistEffect_frame _ _))).
  - by rewrite (proj1 (proj2 (persistEffect_frame _ _))).
Qed.

Lemma render_selected_set u w s :
  setSelectedId u = Some s -> is_Some (setEntries u) ->
  selectedId (render u w)
  = if renders (applyUpdate u w)
    then match entries (render u w) with
         | e :: _ => if JsString.truthy s then s else id e
         | [] => s
         end
    else s.
Proof.
  intros Hs Hf. rewrite render_selected, Hs. cbn [default].
  rewrite bool_decide_eq_true_2 by done. by rewrite orb_true_l, andb_true_r.
Qed.

Lemma render_localStorage_set u w :
  is_Some (setEntries u) ->
  localStorage (render u w)
  = if renders (applyUpdate u w)
    then saveEntries (entries (render u w)) (localStorage w)
    else localStorage w.
Proof. intros [f Hf]. by rewrite render_localStorage, Hf. Qed.

(** A render that ends in a view that shows went through a view that
    showed. *)
Lemma render_renders u w :
  renders (render u w) = true -> renders (applyUpdate u w) = true.
Proof.
  unfold render. cbv zeta.
  destruct (renders (applyUpdate u w)) eqn:Hr; [done|]. intros Hx. congruence.
Qed.

Lemma step_live a w : renders w = true -> step a w = render (handle a w) w.
Proof. unfold step. by intros ->. Qed.

(** Once the view has thrown, nothing happens any more. *)
Lemma step_dead a w : renders w = false -> step a w = w.
Proof. unfold step. by intros ->. Qed.

Lemma run_dead acts w : renders w = false -> run acts w = w.
Proof.
  intros Hw. induction acts as [|a acts IH]; [done|].
  unfold run in *. simpl. by rewrite step_dead.
Qed.

Lemma step_renders a w : renders (step a w) = true -> renders w = true.
Proof.
  destruct (renders w) eqn:Hw; [done|]. by rewrite step_dead, Hw.
Qed.

Lemma step_entries a w :
  entries (step a w)
  = if renders w
    then match setEntries (handle a w) with
         | Some f => f (entries w)
         | None => entries w
         end
    else entries w.
Proof.
  unfold step. destruct (renders w); [apply render_entries | done].
Qed.

Lemma run_snoc acts a w : run (acts ++ [a]) w = step a (run acts w).
Proof. unfold run. by rewrite fold_left_app. Qed.

(** As long as the view shows, the stored text is that of the entries. *)
Lemma render_written u w :
  (renders w = true -> written w) ->
  renders w = true ->
  renders (render u w) = true -> written (render u w).
Proof.
  intros Hinv Hw Hr. unfold written.
  rewrite render_localStorage, (render_renders u w Hr).
  destruct (setEntries u) as [f|] eqn:Hu.
  - unfold saveEntries. by rewrite lookup_insert_eq.
  - rewrite render_entries, Hu. by apply Hinv.
Qed.

Lemma step_written a w :
  (renders w = true -> written w) ->
  renders (step a w) = true -> written (step a w).
Proof.
  intros Hinv Hr. pose proof (step_renders a w Hr) as Hw.
  rewrite step_live in * by done. by apply render_written.
Qed.

(** ** Start-up *)

Lemma initEntries_cast storage id1 id2 now loaded :
  castEntries (loadEntries storage) = Some loaded ->
  castEntries (initEntries storage id1 id2 now)
  = Some (firstEntries loaded id1 id2 now).
Proof.
  intros Hc. unfold initEntries, firstEntries.
  rewrite (length_mapM _ _ _ Hc).
  destruct (0 <? length loaded)%nat; [done|]. apply castEntries_encoded.
Qed.

Lemma mount_Some storage id1 id2 now w :
  mount storage id1 id2 now = Some w <->
  exists loaded,
    map object loaded = loadEntries storage
    ∧ w = let w0 := firstState storage loaded (firstEntries loaded id1 id2 now) in
          if renders w0 then selectFirstEffect (persistEffect true w0) else w0.
Proof.
  unfold mount. split.
  - destruct (castEntries (loadEntries storage)) as [loaded|] eqn:Hc; [|done].
    rewrite (initEntries_cast _ id1 id2 now _ Hc).
    intros [= <-]. exists loaded. split; [by apply castEntries_Some|done].
  - intros (loaded & Hl & ->). apply castEntries_Some in Hl.
    by rewrite Hl, (initEntries_cast _ id1 id2 now _ Hl).
Qed.

(** Start-up is described exactly when the stored array holds entries
    only. *)
Lemma mount_is_Some storage id1 id2 now :
  is_Some (mount storage id1 id2 now)
  <-> Forall (fun x => isEntry x = true) (loadEntries storage).
Proof.
  rewrite <- castEntries_is_Some. unfold mount. split.
  - destruct (castEntries (loadEntries storage)); [by eexists | by intros [? ?]].
  - intros [loaded Hl]. rewrite Hl, (initEntries_cast _ id1 id2 now _ Hl).
    by eexists.
Qed.

Lemma mount_entries storage id1 id2 now w :
  mount storage id1 id2 now = Some w ->
  map object (entries w) = initEntries storage id1 id2 now.
Proof.
  intros (loaded & Hl & ->)%mount_Some. cbv zeta.
  assert (He : entries (if renders (firstState storage loaded (firstEntries loaded id1 id2 now))
                        then selectFirstEffect
                               (persistEffect true (firstState storage loaded (firstEntries loaded id1 id2 now)))
                        else firstState storage loaded (firstEntries loaded id1 id2 now))
               = entries (firstState storage loaded (firstEntries loaded id1 id2 now))).
  { destruct (renders _); [|done].
    by rewrite (proj1 (selectFirstEffect_frame _)). }
  rewrite He. unfold initEntries, firstEntries. rewrite <- Hl, length_map. simpl.
  by destruct (0 <? length loaded)%nat.
Qed.

Lemma mount_firstEntries storage id1 id2 now w loaded :
  mount storage id1 id2 now = Some w ->
  map object loaded = loadEntries storage ->
  entries w = firstEntries loaded id1 id2 now.
Proof.
  intros Hm Hl. apply mount_entries in Hm. apply map_object_inj.
  rewrite Hm. unfold initEntries, firstEntries. rewrite <- Hl, length_map.
  by destruct (0 <? length loaded)%nat.
Qed.

Lemma mount_written storage id1 id2 now w :
  mount storage id1 id2 now = Some w -> renders w = true -> written w.
Proof.
  intros (loaded & Hl & ->)%mount_Some. cbv zeta.
  destruct (renders (firstState storage loaded (firstEntries loaded id1 id2 now))) eqn:Hr;
    [|by rewrite Hr].
  intros _. unfold written.
  rewrite (proj1 (proj2 (selectFirstEffect_frame _))),
    (proj1 (selectFirstEffect_frame _)).
  simpl. unfold saveEntries. by rewrite lookup_insert_eq.
Qed.

Lemma run_written acts w :
  (renders w = true -> written w) ->
  renders (run acts w) = true -> written (run acts w).
Proof.
  induction acts as [|a acts IH] using rev_ind; intros Hinv; [done|].
  rewrite run_snoc. apply step_written. by apply IH.
Qed.
End RenderFacts.
(** ** Import *)

Section ImportFacts.
Context `{Runtime}.

(** The import goes through exactly when the text parses to an array with
    at least one element of the entry shape. *)
Lemma readIncoming_Ok text incoming :
  readIncoming text = Ok incoming <->
  exists items, JSON_parse text = Ok (JArray items)
                ∧ incoming = filterEntries items
                ∧ incoming <> [].
Proof.
  unfold readIncoming. split.
  - destruct (JSON_parse text) as [[| | | |items|]|]; try done.
    destruct (filterEntries items) as [|e r] eqn:Hin; simpl; [done|].
    intros [= <-]. exists items. by rewrite Hin.
  - intros (items & -> & -> & Hne).
    destruct (filterEntries items); done.
Qed.

Lemma readIncoming_Throw text :
  (exists m, JSON_parse text = Throw m)
  ∨ (exists v, JSON_parse text = Ok v ∧ Js.isArray (Some v) = false)
  ∨ (exists items, JSON_parse text = Ok (JArray items)
                   ∧ List.filter isEntry items = []) ->
  exists m, readIncoming text = Throw m.
Proof.
  unfold readIncoming.
  intros [[m ->] | [(v & -> & Hv) | (items & -> & Hf)]]; [by exists m | |].
  - destruct v; try done; eauto.
  - apply filterEntries_nil in Hf. rewrite Hf. simpl. eauto.
Qed.

Lemma step_import_Throw eager text w m :
  renders w = true ->
  readIncoming text = Throw m ->
  step (ImportJsonFile eager text) w
  = {| entries := entries w; selectedId := selectedId w; query := query w;
       localStorage := localStorage w; alerts := alerts w ++ [m] |}.
Proof.
  intros Hw Hr. rewrite step_live by done.
  unfold render, handle, importJsonFile. rewrite Hr. cbv zeta.
  rewrite (renders_ext _ w) by done. rewrite Hw. simpl.
  rewrite bool_decide_eq_false_2 by (intros Hn; by apply Hn).
  reflexivity.
Qed.
End ImportFacts.

(** C1. If the import fails in one of its first four steps (the text is
    not valid JSON, the parsed value is not an array, or no element of the
    array has the entry shape), one message is shown to the user (the
    parser's, "invalid json: expected an array" or "no valid entries
    found") and the entries and the stored snapshot are what they were
    before the call; nothing else of the state changes either, and the
    application goes on showing it.  [w] is the state the application shows
    when the file is chosen. *)
Theorem import_failure_atomic `{Runtime} (eager : bool) (text : string) (w : World) :
  renders w = true ->
  (exists m, JSON_parse text = Throw m)
  ∨ (exists v, JSON_parse text = Ok v ∧ Js.isArray (Some v) = false)
  ∨ (exists items, JSON_parse text = Ok (JArray items)
                   ∧ List.filter isEntry items = []) ->
  let w' := step (ImportJsonFile eager text) w in
  entries w' = entries w
  ∧ localStorage w' = localStorage w
  ∧ (exists m, alerts w' = alerts w ++ [m])
  ∧ selectedId w' = selectedId w
  ∧ query w' = query w
  ∧ (forall m, JSON_parse text = Throw m -> alerts w' = alerts w ++ [m])
  ∧ (forall v, JSON_parse text = Ok v -> Js.isArray (Some v) = false ->
       alerts w' = alerts w ++ ["invalid json: expected an array"])
  ∧ (forall items, JSON_parse text = Ok (JArray items) ->
       List.filter isEntry items = [] ->
       alerts w' = alerts w ++ ["no valid entries found"])
  ∧ renders w' = true.
Proof.
  intros Hw Hfail w'. destruct (readIncoming_Throw text Hfail) as [m Hm].
  subst w'. rewrite (step_import_Throw eager text w m Hw Hm). simpl.
  unfold readIncoming in Hm.
  repeat split; eauto.
  - intros m' Hp. rewrite Hp in Hm. by injection Hm as ->.
  - intros v Hp Hv. rewrite Hp in Hm. destruct v; try done; by injection Hm as <-.
  - intros items Hp Hf. rewrite Hp in Hm. apply filterEntries_nil in Hf.
    rewrite Hf in Hm. simpl in Hm. by injection Hm as <-.
Qed.

(** ** The view *)

Lemma truthy_true s : JsString.truthy s = true <-> s <> "".
Proof. destruct s; split; done. Qed.

Lemma truthy_false s : JsString.truthy s = false <-> s = "".
Proof. destruct s; split; done. Qed.

(** In both branches [filtered] sorts the entries whose text contains the
    normalized query. *)
Lemma filtered_as_sort (es : list Entry) (query : string) :
  filtered es query
  = JsArray.sort byUpdatedDesc
      (List.filter
         (fun e => JsString.includes (haystack e)
                     (JsString.toLowerCase (JsString.trim query))) es).
Proof.
  unfold filtered.
  destruct (JsString.toLowerCase (JsString.trim query)) as [|c q'] eqn:Hq; [|done].
  simpl. f_equal. symmetry.
  rewrite (filter_ext _ (fun _ => true)) by (intros; apply includes_empty).
  induction es as [|e r IH]; simpl; congruence.
Qed.

Lemma filtered_elem (es : list Entry) (query : string) (e : Entry) :
  e ∈ filtered es query
  <-> e ∈ es ∧ JsString.includes (haystack e)
                 (JsString.toLowerCase (JsString.trim query)) = true.
Proof.
  rewrite filtered_as_sort. unfold byUpdatedDesc.
  by rewrite (sort_elem updatedAt), list_elem_of_In, filter_In, <- list_elem_of_In.
Qed.

Lemma find_id_Some (i : string) (es : list Entry) :
  i ∈ map id es ->
  exists e, JsArray.find (fun e => bool_decide (id e = i)) es = Some e.
Proof.
  induction es as [|e r IH]; simpl; intros Hi; [by apply elem_of_nil in Hi|].
  case_bool_decide as He; [by exists e|].
  apply elem_of_cons in Hi as [-> | Hi]; [done | by apply IH].
Qed.

Lemma find_id_elem (i : string) (es : list Entry) (e : Entry) :
  JsArray.find (fun e => bool_decide (id e = i)) es = Some e ->
  e ∈ es ∧ id e = i.
Proof.
  induction es as [|x r IH]; simpl; [done|].
  case_bool_decide as Hx.
  - intros [= ->]. split; [left | done].
  - intros Hf. destruct (IH Hf). split; [by right | done].
Qed.

Lemma find_id_None (i : string) (es : list Entry) :
  JsArray.find (fun e => bool_decide (id e = i)) es = None <-> i ∉ map id es.
Proof.
  split.
  - intros Hn Hi. destruct (find_id_Some i es Hi) as [e He]. congruence.
  - intros Hi. destruct (JsArray.find _ es) as [e|] eqn:He; [|done].
    destruct (find_id_elem _ _ _ He) as [Hin <-]. destruct Hi.
    apply list_elem_of_In, in_map, list_elem_of_In, Hin.
Qed.

Section ViewFacts.
Implicit Types (w : World) (e : Entry).

(** The view shows when the tags it converts and displays allow it. *)
Lemma renders_spec w :
  renders w = true <->
  (JsString.toLowerCase (JsString.trim (query w)) <> "" ->
   forall e, e ∈ entries w -> searchable e = true)
  ∧ (forall e, e ∈ filtered (entries w) (query w) -> listable e = true)
  ∧ (forall sel, selected w = Some sel -> previewable sel = true).
Proof.
  unfold renders. cbv zeta.
  rewrite !andb_true_iff, orb_true_iff, negb_true_iff, truthy_false,
    !forallb_forall.
  split.
  - intros [[Ha Hb] Hc]. split; [|split].
    + intros Hq e He. destruct Ha as [Ha|Ha]; [done|].
      by apply Ha, list_elem_of_In.
    + intros e He. by apply Hb, list_elem_of_In.
    + intros sel Hs. by rewrite Hs in Hc.
  - intros (Ha & Hb & Hc). split; [split|].
    + destruct (decide (JsString.toLowerCase (JsString.trim (query w)) = ""))
        as [Hq|Hq]; [by left | right].
      intros e He. by apply Ha, list_elem_of_In.
    + intros e He. by apply Hb, list_elem_of_In.
    + destruct (selected w) as [sel|]; [by apply Hc | done].
Qed.

Lemma forallb_take {A} (p : A -> bool) (n : nat) (l : list A) :
  forallb p l = true -> forallb p (take n l) = true.
Proof.
  rewrite !forallb_forall. intros Hl x Hx. apply Hl.
  apply list_elem_of_In. apply list_elem_of_In in Hx.
  apply elem_of_take in Hx as (i & Hi & _). by eapply list_elem_of_lookup_2.
Qed.

Lemma previewable_searchable e : previewable e = true -> searchable e = true.
Proof. unfold previewable, searchable. by intros [? _]%andb_true_iff. Qed.

Lemma previewable_listable e : previewable e = true -> listable e = true.
Proof.
  unfold previewable, listable. intros [_ ?]%andb_true_iff.
  by apply forallb_take.
Qed.

(** When no tag is or holds an object the view shows, whatever is
    selected and searched. *)
Lemma plainTags_renders w : plainTags (entries w) -> renders w = true.
Proof.
  unfold plainTags. rewrite Forall_forall. intros Hs. apply renders_spec.
  split; [|split].
  - intros _ e He. by apply previewable_searchable, Hs.
  - intros e [He _]%filtered_elem. by apply previewable_listable, Hs.
  - intros sel [Hin _]%find_id_elem. by apply Hs.
Qed.

Lemma previewable_mkEntry_plain i t o x c u :
  previewable (mkEntry i t o x [] c u) = true.
Proof. reflexivity. Qed.

(** Putting an entry without tags in front and selecting it keeps the
    view showing. *)
Lemma renders_cons w w' n :
  renders w = true ->
  tags n = [] ->
  entries w' = n :: entries w ->
  selectedId w' = id n ->
  query w' = query w ->
  renders w' = true.
Proof.
  intros Hw Hn He Hs Hq. apply renders_spec in Hw as (Ha & Hb & Hc).
  apply renders_spec. rewrite He, Hq. split; [|split].
  - intros Hne e [->|Hin]%elem_of_cons; [|by apply Ha].
    unfold searchable. by rewrite Hn.
  - intros e [Hin Hinc]%filtered_elem.
    apply elem_of_cons in Hin as [->|Hin].
    + unfold listable. by rewrite Hn.
    + apply Hb, filtered_elem. by split.
  - unfold selected. rewrite He, Hs. simpl.
    rewrite bool_decide_eq_true_2 by done. intros sel [= <-].
    unfold previewable. by rewrite Hn.
Qed.
End ViewFacts.

(** ** Persistence *)

Lemma loadEntries_written `{Runtime} (st : gmap string string) (es : list Entry) :
  st !! KEY = Some (JSON_stringify 0 (entriesToJSON es)) ->
  JSON_stringify 0 (entriesToJSON es) <> "" ->
  JSON_parse (JSON_stringify 0 (entriesToJSON es)) = Ok (entriesToJSON es) ->
  loadEntries st = map object es.
Proof.
  intros Hst Hne Hp. unfold loadEntries. rewrite Hst.
  apply truthy_true in Hne. by rewrite Hne, Hp.
Qed.


(** ** Creation *)

(** C3, as the code has it.  From a state the application shows,
    [createNew] builds an entry titled "new rule" with empty one-liner and
    example, no tags and [createdAt = updatedAt = now], puts it in front of
    the collection and selects it; it shows no error, the new collection is
    saved and the view shows it. *)
Theorem createNew_correct `{Runtime} (newId : string) (now : Z) (w : World) :
  renders w = true ->
  let w' := step (CreateNew newId now) w in
  entries w' = mkEntry newId "new rule" "" "" [] now now :: entries w
  ∧ selectedId w' = newId
  ∧ alerts w' = alerts w
  ∧ query w' = query w
  ∧ localStorage w' = saveEntries (entries w') (localStorage w)
  ∧ renders w' = true.
Proof.
  intros Hw w'. subst w'. rewrite step_live by done. cbn [handle].
  assert (H1 : renders (applyUpdate (createNew newId now w) w) = true)
    by (by apply (renders_cons w _ (mkEntry newId "new rule" "" "" [] now now))).
  assert (Hsel : selectedId (render (createNew newId now w) w) = newId).
  { rewrite render_selected, render_entries, H1. simpl.
    rewrite id_mkEntry. by destruct (JsString.truthy newId). }
  rewrite render_entries, render_alerts, render_query, render_localStorage, H1.
  simpl. repeat split; try done.
  - by rewrite render_entries.
  - apply (renders_cons w _ (mkEntry newId "new rule" "" "" [] now now));
      try done; [by rewrite render_entries | by rewrite render_query].
Qed.

(** ** Import *)

Section SelectionFacts.
Context `{Runtime}.

Lemma importJsonFile_Ok eager text w incoming :
  readIncoming text = Ok incoming ->
  importJsonFile eager text w
  = {| setEntries :=
         Some (mergeById (if eager then incoming
                          else JsArray.sort byUpdatedDesc incoming));
       setSelectedId :=
         match JsArray.sort byUpdatedDesc incoming with
         | newest :: _ =>
             if JsString.truthy (id newest) then Some (id newest) else None
         | [] => None
         end;
       setQuery := None; alert := None |}.
Proof. intros Hr. unfold importJsonFile. by rewrite Hr. Qed.

Lemma step_import_Ok eager text w incoming :
  renders w = true ->
  readIncoming text = Ok incoming ->
  entries (step (ImportJsonFile eager text) w)
  = mergeById (if eager then incoming else JsArray.sort byUpdatedDesc incoming)
      (entries w)
  ∧ alerts (step (ImportJsonFile eager text) w) = alerts w
  ∧ query (step (ImportJsonFile eager text) w) = query w.
Proof.
  intros Hw Hr. rewrite step_live by done. cbn [handle].
  rewrite render_entries, render_alerts, render_query.
  by rewrite (importJsonFile_Ok eager text w incoming Hr).
Qed.

(** The selection after an import that was accepted: [s] is what the
    handler leaves in the cell, and the select-first effect replaces an
    empty [s] when the view showed. *)
Lemma step_import_selected eager text w incoming newest rest :
  renders w = true ->
  readIncoming text = Ok incoming ->
  JsArray.sort byUpdatedDesc incoming = newest :: rest ->
  let w' := step (ImportJsonFile eager text) w in
  let s := if JsString.truthy (id newest) then id newest else selectedId w in
  selectedId w'
  = if renders (applyUpdate (importJsonFile eager text w) w)
    then match entries w' with
         | e :: _ => if JsString.truthy s then s else id e
         | [] => s
         end
    else s.
Proof.
  intros Hw Hr Hs w' s. subst w'. rewrite step_live by done. cbn [handle].
  rewrite render_selected.
  rewrite (importJsonFile_Ok eager text w incoming Hr).
  rewrite Hs. cbn [setSelectedId setEntries]. subst s.
  rewrite bool_decide_eq_true_2 by eauto. rewrite orb_true_l, andb_true_r.
  by destruct (JsString.truthy (id newest)).
Qed.
End SelectionFacts.

Lemma seen_perm (eager : bool) (incoming : list Entry) :
  (if eager then incoming else JsArray.sort byUpdatedDesc incoming) ≡ₚ incoming.
Proof. destruct eager; [done | apply (sort_perm updatedAt)]. Qed.

(** C7, as the code has it.  After an import that was accepted, from a
    state the application shows, the collection has one entry per id.
    Under an id that occurs among the valid incoming entries it holds an
    incoming entry: the last one with that id in the order in which the
    updater reads them, hence the incoming entry itself when the incoming
    ids are distinct; it never holds an existing entry there.  Under any
    other id it holds the last existing entry with that id, hence every
    existing entry when the existing ids are distinct.  The selection
    becomes the id of the incoming entry with the greatest [updatedAt] (the
    first such in the file) when that id is not the empty string.  When it
    is empty, the selection stays what it was if something was selected;
    if nothing was, the select-first effect moves it to the first entry of
    the merged collection, provided the view showed for the effect to
    run. *)
Theorem import_merge `{Runtime} (eager : bool) (text : string) (w : World)
    (incoming : list Entry) :
  renders w = true ->
  readIncoming text = Ok incoming ->
  let w' := step (ImportJsonFile eager text) w in
  let seen := if eager then incoming else JsArray.sort byUpdatedDesc incoming in
  (exists items, JSON_parse text = Ok (JArray items)
                 ∧ map object incoming = List.filter isEntry items)
  ∧ alerts w' = alerts w
  ∧ NoDup (map id (entries w'))
  ∧ (forall e, id e ∈ map id incoming ->
       (e ∈ entries w' <-> lastWithId (id e) seen = Some e))
  ∧ (forall e, e ∈ entries w' -> id e ∈ map id incoming -> e ∈ incoming)
  ∧ (forall i, i ∈ map id incoming -> exists e, e ∈ entries w' ∧ id e = i)
  ∧ (NoDup (map id incoming) -> forall e, e ∈ incoming -> e ∈ entries w')
  ∧ (forall e, id e ∉ map id incoming ->
       (e ∈ entries w' <-> lastWithId (id e) (entries w) = Some e))
  ∧ (NoDup (map id (entries w)) ->
     forall e, e ∈ entries w -> id e ∉ map id incoming -> e ∈ entries w')
  ∧ (exists newest,
       newest ∈ incoming
       ∧ (forall e, e ∈ incoming -> updatedAt e <= updatedAt newest)
       ∧ List.hd_error
           (List.filter (fun e => updatedAt e =? updatedAt newest) incoming)
         = Some newest
       ∧ (id newest <> "" -> selectedId w' = id newest)
       ∧ (id newest = "" -> selectedId w <> "" -> selectedId w' = selectedId w)
       ∧ (id newest = "" -> selectedId w = "" ->
          exists first others,
            entries w' = first :: others
            ∧ (forall e, e ∈ entries w' -> updatedAt e <= updatedAt first)
            ∧ (selectedId w' = id first ∨ selectedId w' = "")
            ∧ (renders w' = true -> selectedId w' = id first))).
Proof.
  intros Hw Hr w' seen.
  assert (Hseen : seen ≡ₚ incoming) by apply seen_perm.
  assert (Hids : forall i, i ∈ map id seen <-> i ∈ map id incoming)
    by (intros i; by rewrite Hseen).
  assert (Hes : entries w' = mergeById seen (entries w))
    by apply (step_import_Ok eager text w incoming Hw Hr).
  assert (Hin : forall e, id e ∈ map id incoming ->
            (e ∈ entries w' <-> lastWithId (id e) seen = Some e)).
  { intros e Hid. rewrite Hes, mergeById_elem, lastWithId_app.
    apply Hids, lastWithId_is_Some in Hid as [x Hx]. by rewrite Hx. }
  assert (Hout : forall e, id e ∉ map id incoming ->
            (e ∈ entries w' <-> lastWithId (id e) (entries w) = Some e)).
  { intros e Hid. rewrite Hes, mergeById_elem, lastWithId_app.
    assert (Hn : lastWithId (id e) seen = None)
      by (apply lastWithId_None; by rewrite Hids).
    by rewrite Hn. }
  assert (Hex : forall i, i ∈ map id incoming -> exists e, e ∈ entries w' ∧ id e = i).
  { intros i Hi. destruct (lastWithId_is_Some i seen) as [e He]; [by apply Hids|].
    exists e. pose proof (lastWithId_Some _ _ _ He) as [Hmem Hid].
    split; [|done]. apply Hin; [|by rewrite Hid].
    rewrite Hid. done. }
  split; [|split; [|split; [|split; [|split; [|split; [|split; [|split; [|split]]]]]]]].
  - apply readIncoming_Ok in Hr as (items & Hp & Hi & _). exists items.
    split; [done|]. rewrite Hi. apply filterEntries_objects.
  - apply (step_import_Ok eager text w incoming Hw Hr).
  - rewrite Hes. apply mergeById_NoDup.
  - exact Hin.
  - intros e He Hid. apply (Hin e Hid) in He.
    apply lastWithId_Some in He as [He _]. by rewrite <- Hseen.
  - exact Hex.
  - intros Hnd e He. apply Hin; [by apply elem_of_ids|].
    apply lastWithId_unique; [by rewrite Hseen | by rewrite Hseen].
  - exact Hout.
  - intros Hnd e He Hid. apply (Hout e Hid). by apply lastWithId_unique.
  - apply readIncoming_Ok in Hr as Hr'. destruct Hr' as (items & _ & _ & Hne).
    destruct (JsArray.sort byUpdatedDesc incoming) as [|newest rest] eqn:Hsort.
    { exfalso. apply Hne. by apply (sort_nil updatedAt). }
    destruct (sort_head updatedAt newest rest incoming Hsort) as (Hmem & Hmax & Hfirst).
    exists newest. split; [done|]. split; [done|]. split; [done|].
    pose proof (step_import_selected eager text w incoming newest rest Hw Hr Hsort)
      as Hsel. cbv zeta in Hsel. fold w' in Hsel.
    split; [|split].
    + intros Hid. apply truthy_true in Hid. rewrite Hsel, Hid.
      destruct (renders (applyUpdate _ _)); [|done]. destruct (entries w'); by rewrite ?Hid.
    + intros Hid Hs. rewrite Hsel, Hid. simpl. apply truthy_true in Hs.
      destruct (renders (applyUpdate _ _)); [|done]. destruct (entries w'); by rewrite ?Hs.
    + intros Hid Hs. rewrite Hid, Hs in Hsel. simpl in Hsel.
      destruct (entries w') as [|first others] eqn:Hw'.
      { destruct (Hex (id newest)) as (e & He & _); [by apply elem_of_ids|].
        by apply elem_of_nil in He. }
      exists first, others. split; [done|]. split; [|split].
      * assert (Hso : JsArray.sort byUpdatedDesc (first :: others) = first :: others).
        { rewrite Hes. unfold mergeById.
          symmetry. apply (sort_unique updatedAt); [apply (sort_sorted updatedAt)|].
          intros k. done. }
        destruct (sort_head updatedAt _ _ _ Hso) as (_ & Hle & _). exact Hle.
      * rewrite Hsel. destruct (renders (applyUpdate _ _)); [by left | by right].
      * intros Hlive. rewrite Hsel.
        subst w'. rewrite step_live in Hlive by done. cbn [handle] in Hlive.
        by rewrite (render_renders _ _ Hlive).
Qed.

(** ** Export followed by import *)

Lemma readIncoming_exported `{Runtime} (text : string) (es : list Entry) :
  es <> [] -> JSON_parse text = Ok (entriesToJSON es) ->
  readIncoming text = Ok es.
Proof.
  intros Hne Hp. apply readIncoming_Ok. exists (map object es).
  by rewrite filterEntries_encoded.
Qed.

Lemma readIncoming_exported_nil `{Runtime} (text : string) :
  JSON_parse text = Ok (entriesToJSON []) ->
  readIncoming text = Throw "no valid entries found".
Proof. intros Hp. unfold readIncoming. by rewrite Hp. Qed.

(** C4, as the code has it.  Let the application show a collection and let
    the runtime parse the exported text back to the array it printed.  When
    the collection is not empty, importing that text succeeds; the merged
    collection has the same ids, holds only entries of the collection
    before, one per id; and when the ids before were distinct it is the
    collection before, in descending order of [updatedAt].  When the
    collection is empty the import is refused with "no valid entries found"
    and nothing else changes. *)
Theorem export_import_roundtrip `{Runtime} (eager : bool) (w : World) :
  renders w = true ->
  JSON_parse (snd (exportJson w)) = Ok (entriesToJSON (entries w)) ->
  let w' := step (ImportJsonFile eager (snd (exportJson w))) w in
  (entries w <> [] ->
   alerts w' = alerts w
   ∧ (forall i, i ∈ map id (entries w') <-> i ∈ map id (entries w))
   ∧ (forall e, e ∈ entries w' -> e ∈ entries w)
   ∧ NoDup (map id (entries w'))
   ∧ (NoDup (map id (entries w)) ->
      entries w' ≡ₚ entries w
      ∧ entries w' = JsArray.sort byUpdatedDesc (entries w)))
  ∧ (entries w = [] ->
     entries w' = []
     ∧ alerts w' = alerts w ++ ["no valid entries found"]
     ∧ localStorage w' = localStorage w
     ∧ selectedId w' = selectedId w
     ∧ query w' = query w).
Proof.
  intros Hw Hparse w'. split.
  - intros Hne.
    pose proof (readIncoming_exported _ _ Hne Hparse) as Hr.
    destruct (step_import_Ok eager _ w _ Hw Hr) as (Hes & Hal & _).
    fold w' in Hes, Hal.
    pose proof (seen_perm eager (entries w)) as Hseen.
    set (seen := if eager then entries w else JsArray.sort byUpdatedDesc (entries w)) in *.
    assert (Hsub : forall e, e ∈ entries w' -> e ∈ entries w).
    { intros e He. rewrite Hes, mergeById_elem in He.
      apply lastWithId_Some in He as [He _].
      apply elem_of_app in He as [He | He]; [done | by rewrite <- Hseen]. }
    split; [done|]. split; [|split; [done|split]].
    + intros i. split.
      * intros Hi. apply list_elem_of_In, in_map_iff in Hi as (e & <- & He).
        apply elem_of_ids, Hsub, list_elem_of_In, He.
      * intros Hi.
        destruct (lastWithId_is_Some i (entries w ++ seen)) as [x Hx].
        { rewrite map_app, elem_of_app. by left. }
        pose proof (lastWithId_Some _ _ _ Hx) as [_ Hid].
        rewrite <- Hid. apply elem_of_ids. rewrite Hes, mergeById_elem.
        by rewrite Hid.
    + rewrite Hes. apply mergeById_NoDup.
    + intros Hnd. rewrite Hes, (mergeById_self seen (entries w) Hnd Hseen).
      split; [apply (sort_perm updatedAt) | done].
  - intros Hnil. rewrite Hnil in Hparse.
    pose proof (readIncoming_exported_nil _ Hparse) as Hr.
    subst w'. rewrite (step_import_Throw eager _ w _ Hw Hr). simpl.
    by rewrite Hnil.
Qed.

(** ** Timestamps *)

Lemma applyPatch_frame (e : Entry) (patch : Patch) (now : Z) :
  p_id patch = None -> p_createdAt patch = None ->
  id (applyPatch e patch now) = id e
  ∧ createdAt (applyPatch e patch now) = createdAt e
  ∧ updatedAt (applyPatch e patch now) = now.
Proof.
  intros Hi Hc.
  destruct (applyPatch_reads e patch now) as (-> & _ & _ & _ & _ & -> & ->).
  by rewrite Hi, Hc.
Qed.

Lemma applyPatch_edited (e : Entry) (ed : Edit) (now : Z) :
  Js.get (object (applyPatch e (patchOfEdit ed) now)) (editedKey ed)
  = Some (editedValue ed).
Proof.
  destruct (entry_reads (applyPatch e (patchOfEdit ed) now))
    as (_ & Ht & Ho & Hx & Hg & _).
  destruct (applyPatch_reads e (patchOfEdit ed) now)
    as (_ & Ht' & Ho' & Hx' & Hg' & _).
  destruct ed; cbn [editedKey editedValue].
  - by rewrite Ht, Ht'.
  - by rewrite Ho, Ho'.
  - by rewrite Hx, Hx'.
  - by rewrite Hg, Hg'.
Qed.

Lemma patchOfEdit_frame (ed : Edit) :
  p_id (patchOfEdit ed) = None ∧ p_createdAt (patchOfEdit ed) = None.
Proof. by destruct ed. Qed.

Lemma step_update_entries `{Runtime} (patch : Patch) (now : Z) (w : World) :
  renders w = true ->
  entries (step (UpdateSelected patch now) w)
  = match selected w with
    | None => entries w
    | Some sel =>
        map (fun e => if bool_decide (id e = id sel)
                      then applyPatch e patch now else e) (entries w)
    end.
Proof.
  intros Hw. rewrite step_entries, Hw. cbn [handle]. unfold updateSelected.
  by destruct (selected w).
Qed.

Lemma timesOk_seedEntries id1 id2 now : timesOk (seedEntries id1 id2 now).
Proof.
  unfold timesOk, seedEntries.
  apply Forall_cons; split; [|apply Forall_cons; split; [|apply Forall_nil]];
    unfold createdAt, updatedAt, numberProp; simpl; lia.
Qed.

(** C8, as the code has it.  The seeded entries and a newly created entry
    have [updatedAt >= createdAt].  Start-up keeps the property when the
    stored entries have it; creation, deletion, selection and search keep
    it; an update keeps it when the patch carries no [createdAt] and the
    clock reading is not earlier than the creation of the edited entry; an
    import keeps it when the valid incoming records have it themselves. *)
Theorem times_preserved `{Runtime} :
  (forall id1 id2 now, timesOk (seedEntries id1 id2 now))
  ∧ (forall storage id1 id2 now loaded w0,
       map object loaded = loadEntries storage ->
       timesOk loaded ->
       mount storage id1 id2 now = Some w0 ->
       timesOk (entries w0))
  ∧ (forall a w,
       timesOk (entries w) -> keepsTimes a w -> timesOk (entries (step a w))).
Proof.
  split; [exact timesOk_seedEntries|]. split.
  - intros storage id1 id2 now loaded w0 Hl Hok Hm.
    rewrite (mount_firstEntries _ _ _ _ _ _ Hm Hl). unfold firstEntries.
    destruct (0 <? length loaded)%nat; [done | apply timesOk_seedEntries].
  - intros a w Hw Hk. rewrite step_entries.
    destruct (renders w) eqn:Hlive; [|done]. unfold timesOk in *.
    destruct a as [i now|patch now| |eager text|k|q]; cbn [handle].
    + simpl. apply Forall_cons; split; [|done].
      unfold createdAt, updatedAt, numberProp. simpl. lia.
    + unfold updateSelected. destruct (selected w) as [sel|] eqn:Hsel; [|done].
      cbn [setEntries].
      destruct Hk as [Hcr Hk]. rewrite Forall_forall in Hw. apply Forall_forall.
      intros y Hy. apply list_elem_of_In, in_map_iff in Hy as (x & <- & Hx).
      apply list_elem_of_In in Hx.
      case_bool_decide as Hid; [|by apply Hw].
      destruct (applyPatch_reads x patch now) as (_ & _ & _ & _ & _ & -> & ->).
      rewrite Hcr. simpl. by apply (Hk sel x).
    + unfold deleteSelected.
      destruct (selected w) as [sel|]; simpl; [|done].
      rewrite Forall_forall in Hw. apply Forall_forall. intros e He.
      apply list_elem_of_In, filter_In in He as [He _].
      by apply Hw, list_elem_of_In.
    + destruct (readIncoming text) as [incoming | m] eqn:Hr.
      * rewrite (importJsonFile_Ok eager text w incoming Hr). cbn [setEntries].
        specialize (Hk incoming Hr). unfold timesOk in Hk.
        rewrite Forall_forall in Hw, Hk. apply Forall_forall. intros e He.
        apply mergeById_elem, lastWithId_Some in He as [He _].
        apply elem_of_app in He as [He | He]; [by apply Hw|].
        apply Hk. by rewrite <- (seen_perm eager incoming).
      * unfold importJsonFile. by rewrite Hr.
    + unfold selectVisible.
      by destruct (filtered (entries w) (query w) !! k).
    + done.
Qed.

(** ** Editing *)

(** C9, as the code has it.  For each of the four patches the editor
    passes to [updateSelected] (a title, a one-liner, an example, normalized
    tags), from a state the application shows: the collection keeps its
    length and order; every entry keeps its [id], its [createdAt], the
    places of its properties and every property other than the edited one
    and [updatedAt]; every entry whose id is not that of the selected entry
    is left as it was, which is every entry other than the selected one
    when the ids are distinct; an entry that has the id of the selected
    entry receives the edited value as the selected entry does; and when nothing
    is selected, nothing changes. *)
Theorem updateSelected_frame `{Runtime} (ed : Edit) (now : Z) (w : World) :
  renders w = true ->
  let w' := step (UpdateSelected (patchOfEdit ed) now) w in
  length (entries w') = length (entries w)
  ∧ (forall k e, entries w !! k = Some e ->
       exists e', entries w' !! k = Some e'
                  ∧ id e' = id e
                  ∧ createdAt e' = createdAt e
                  ∧ map fst (props e') = map fst (props e)
                  ∧ (forall key, key <> editedKey ed -> key <> "updatedAt" ->
                       Js.get (object e') key = Js.get (object e) key)
                  ∧ ((forall sel, selected w = Some sel -> id e <> id sel) -> e' = e))
  ∧ (forall sel, selected w = Some sel -> NoDup (map id (entries w)) ->
       forall k e, entries w !! k = Some e -> e <> sel ->
                   entries w' !! k = Some e)
  ∧ (forall sel, selected w = Some sel ->
       forall k e, entries w !! k = Some e -> id e = id sel ->
         exists e', entries w' !! k = Some e'
                    ∧ Js.get (object e') (editedKey ed) = Some (editedValue ed))
  ∧ (selected w = None -> entries w' = entries w).
Proof.
  intros Hw w'. subst w'. rewrite step_update_entries by done.
  destruct (patchOfEdit_frame ed) as [Hid Hcr].
  destruct (selected w) as [sel|] eqn:Hsel.
  - split; [by rewrite length_map|]. split; [|split; [|split; [|done]]].
    + intros k e Hk.
      change (map ?f ?l) with (f <$> l). rewrite list_lookup_fmap, Hk. simpl.
      eexists. split; [done|]. case_bool_decide as Hs.
      * destruct (applyPatch_frame e (patchOfEdit ed) now Hid Hcr) as (-> & -> & _).
        split; [done|]. split; [done|].
        split; [apply applyPatch_keys|]. split.
        { intros key Hkey Hup. apply applyPatch_other; [|done].
          rewrite patchOfEdit_keys. by intros ->%list_elem_of_singleton. }
        intros Hother. by destruct (Hother sel).
      * done.
    + intros sel' [= <-] Hnd k e Hk Hne.
      change (map ?f ?l) with (f <$> l). rewrite list_lookup_fmap, Hk. simpl.
      rewrite bool_decide_eq_false_2; [done|]. intros Heq. apply Hne.
      destruct (find_id_elem _ _ _ Hsel) as [Hin _].
      apply list_elem_of_lookup_1 in Hin as [j Hj].
      assert (Hkj : k = j).
      { eapply NoDup_lookup; [exact Hnd| |].
        - change (map ?f ?l) with (f <$> l). by rewrite list_lookup_fmap, Hk.
        - change (map ?f ?l) with (f <$> l). rewrite list_lookup_fmap, Hj.
          simpl. by rewrite Heq. }
      subst j. congruence.
    + intros sel' [= <-] k e Hk Heq.
      change (map ?f ?l) with (f <$> l). rewrite list_lookup_fmap, Hk. simpl.
      rewrite bool_decide_eq_true_2 by done.
      eexists. split; [done | apply applyPatch_edited].
  - split; [done|]. split; [|split; [done|split; [done|done]]].
    intros k e Hk. exists e. done.
Qed.

(** ** Start-up *)

(** C10. The initial collection is never empty.  When [loadEntries] returns
    nothing (no stored value, an empty one, one that does not parse, one that
    is not an array, or an empty array) it is the two predefined entries,
    whose fields are not blank; when [loadEntries] returns an array that is
    not empty, it is that array, which is the stored array as it was
    parsed.  The state of the application holds these entries, when they
    are entries. *)
Theorem initial_entries `{Runtime} (storage : gmap string string)
    (id1 id2 : string) (now : Z) :
  let init := initEntries storage id1 id2 now in
  init <> []
  ∧ (forall w0, mount storage id1 id2 now = Some w0 -> map object (entries w0) = init)
  ∧ (is_Some (mount storage id1 id2 now)
     <-> Forall (fun x => isEntry x = true) (loadEntries storage))
  ∧ (loadEntries storage = [] ->
     init = map object (seedEntries id1 id2 now)
     ∧ length init = 2%nat
     ∧ Forall nonBlank (seedEntries id1 id2 now)
     ∧ exists w0, mount storage id1 id2 now = Some w0
                  ∧ entries w0 = seedEntries id1 id2 now)
  ∧ (loadEntries storage <> [] -> init = loadEntries storage)
  ∧ (storage !! KEY = None -> loadEntries storage = [])
  ∧ (storage !! KEY = Some "" -> loadEntries storage = [])
  ∧ (forall raw m, storage !! KEY = Some raw -> JSON_parse raw = Throw m ->
       loadEntries storage = [])
  ∧ (forall raw v, storage !! KEY = Some raw -> JSON_parse raw = Ok v ->
       Js.isArray (Some v) = false -> loadEntries storage = [])
  ∧ (forall raw, storage !! KEY = Some raw -> JSON_parse raw = Ok (JArray []) ->
       loadEntries storage = [])
  ∧ (forall raw items, storage !! KEY = Some raw -> raw <> "" ->
       JSON_parse raw = Ok (JArray items) ->
       loadEntries storage = items).
Proof.
  intros init.
  split; [|split; [|split; [|split; [|split; [|split; [|split; [|split; [|split; [|split]]]]]]]]].
  - subst init. unfold initEntries.
    by destruct (loadEntries storage).
  - intros w0 Hm. by apply mount_entries.
  - apply mount_is_Some.
  - intros Hnil. subst init. unfold initEntries. rewrite Hnil. simpl.
    split; [done|]. split; [done|]. split.
    { repeat constructor; done. }
    destruct (proj2 (mount_is_Some storage id1 id2 now)) as [w0 Hm].
    { rewrite Hnil. constructor. }
    exists w0. split; [done|].
    by rewrite (mount_firstEntries _ _ _ _ _ [] Hm).
  - intros Hne. subst init. unfold initEntries.
    by destruct (loadEntries storage).
  - unfold loadEntries. by intros ->.
  - unfold loadEntries. by intros ->.
  - unfold loadEntries. intros raw m -> ->. by destruct (negb _).
  - unfold loadEntries. intros raw v -> -> Hv. destruct (negb _); [done|]. by destruct v.
  - unfold loadEntries. intros raw -> ->. by destruct (negb _).
  - unfold loadEntries. intros raw items -> Hraw ->. by destruct raw.
Qed.

(** ** The operations on sample states *)

Section Concrete.
#[local] Existing Instance RefRuntime.runtime.

Example sample_world_entries :
  entries Sample.world = seedEntries "u1" "u2" 1000
  ∧ selectedId Sample.world = "u1".
Proof. vm_compute. done. Qed.

Example sample_world_mounted :
  mount ∅ "u1" "u2" 1000 = Some Sample.world
  ∧ renders Sample.world = true.
Proof. vm_compute. done. Qed.

Example sample_worldOf_mounted (es : list Entry) :
  mount {[ KEY := RefRuntime.print 0 0 (entriesToJSON es) ]} "u1" "u2" 1000
  = Some (Sample.worldOf es)
  <-> is_Some (mount {[ KEY := RefRuntime.print 0 0 (entriesToJSON es) ]}
                 "u1" "u2" 1000).
Proof.
  unfold Sample.worldOf, Sample.start. split; [by eexists|].
  by intros [w ->].
Qed.

Example import_not_json :
  alerts (step (ImportJsonFile true "not json") Sample.world)
  = ["Unexpected token in JSON"]
  ∧ entries (step (ImportJsonFile true "not json") Sample.world)
    = entries Sample.world.
Proof. vm_compute. done. Qed.

Example import_not_array :
  let text := RefRuntime.print 0 0 (JObject [("a", JNumber 1)]) in
  alerts (step (ImportJsonFile true text) Sample.world)
  = ["invalid json: expected an array"].
Proof. vm_compute. done. Qed.

Example import_overwrites :
  let w := Sample.worldOf [Sample.older] in
  let w' := step (ImportJsonFile true (Sample.fileOf [Sample.newer])) w in
  entries w = [Sample.older]
  ∧ entries w' = [Sample.newer]
  ∧ selectedId w' = "x".
Proof. vm_compute. done. Qed.

(** C1 on a text that is not JSON. *)
Lemma import_failure_atomic_witness :
  let w' := step (ImportJsonFile true "not json") Sample.world in
  entries w' = entries Sample.world
  ∧ localStorage w' = localStorage Sample.world
  ∧ (exists m, alerts w' = alerts Sample.world ++ [m]).
Proof.
  assert (Hp : exists m, JSON_parse "not json" = Throw m).
  { exists "Unexpected token in JSON". vm_compute. reflexivity. }
  assert (Hlive : renders Sample.world = true) by (vm_compute; reflexivity).
  pose proof (import_failure_atomic true "not json" Sample.world Hlive
                (or_introl Hp)) as Hw.
  cbv zeta in Hw. destruct Hw as (He & Hs & Ha & _). auto.
Defined.



(** C3 as worded fails: the entry that [createNew] puts in front is
    titled "new rule", not blank. *)
Lemma createNew_title_not_blank :
  exists e,
    renders Sample.world = true
    ∧ List.hd_error (entries (step (CreateNew "u3" 2000) Sample.world)) = Some e
    ∧ title e = "new rule"
    ∧ title e <> "".
Proof. eexists. vm_compute. repeat split. discriminate. Qed.

(** C3 on the state after start-up. *)
Lemma createNew_correct_witness :
  let w' := step (CreateNew "u3" 2000) Sample.world in
  entries w' = mkEntry "u3" "new rule" "" "" [] 2000 2000 :: entries Sample.world
  ∧ selectedId w' = "u3".
Proof.
  assert (Hlive : renders Sample.world = true) by (vm_compute; reflexivity).
  pose proof (createNew_correct "u3" 2000 Sample.world Hlive) as Hc.
  cbv zeta in Hc. destruct Hc as (He & Hs & _). auto.
Defined.

(** C4 as worded fails twice.  On the empty collection: after both seeded
    entries are deleted the export is the text of the empty array, and
    importing it is refused with a message.  On a collection in which two
    entries share an id: the merged collection holds one of them only. *)
Lemma export_import_not_identical :
  (let w := run [DeleteSelected; DeleteSelected] Sample.world in
   let text := snd (exportJson w) in
   entries w = []
   ∧ renders w = true
   ∧ JSON_parse text = Ok (entriesToJSON (entries w))
   ∧ readIncoming text = Throw "no valid entries found"
   ∧ alerts (step (ImportJsonFile true text) w)
     = alerts w ++ ["no valid entries found"])
  ∧ (let w := Sample.worldOf [Sample.older; Sample.newer] in
     let text := snd (exportJson w) in
     entries w = [Sample.older; Sample.newer]
     ∧ renders w = true
     ∧ JSON_parse text = Ok (entriesToJSON (entries w))
     ∧ alerts (step (ImportJsonFile true text) w) = alerts w
     ∧ entries (step (ImportJsonFile true text) w) = [Sample.newer]).
Proof. vm_compute. done. Qed.

(** C4 on the two seeded entries. *)
Lemma export_import_roundtrip_witness :
  let w := Sample.world in
  let w' := step (ImportJsonFile true (snd (exportJson w))) w in
  alerts w' = alerts w
  ∧ (forall e, e ∈ entries w' -> e ∈ entries w)
  ∧ NoDup (map id (entries w')).
Proof.
  assert (Hlive : renders Sample.world = true) by (vm_compute; reflexivity).
  assert (Hp : JSON_parse (snd (exportJson Sample.world))
               = Ok (entriesToJSON (entries Sample.world)))
    by (vm_compute; reflexivity).
  assert (Hne : entries Sample.world <> []) by (vm_compute; discriminate).
  pose proof (export_import_roundtrip true Sample.world Hlive Hp) as Hx.
  cbv zeta in Hx. destruct Hx as [Hx _].
  destruct (Hx Hne) as (Ha & _ & Hs & Hn & _). auto.
Defined.

(** C7 as worded fails three times.  On a record whose id is the empty
    string the import succeeds and merges it, but the selection stays on
    "u1".  When two stored entries share the id "x", importing a record
    with another id drops the first of them.  And of two valid records of
    the file that share the id "x" the merged collection holds the last
    one only. *)
Lemma import_selection_and_retention_fail :
  (let text := Sample.fileOf [Sample.unnamed] in
   let w' := step (ImportJsonFile true text) Sample.world in
   readIncoming text = Ok [Sample.unnamed]
   ∧ renders Sample.world = true
   ∧ alerts w' = alerts Sample.world
   ∧ Sample.unnamed ∈ entries w'
   ∧ selectedId Sample.world = "u1"
   ∧ selectedId w' = "u1"
   ∧ selectedId w' <> id Sample.unnamed)
  ∧ (let text := Sample.fileOf [Sample.stale] in
     let w := Sample.worldOf [Sample.older; Sample.newer] in
     let w' := step (ImportJsonFile true text) w in
     readIncoming text = Ok [Sample.stale]
     ∧ renders w = true
     ∧ entries w = [Sample.older; Sample.newer]
     ∧ (id Sample.older ∉ map id [Sample.stale])
     ∧ entries w' = [Sample.newer; Sample.stale]
     ∧ Sample.older ∉ entries w')
  ∧ (let text := Sample.fileOf [Sample.older; Sample.newer] in
     let w' := step (ImportJsonFile true text) Sample.world in
     readIncoming text = Ok [Sample.older; Sample.newer]
     ∧ alerts w' = alerts Sample.world
     ∧ List.filter (fun e => bool_decide (id e = "x")) (entries w')
       = [Sample.newer]
     ∧ Sample.older ∉ entries w').
Proof.
  split; [|split].
  - vm_compute. repeat split; try discriminate.
    apply list_elem_of_In. vm_compute. tauto.
  - assert (He : entries (step (ImportJsonFile true (Sample.fileOf [Sample.stale]))
                         (Sample.worldOf [Sample.older; Sample.newer]))
                 = [Sample.newer; Sample.stale]) by (vm_compute; reflexivity).
    cbv zeta. rewrite He.
    split; [vm_compute; reflexivity|]. split; [vm_compute; reflexivity|].
    split; [vm_compute; reflexivity|].
    split; [|split; [reflexivity|]].
    + intros Hin. apply list_elem_of_singleton in Hin. discriminate Hin.
    + intros Hin. apply elem_of_cons in Hin as [Hin | Hin]; [discriminate Hin|].
      apply list_elem_of_singleton in Hin. discriminate Hin.
  - cbv zeta.
    split; [vm_compute; reflexivity|]. split; [vm_compute; reflexivity|].
    assert (Hf : List.filter (fun e => bool_decide (id e = "x"))
                   (entries (step (ImportJsonFile true
                                     (Sample.fileOf [Sample.older; Sample.newer]))
                               Sample.world))
                 = [Sample.newer]) by (vm_compute; reflexivity).
    split; [exact Hf|]. intros Hin.
    assert (Hx : Sample.older ∈ [Sample.newer]).
    { rewrite <- Hf. apply list_elem_of_In, filter_In.
      split; [by apply list_elem_of_In | reflexivity]. }
    apply list_elem_of_singleton in Hx. discriminate Hx.
Qed.

(** C7 on the overwrite of entry "x". *)
Lemma import_merge_witness :
  let text := Sample.fileOf [Sample.newer] in
  let w := Sample.worldOf [Sample.older] in
  let w' := step (ImportJsonFile true text) w in
  readIncoming text = Ok [Sample.newer]
  ∧ NoDup (map id (entries w'))
  ∧ (forall e, e ∈ [Sample.newer] -> e ∈ entries w').
Proof.
  assert (Hr : readIncoming (Sample.fileOf [Sample.newer]) = Ok [Sample.newer])
    by (vm_compute; reflexivity).
  assert (Hlive : renders (Sample.worldOf [Sample.older]) = true)
    by (vm_compute; reflexivity).
  pose proof (import_merge true (Sample.fileOf [Sample.newer])
                (Sample.worldOf [Sample.older]) [Sample.newer] Hlive Hr) as Hm.
  cbv zeta in Hm. destruct Hm as (_ & _ & Hnd & _ & _ & _ & Hall & _).
  split; [exact Hr|]. split; [exact Hnd|].
  apply Hall. apply NoDup_singleton.
Defined.

(** C8 as worded fails: a state reached by importing a record that was
    updated before it was created holds that record. *)
Lemma import_breaks_times :
  let w := step (ImportJsonFile true (Sample.fileOf [Sample.stale])) Sample.world in
  reachable w
  ∧ renders w = true
  ∧ Sample.stale ∈ entries w
  ∧ isEntry (object Sample.stale) = true
  ∧ updatedAt Sample.stale < createdAt Sample.stale.
Proof.
  split.
  { apply reachable_step, (reachable_mount ∅ "u1" "u2" 1000).
    apply sample_world_mounted. }
  split; [vm_compute; reflexivity|].
  split; [|split; [reflexivity | reflexivity]].
  apply list_elem_of_In. vm_compute. tauto.
Qed.

(** C9 as worded fails when two entries share an id: the first of them
    is the selected one, and an edit of its title changes the other
    one too. *)
Lemma updateSelected_changes_same_id :
  let w := Sample.worldOf [Sample.older; Sample.newer] in
  let w' := step (UpdateSelected (patchOfEdit (EditTitle "doors")) 2000) w in
  reachable w
  ∧ renders w = true
  ∧ entries w = [Sample.older; Sample.newer]
  ∧ selected w = Some Sample.older
  ∧ map title (entries w) = ["old"; "T"]
  ∧ map title (entries w') = ["doors"; "doors"]
  ∧ entries w' !! 1%nat <> Some Sample.newer.
Proof.
  split.
  { apply (reachable_mount
             {[ KEY := RefRuntime.print 0 0
                         (entriesToJSON [Sample.older; Sample.newer]) ]}
             "u1" "u2" 1000).
    vm_compute. reflexivity. }
  vm_compute. repeat split; discriminate.
Qed.

(** C9 on a new title for the selected seeded entry. *)
Lemma updateSelected_frame_witness :
  let w' := step (UpdateSelected (patchOfEdit (EditTitle "doors")) 2000)
              Sample.world in
  length (entries w') = length (entries Sample.world)
  ∧ map title (entries w') = ["doors"; "default alive"].
Proof.
  split; [|vm_compute; reflexivity].
  apply (updateSelected_frame (EditTitle "doors") 2000 Sample.world).
  vm_compute. reflexivity.
Defined.

(** C8 on the import of a record with consistent timestamps. *)
Lemma times_preserved_witness :
  timesOk (entries (step (ImportJsonFile true (Sample.fileOf [Sample.newer]))
                      Sample.world)).
Proof.
  apply (proj2 (proj2 times_preserved)).
  - rewrite (proj1 sample_world_entries). apply (proj1 times_preserved).
  - intros incoming Hr.
    assert (Hi : readIncoming (Sample.fileOf [Sample.newer]) = Ok [Sample.newer])
      by (vm_compute; reflexivity).
    rewrite Hi in Hr. injection Hr as <-.
    repeat constructor. vm_compute. discriminate.
Defined.
End Concrete.

(** * Further properties of the store *)

Section StoreFacts.
Context `{Runtime}.
Implicit Types (u : Update) (w : World) (a : Action).

Lemma render_noUpdate w : render noUpdate w = w.
Proof.
  destruct w as [es sel q st al]. unfold render, applyUpdate. simpl.
  destruct (renders _); [|done].
  rewrite bool_decide_eq_false_2 by (intros Hn; by apply Hn). reflexivity.
Qed.

Lemma filter_sublist {A} (p : A -> bool) (l : list A) :
  List.filter p l `sublist_of` l.
Proof.
  induction l as [|x r IH]; simpl; [constructor|].
  destruct (p x); by constructor.
Qed.

Lemma step_delete_entries w :
  renders w = true ->
  entries (step DeleteSelected w)
  = match selected w with
    | None => entries w
    | Some sel =>
        List.filter (fun e => negb (bool_decide (id e = id sel))) (entries w)
    end.
Proof.
  intros Hw. rewrite step_entries, Hw. cbn [handle]. unfold deleteSelected.
  by destruct (selected w).
Qed.

(** The ids of the merged collection are the existing ones and the
    incoming ones. *)
Lemma mergeById_ids (seen prev : list Entry) (i : string) :
  i ∈ map id (mergeById seen prev) <-> i ∈ map id prev ∨ i ∈ map id seen.
Proof.
  rewrite <- elem_of_app, <- map_app. split.
  - intros Hi. apply list_elem_of_In, in_map_iff in Hi as (e & <- & He).
    apply list_elem_of_In, mergeById_elem, lastWithId_Some in He as [He _].
    by apply elem_of_ids.
  - intros Hi. apply lastWithId_is_Some in Hi as [e He].
    pose proof (lastWithId_Some _ _ _ He) as [_ Hid].
    rewrite <- Hid. apply elem_of_ids, mergeById_elem. by rewrite Hid.
Qed.

(** What creation does to the state cells. *)
Lemma step_create newId now w :
  renders w = true ->
  let w' := step (CreateNew newId now) w in
  entries w' = blankEntry newId now :: entries w
  ∧ selectedId w' = newId
  ∧ query w' = query w
  ∧ renders w' = true.
Proof.
  intros Hw w'. subst w'. rewrite step_live by done. cbn [handle].
  assert (H1 : renders (applyUpdate (createNew newId now w) w) = true)
    by (by apply (renders_cons w _ (blankEntry newId now))).
  assert (Hsel : selectedId (render (createNew newId now w) w) = newId).
  { rewrite render_selected, render_entries, H1. simpl.
    unfold blankEntry. rewrite id_mkEntry. by destruct (JsString.truthy newId). }
  rewrite render_entries, render_query. simpl. repeat split; try done.
  apply (renders_cons w _ (blankEntry newId now));
    try done; [by rewrite render_entries | by rewrite render_query].
Qed.

(** ** Tags that can be shown *)

Lemma previewable_tags (e e' : Entry) :
  tags e = tags e' -> previewable e = previewable e'.
Proof. unfold previewable. by intros ->. Qed.

Lemma plain_strings (l : list string) :
  forallb Js.converts (map JString l) && forallb Js.validChild (map JString l)
  = true.
Proof.
  apply andb_true_iff. split; apply forallb_forall; intros x Hx;
    apply in_map_iff in Hx as (s & <- & _); reflexivity.
Qed.

Lemma bringsPlainTags_edit (ed : Edit) (now : Z) :
  bringsPlainTags (UpdateSelected (patchOfEdit ed) now).
Proof. destruct ed; simpl; try done. apply plain_strings. Qed.

Lemma plainTags_seedEntries id1 id2 now : plainTags (seedEntries id1 id2 now).
Proof. unfold plainTags, seedEntries. by repeat apply Forall_cons_2. Qed.

(** No action brings an object among the tags unless its patch or its
    file holds one. *)
Lemma step_plainTags a w :
  plainTags (entries w) -> bringsPlainTags a -> plainTags (entries (step a w)).
Proof.
  intros Hs Ha. rewrite step_entries. destruct (renders w); [|done].
  unfold plainTags in *. rewrite Forall_forall in Hs. apply Forall_forall.
  destruct a as [newId now|patch now| |eager text|k|q]; cbn [handle].
  - simpl. intros e [->|He]%elem_of_cons; [done | by apply Hs].
  - unfold updateSelected. destruct (selected w) as [sel|]; [|done].
    cbn [setEntries]. intros y Hy.
    apply list_elem_of_In, in_map_iff in Hy as (x & <- & Hx).
    apply list_elem_of_In in Hx. case_bool_decide; [|by apply Hs].
    simpl in Ha. destruct (p_tags patch) as [tg|] eqn:Htg.
    + unfold previewable.
      destruct (applyPatch_reads x patch now) as (_ & _ & _ & _ & -> & _).
      by rewrite Htg.
    + rewrite (previewable_tags _ x); [by apply Hs|].
      destruct (applyPatch_reads x patch now) as (_ & _ & _ & _ & -> & _).
      by rewrite Htg.
  - unfold deleteSelected. destruct (selected w) as [sel|]; [|done].
    cbn [setEntries]. intros e He.
    apply list_elem_of_In, filter_In in He as [He _].
    by apply Hs, list_elem_of_In.
  - destruct (readIncoming text) as [incoming|m] eqn:Hr.
    + rewrite (importJsonFile_Ok eager text w incoming Hr). cbn [setEntries].
      specialize (Ha incoming Hr). unfold plainTags in Ha.
      rewrite Forall_forall in Ha. intros e He.
      apply mergeById_elem, lastWithId_Some in He as [He _].
      apply elem_of_app in He as [He | He]; [by apply Hs|].
      apply Ha. by rewrite <- (seen_perm eager incoming).
    + unfold importJsonFile. by rewrite Hr.
  - unfold selectVisible. by destruct (filtered (entries w) (query w) !! k).
  - done.
Qed.

(** ** The selection *)

Lemma selectFirstEffect_selectionOk w :
  selectionOk w -> selectionOk (selectFirstEffect w).
Proof.
  unfold selectionOk. rewrite selectFirstEffect_selected.
  rewrite (proj1 (selectFirstEffect_frame w)).
  destruct (entries w) as [|e r]; [done|].
  destruct (JsString.truthy (selectedId w)); [done|]. intros _. left.
Qed.

Lemma render_selectionOk u w :
  selectionOk (applyUpdate u w) -> selectionOk (render u w).
Proof.
  intros Hok. unfold render. cbv zeta. destruct (renders _); [|done].
  assert (Hp : forall b, selectionOk (persistEffect b (applyUpdate u w)))
    by (by intros []).
  destruct (_ || _); [by apply selectFirstEffect_selectionOk | done].
Qed.

Lemma selectionOk_ids w w' :
  selectionOk w -> selectedId w' = selectedId w ->
  map id (entries w') = map id (entries w) -> selectionOk w'.
Proof.
  unfold selectionOk. intros Hok -> Hids.
  destruct (entries w) as [|e r], (entries w') as [|e' r']; try done.
  by rewrite Hids.
Qed.

(** The handlers leave a selection that is in the collection. *)
Lemma handle_selectionOk a w :
  selectionOk w -> keepsIds a -> selectionOk (applyUpdate (handle a w) w).
Proof.
  intros Hok Hkeep.
  destruct a as [newId now|patch now| |eager text|k|q]; cbn [handle];
    [| |unfold selectionOk in *..].
  - unfold selectionOk. simpl. left.
  - unfold updateSelected. destruct (selected w) as [sel|] eqn:Hsel;
      [|by destruct w].
    apply (selectionOk_ids w); [done | done |].
    cbn [applyUpdate entries setEntries].
    rewrite map_map. apply map_ext. intros e. case_bool_decide; [|done].
    destruct (applyPatch_reads e patch now) as (-> & _).
    simpl in Hkeep. by rewrite Hkeep.
  - unfold deleteSelected. destruct (selected w) as [sel|] eqn:Hsel; [|done].
    cbn [applyUpdate entries selectedId setEntries setSelectedId default].
    destruct (List.filter _ (entries w)) as [|x r] eqn:Hf; [done|].
    rewrite <- Hf.
    destruct (JsArray.sort byUpdatedDesc (List.filter _ (entries w)))
      as [|nxt rest] eqn:Hsort.
    { assert (Hnil : List.filter (fun e => negb (bool_decide (id e = id sel)))
                       (entries w) = []) by (by apply (sort_nil updatedAt)).
      congruence. }
    apply elem_of_ids. apply (sort_elem updatedAt).
    unfold byUpdatedDesc in Hsort. rewrite Hsort. left.
  - destruct (readIncoming text) as [incoming|m] eqn:Hr.
    + rewrite (importJsonFile_Ok eager text w incoming Hr).
      set (seen := if eager then incoming else JsArray.sort byUpdatedDesc incoming).
      pose proof (seen_perm eager incoming) as Hseen. fold seen in Hseen.
      apply readIncoming_Ok in Hr as (items & _ & _ & Hne).
      destruct (JsArray.sort byUpdatedDesc incoming) as [|newest rest] eqn:Hsort.
      { exfalso. apply Hne. by apply (sort_nil updatedAt). }
      destruct (sort_head updatedAt newest rest incoming Hsort) as (Hin & _ & _).
      assert (Hnew : id newest ∈ map id (mergeById seen (entries w))).
      { apply mergeById_ids. right. rewrite Hseen. by apply elem_of_ids. }
      cbn [applyUpdate entries selectedId setEntries setSelectedId].
      destruct (mergeById seen (entries w)) as [|x r] eqn:Hm.
      { by apply elem_of_nil in Hnew. }
      rewrite <- Hm.
      destruct (JsString.truthy (id newest)) eqn:Ht; simpl;
        [by rewrite Hm|].
      apply truthy_false in Ht.
      destruct (entries w) as [|e0 r0] eqn:He.
      * by rewrite Hok, <- Ht, Hm.
      * apply mergeById_ids. by left.
    + unfold importJsonFile. by rewrite Hr.
  - unfold selectVisible.
    destruct (filtered (entries w) (query w) !! k) as [e|] eqn:Hk; [|done].
    assert (He : e ∈ entries w).
    { apply list_elem_of_lookup_2 in Hk. by apply filtered_elem in Hk as [? _]. }
    cbn [applyUpdate entries selectedId setEntries setSelectedId default].
    destruct (entries w) eqn:Hw; [by apply elem_of_nil in He|].
    rewrite <- Hw in *. by apply elem_of_ids.
  - done.
Qed.

(** ** Start-up *)

Lemma renders_nil w : entries w = [] -> renders w = true.
Proof.
  intros He. apply plainTags_renders. rewrite He. constructor.
Qed.

Lemma mount_selected storage id1 id2 now w :
  mount storage id1 id2 now = Some w ->
  exists e rest, entries w = e :: rest ∧ selectedId w = id e.
Proof.
  intros (loaded & Hl & ->)%mount_Some. cbv zeta.
  set (w0 := firstState storage loaded (firstEntries loaded id1 id2 now)).
  destruct loaded as [|e r].
  - assert (Hr : renders w0 = true).
    { apply plainTags_renders. apply plainTags_seedEntries. }
    rewrite Hr. eexists _, _.
    rewrite (proj1 (selectFirstEffect_frame _)), selectFirstEffect_selected.
    simpl. split; reflexivity.
  - exists e, r. destruct (renders w0).
    + rewrite (proj1 (selectFirstEffect_frame _)), selectFirstEffect_selected.
      simpl. split; [done|]. by destruct (JsString.truthy (id e)).
    + done.
Qed.

Lemma mount_localStorage storage id1 id2 now w :
  mount storage id1 id2 now = Some w ->
  localStorage w = storage ∨ localStorage w = saveEntries (entries w) storage.
Proof.
  intros (loaded & Hl & ->)%mount_Some. cbv zeta.
  destruct (renders _); [right | by left].
  by rewrite (proj1 (proj2 (selectFirstEffect_frame _))),
    (proj1 (selectFirstEffect_frame _)).
Qed.
End StoreFacts.

(** After a start-up on stored entries (or on nothing usable) the
    collection is not empty and its first entry is the selected one; this
    holds whether or not the first view throws. *)
Theorem mount_selects_first `{Runtime} (storage : gmap string string)
    (id1 id2 : string) (now : Z) (w0 : World) :
  mount storage id1 id2 now = Some w0 ->
  exists e rest,
    entries w0 = e :: rest
    ∧ selectedId w0 = id e
    ∧ selected w0 = Some e.
Proof.
  intros Hm.
  destruct (mount_selected storage id1 id2 now w0 Hm) as (e & rest & He & Hs).
  exists e, rest. split; [done|]. split; [done|].
  unfold selected. rewrite He, Hs. simpl. by rewrite bool_decide_eq_true_2.
Qed.

(** [deleteSelected], from a state the application shows, does nothing
    when no entry is selected.  Otherwise it removes exactly the entries
    with the id of the selected one and keeps the others in their order,
    and moves the selection: to nothing when no entry is left, else to the
    remaining entry with the greatest [updatedAt] (the first such in the
    collection), provided its id is not the empty string.  The result is
    saved when the view shows it, which it does when no entry is left or no
    tag is an object; when the view throws nothing was written, unless it
    throws only after the select-first effect. *)
Theorem deleteSelected_correct `{Runtime} (w : World) :
  renders w = true ->
  let w' := step DeleteSelected w in
  (selected w = None -> w' = w)
  ∧ (forall sel, selected w = Some sel ->
       (forall e, e ∈ entries w' <-> e ∈ entries w ∧ id e <> id sel)
       ∧ entries w' `sublist_of` entries w
       ∧ (sel ∉ entries w')
       ∧ (length (entries w') < length (entries w))%nat
       ∧ (renders w' = true ->
          localStorage w' = saveEntries (entries w') (localStorage w))
       ∧ (localStorage w' = localStorage w
          ∨ localStorage w' = saveEntries (entries w') (localStorage w))
       ∧ (plainTags (entries w) -> renders w' = true)
       ∧ (entries w' = [] -> selectedId w' = "" ∧ renders w' = true)
       ∧ (entries w' <> [] ->
          exists nxt,
            nxt ∈ entries w'
            ∧ (forall e, e ∈ entries w' -> updatedAt e <= updatedAt nxt)
            ∧ List.hd_error
                (List.filter (fun e => updatedAt e =? updatedAt nxt) (entries w'))
              = Some nxt
            ∧ (id nxt <> "" -> selectedId w' = id nxt))).
Proof.
  intros Hw w'. split.
  - intros Hn. subst w'. rewrite step_live by done. cbn [handle].
    unfold deleteSelected. rewrite Hn. apply render_noUpdate.
  - intros sel Hsel.
    assert (Hes : entries w' = List.filter (fun e => negb (bool_decide (id e = id sel)))
                                 (entries w)).
    { subst w'. by rewrite step_delete_entries, Hsel. }
    assert (Hmem : forall e, e ∈ entries w' <-> e ∈ entries w ∧ id e <> id sel).
    { intros e. rewrite Hes, list_elem_of_In, filter_In, <- list_elem_of_In.
      rewrite negb_true_iff, bool_decide_eq_false. done. }
    assert (Hu : deleteSelected w
              = {| setEntries := Some (fun prev =>
                     List.filter (fun e => negb (bool_decide (id e = id sel))) prev);
                   setSelectedId :=
                     Some (match JsArray.sort byUpdatedDesc (entries w') with
                           | e :: _ => id e | [] => "" end);
                   setQuery := None; alert := None |}).
    { rewrite Hes. unfold deleteSelected. by rewrite Hsel. }
    assert (Hselid : selectedId w'
              = let s := match JsArray.sort byUpdatedDesc (entries w') with
                         | e :: _ => id e | [] => "" end in
                if renders (applyUpdate (deleteSelected w) w)
                then match entries w' with
                     | e :: _ => if JsString.truthy s then s else id e
                     | [] => s
                     end
                else s).
    { unfold w'. rewrite step_live by done. cbn [handle].
      apply render_selected_set; [|rewrite Hu; by eexists].
      rewrite Hu at 1. cbn [setSelectedId]. unfold w'.
      by rewrite (step_live DeleteSelected w) by done. }
    assert (Hst : localStorage w'
                  = if renders (applyUpdate (deleteSelected w) w)
                    then saveEntries (entries w') (localStorage w)
                    else localStorage w).
    { unfold w'. rewrite step_live by done. cbn [handle].
      apply render_localStorage_set. rewrite Hu. by eexists. }
    split; [exact Hmem|]. split; [rewrite Hes; apply filter_sublist|].
    split; [intros Hin; by apply Hmem in Hin as [_ ?]|].
    split.
    { rewrite Hes. destruct (find_id_elem _ _ _ Hsel) as [Hin _].
      clear -Hin. induction (entries w) as [|x r IH]; [by apply elem_of_nil in Hin|].
      simpl. apply elem_of_cons in Hin as [<- | Hin].
      - rewrite bool_decide_eq_true_2 by done. simpl.
        pose proof (filter_length_le (fun e => negb (bool_decide (id e = id sel))) r)
          as Hle.
        unfold lt. apply le_n_S. exact Hle.
      - specialize (IH Hin). destruct (negb _); simpl; lia. }
    split.
    { intros Hlive. rewrite Hst. unfold w' in Hlive.
      rewrite step_live in Hlive by done. cbn [handle] in Hlive.
      by rewrite (render_renders _ _ Hlive). }
    split.
    { rewrite Hst. destruct (renders (applyUpdate _ _)); [by right | by left]. }
    split.
    { intros Hplain. apply plainTags_renders. by apply step_plainTags. }
    split.
    + intros Hnil. split; [|by apply renders_nil].
      rewrite Hselid, Hnil. simpl. by destruct (renders (applyUpdate _ _)).
    + intros Hne.
      destruct (JsArray.sort byUpdatedDesc (entries w')) as [|nxt rest] eqn:Hs.
      { exfalso. apply Hne. by apply (sort_nil updatedAt). }
      destruct (sort_head updatedAt nxt rest (entries w') Hs) as (Hin & Hmax & Hfirst).
      exists nxt. split; [done|]. split; [done|]. split; [done|].
      intros Hid. rewrite Hselid. cbv zeta.
      apply truthy_true in Hid. rewrite Hid.
      destruct (renders (applyUpdate _ _)); [|done]. by destruct (entries w').
Qed.

(** While there are entries, one of them is selected: this holds after a
    start-up on stored entries and is kept by every action whose patch, if
    it is an update, leaves the id alone; so the editor shows "nothing
    selected" exactly when the collection is empty. *)
Theorem selection_invariant `{Runtime} :
  (forall storage id1 id2 now w0,
     mount storage id1 id2 now = Some w0 -> selectionOk w0)
  ∧ (forall a w, selectionOk w -> keepsIds a -> selectionOk (step a w))
  ∧ (forall w, selectionOk w -> (selected w = None <-> entries w = [])).
Proof.
  split; [|split].
  - intros storage id1 id2 now w0 Hm.
    destruct (mount_selected storage id1 id2 now w0 Hm) as (e & rest & He & Hs).
    unfold selectionOk. rewrite He, Hs. left.
  - intros a w Hok Hkeep. unfold step. destruct (renders w); [|done].
    by apply render_selectionOk, handle_selectionOk.
  - intros w Hok. unfold selectionOk in Hok. unfold selected. split.
    + intros Hn. destruct (entries w) as [|e r] eqn:He; [done|].
      destruct (find_id_Some (selectedId w) (e :: r) Hok) as [x Hx]. congruence.
    + by intros ->.
Qed.

Section PersistenceFacts.
Context `{Runtime}.

Lemma step_storage_frame a w :
  delete KEY (localStorage (step a w)) = delete KEY (localStorage w).
Proof.
  unfold step. destruct (renders w); [|done]. rewrite render_localStorage.
  destruct (setEntries (handle a w)); [|done].
  destruct (renders _); [|done].
  unfold saveEntries. apply delete_insert_eq.
Qed.

Lemma mount_storage_frame storage id1 id2 now w :
  mount storage id1 id2 now = Some w ->
  delete KEY (localStorage w) = delete KEY storage.
Proof.
  intros [-> | ->]%mount_localStorage; [done|].
  unfold saveEntries. apply delete_insert_eq.
Qed.
End PersistenceFacts.

(** The application writes to [localStorage] under its own key only:
    whatever else the store holds is the same after start-up and any
    sequence of actions. *)
Theorem storage_frame `{Runtime} (storage : gmap string string)
    (id1 id2 : string) (now : Z) (w0 : World) (acts : list Action) :
  mount storage id1 id2 now = Some w0 ->
  delete KEY (localStorage (run acts w0)) = delete KEY storage.
Proof.
  intros Hm. induction acts as [|a acts IH] using rev_ind.
  - by apply (mount_storage_frame storage id1 id2 now).
  - by rewrite run_snoc, step_storage_frame.
Qed.

(** Only an import that fails shows a message: it appends exactly one, and
    every other action leaves the messages as they were, also when it makes
    the view throw. *)
Theorem alerts_only_on_failed_import `{Runtime} (a : Action) (w : World) :
  renders w = true ->
  match a with
  | ImportJsonFile _ text =>
      match readIncoming text with
      | Throw m => alerts (step a w) = alerts w ++ [m]
      | Ok _ => alerts (step a w) = alerts w
      end
  | _ => alerts (step a w) = alerts w
  end.
Proof.
  intros Hw. rewrite step_live by done.
  destruct a as [newId now|patch now| |eager text|k|q]; cbn [handle];
    rewrite ?render_alerts.
  - done.
  - unfold updateSelected. by destruct (selected w).
  - unfold deleteSelected. by destruct (selected w).
  - destruct (readIncoming text) as [incoming|m] eqn:Hr.
    + by rewrite (importJsonFile_Ok eager text w incoming Hr).
    + unfold importJsonFile. by rewrite Hr.
  - unfold selectVisible. by destruct (filtered _ _ !! k).
  - done.
Qed.

(** Ids stay pairwise distinct: after start-up when the stored entries have
    distinct ids and [uid()] returned two different ids, and after every
    action, provided a creation gets an id not in use and an update leaves
    the id alone.  A successful import makes the ids distinct whatever
    they were. *)
Theorem ids_stay_distinct `{Runtime} :
  (forall storage id1 id2 now loaded w0,
     map object loaded = loadEntries storage ->
     NoDup (map id loaded) -> id1 <> id2 ->
     mount storage id1 id2 now = Some w0 ->
     NoDup (map id (entries w0)))
  ∧ (forall a w,
       NoDup (map id (entries w)) -> freshIds a w ->
       NoDup (map id (entries (step a w))))
  ∧ (forall eager text w incoming,
       renders w = true ->
       readIncoming text = Ok incoming ->
       NoDup (map id (entries (step (ImportJsonFile eager text) w)))).
Proof.
  split; [|split].
  - intros storage id1 id2 now loaded w0 Hl Hnd Hne Hm.
    rewrite (mount_firstEntries _ _ _ _ _ _ Hm Hl). unfold firstEntries.
    destruct (0 <? length loaded)%nat; [done|].
    simpl. apply NoDup_cons. split; [|apply NoDup_singleton].
    rewrite list_elem_of_singleton. done.
  - intros a w Hnd Hfresh. rewrite step_entries.
    destruct (renders w) eqn:Hw; [|done].
    destruct a as [newId now|patch now| |eager text|k|q]; cbn [handle].
    + simpl. by apply NoDup_cons.
    + unfold updateSelected. destruct (selected w) as [sel|]; [|done].
      cbn [setEntries]. simpl in Hfresh. rewrite map_map.
      rewrite (map_ext _ id); [done|].
      intros e. case_bool_decide; [|done].
      destruct (applyPatch_reads e patch now) as (-> & _). by rewrite Hfresh.
    + unfold deleteSelected. destruct (selected w) as [sel|]; [|done].
      cbn [setEntries].
      eapply sublist_NoDup; [exact Hnd|].
      change (map id ?l) with (id <$> l). apply fmap_sublist, filter_sublist.
    + destruct (readIncoming text) as [incoming|m] eqn:Hr.
      * rewrite (importJsonFile_Ok eager text w incoming Hr). cbn [setEntries].
        apply mergeById_NoDup.
      * unfold importJsonFile. by rewrite Hr.
    + unfold selectVisible.
      by destruct (filtered _ _ !! k).
    + done.
  - intros eager text w incoming Hw Hr.
    destruct (step_import_Ok eager text w incoming Hw Hr) as [-> _].
    apply mergeById_NoDup.
Qed.

Lemma filter_other_ids (i : string) (l : list Entry) :
  i ∉ map id l ->
  List.filter (fun e => negb (bool_decide (id e = i))) l = l.
Proof.
  induction l as [|e r IH]; simpl; intros Hi; [done|].
  apply not_elem_of_cons in Hi as [Hne Hr].
  rewrite bool_decide_eq_false_2 by congruence. simpl. by rewrite IH.
Qed.

(** Creating an entry under an id not in use and deleting it at once gives
    back the collection as it was. *)
Theorem create_then_delete `{Runtime} (newId : string) (now : Z) (w : World) :
  newId ∉ map id (entries w) ->
  entries (step DeleteSelected (step (CreateNew newId now) w)) = entries w.
Proof.
  intros Hfresh. destruct (renders w) eqn:Hw;
    [|by rewrite (step_dead _ w Hw), (step_dead _ w Hw)].
  destruct (step_create newId now w Hw) as (Hes & Hsel & _ & Hlive).
  assert (Hid : id (blankEntry newId now) = newId) by reflexivity.
  rewrite step_delete_entries by done. unfold selected. rewrite Hes, Hsel.
  cbn [JsArray.find]. rewrite Hid, bool_decide_eq_true_2 by done.
  cbn [List.filter]. rewrite Hid, bool_decide_eq_true_2 by done.
  cbn [negb]. by apply filter_other_ids.
Qed.

(** Closing and reopening the application brings back a collection that is
    not empty, in its stored order, when the application was showing it and
    the runtime reads back what it wrote; the selection is not stored and
    returns to the first entry. *)
Theorem reload_restores `{Runtime} (storage : gmap string string)
    (id1 id2 id3 id4 : string) (now later : Z) (w0 : World) (acts : list Action) :
  mount storage id1 id2 now = Some w0 ->
  let w := run acts w0 in
  let text := JSON_stringify 0 (entriesToJSON (entries w)) in
  renders w = true ->
  entries w <> [] ->
  text <> "" ->
  JSON_parse text = Ok (entriesToJSON (entries w)) ->
  exists w',
    mount (localStorage w) id3 id4 later = Some w'
    ∧ entries w' = entries w
    ∧ (exists e rest, entries w = e :: rest ∧ selectedId w' = id e)
    ∧ localStorage w' = localStorage w.
Proof.
  intros Hm w text Hlive Hne Htext Hp.
  assert (Hw : written w).
  { apply run_written; [|done]. by apply (mount_written storage id1 id2 now). }
  assert (Hl : map object (entries w) = loadEntries (localStorage w))
    by (symmetry; by apply loadEntries_written).
  destruct (proj2 (mount_is_Some (localStorage w) id3 id4 later)) as [w' Hm'].
  { rewrite <- Hl. apply Forall_forall. intros x Hx.
    apply list_elem_of_In, in_map_iff in Hx as (e & <- & _). apply isEntry_object. }
  assert (Hes : entries w' = entries w).
  { rewrite (mount_firstEntries _ _ _ _ _ _ Hm' Hl). unfold firstEntries.
    by destruct (entries w). }
  exists w'. split; [done|]. split; [done|]. split.
  - destruct (mount_selected _ _ _ _ _ Hm') as (e & rest & He & Hs).
    exists e, rest. by rewrite <- Hes.
  - destruct (mount_localStorage _ _ _ _ _ Hm') as [->| ->]; [done|].
    rewrite Hes. unfold saveEntries. apply insert_id. exact Hw.
Qed.

(** An emptied collection does not survive a restart: once every entry has
    been deleted, reopening the application shows the two predefined
    entries again. *)
Theorem reload_reseeds `{Runtime} (storage : gmap string string)
    (id1 id2 id3 id4 : string) (now later : Z) (w0 : World) (acts : list Action) :
  mount storage id1 id2 now = Some w0 ->
  let w := run acts w0 in
  entries w = [] ->
  JSON_parse (JSON_stringify 0 (entriesToJSON [])) = Ok (entriesToJSON []) ->
  exists w',
    mount (localStorage w) id3 id4 later = Some w'
    ∧ entries w' = seedEntries id3 id4 later.
Proof.
  intros Hm w Hnil Hp.
  assert (Hw : written w).
  { apply run_written; [|by apply renders_nil].
    by apply (mount_written storage id1 id2 now). }
  unfold written in Hw. rewrite Hnil in Hw.
  assert (Hl : loadEntries (localStorage w) = []).
  { unfold loadEntries. rewrite Hw.
    destruct (JsString.truthy _); simpl; [|done]. by rewrite Hp. }
  destruct (proj2 (mount_is_Some (localStorage w) id3 id4 later)) as [w' Hm'].
  { rewrite Hl. constructor. }
  exists w'. split; [done|].
  by rewrite (mount_firstEntries _ _ _ _ _ [] Hm').
Qed.

(** * Further properties of the search *)

Section SubstringFacts.
Implicit Types (a b c s q : string).

Lemma app_assoc_s a b c : (a +:+ b) +:+ c = a +:+ (b +:+ c).
Proof.
  induction a as [|x a IH]; [done|].
  by rewrite !app_String_l, IH.
Qed.




Lemma contains_trans a b c : contains a b -> contains b c -> contains a c.
Proof.
  intros (p1 & s1 & ->) (p2 & s2 & ->). exists (p1 +:+ p2), (s2 +:+ s1).
  by rewrite !app_assoc_s.
Qed.








Lemma trimEnd_app_space s :
  JsString.trimEnd (s +:+ " ") = JsString.trimEnd s.
Proof.
  induction s as [|x s IH]; [done|].
  by rewrite app_String_l, !trimEnd_cons, IH.
Qed.

Lemma trim_app_space s : JsString.trim (s +:+ " ") = JsString.trim s.
Proof.
  unfold JsString.trim. induction s as [|x s IH]; [done|].
  rewrite app_String_l. cbn [JsString.trimStart].
  destruct (Ascii.is_space x); [exact IH|].
  by rewrite <- app_String_l, trimEnd_app_space.
Qed.

Lemma trim_space_app s : JsString.trim (" " +:+ s) = JsString.trim s.
Proof. reflexivity. Qed.
End SubstringFacts.

Lemma filter_filter_comm {A} (p q : A -> bool) (l : list A) :
  List.filter p (List.filter q l) = List.filter q (List.filter p l).
Proof.
  induction l as [|x r IH]; simpl; [done|].
  destruct (p x) eqn:Hp, (q x) eqn:Hq; simpl; rewrite ?Hp, ?Hq, ?IH; done.
Qed.

Lemma filter_filter_implies {A} (p q : A -> bool) (l : list A) :
  (forall x, p x = true -> q x = true) ->
  List.filter p (List.filter q l) = List.filter p l.
Proof.
  intros Hpq. induction l as [|x r IH]; simpl; [done|].
  destruct (q x) eqn:Hq; simpl.
  - destruct (p x); by rewrite IH.
  - destruct (p x) eqn:Hp; [|done]. apply Hpq in Hp. congruence.
Qed.

(** The search does not depend on the case of the query or on white space
    around it. *)
Theorem search_ignores_case_and_padding (es : list Entry) (query : string) :
  filtered es (JsString.toLowerCase query) = filtered es query
  ∧ filtered es (JsString.trim query) = filtered es query
  ∧ filtered es (" " +:+ query +:+ " ") = filtered es query.
Proof.
  rewrite !filtered_as_sort. split; [|split].
  - by rewrite toLowerCase_trim, toLowerCase_idem.
  - by rewrite trim_idem.
  - by rewrite trim_space_app, trim_app_space.
Qed.

Lemma includes_mono (hay : string) (q1 q2 : string) :
  contains q1 q2 -> JsString.includes hay q1 = true -> JsString.includes hay q2 = true.
Proof.
  rewrite !includes_spec. intros Hq Hh. by apply (contains_trans hay q1 q2).
Qed.


(** Refining a search: when the normalized query [q1] contains the
    normalized query [q2], searching for [q1] within the results of [q2]
    gives the results of [q1]; so a longer query never shows an entry that
    the shorter one hides. *)
Theorem search_refines (es : list Entry) (q1 q2 : string) :
  contains (JsString.toLowerCase (JsString.trim q1))
           (JsString.toLowerCase (JsString.trim q2)) ->
  filtered (filtered es q2) q1 = filtered es q1
  ∧ (forall e, e ∈ filtered es q1 -> e ∈ filtered es q2).
Proof.
  intros Hq. split.
  - rewrite (filtered_as_sort (filtered es q2)), (filtered_as_sort es q1).
    unfold byUpdatedDesc. apply (sort_unique updatedAt).
    + apply (sort_sorted updatedAt).
    + intros k. rewrite (sort_stable updatedAt), filter_filter_comm.
      rewrite filtered_as_sort. unfold byUpdatedDesc.
      rewrite (sort_stable updatedAt), <- filter_filter_comm.
      f_equal. apply filter_filter_implies.
      intros e. by apply includes_mono.
  - intros e. rewrite !filtered_elem. intros [He Hi]. split; [done|].
    by apply (includes_mono _ _ _ Hq).
Qed.

(** * Further properties of the tags field *)

Section TagFacts.
Implicit Types (c sep : ascii) (s p : string) (l : list string).

Local Abbreviation chars := list_ascii_of_string.

Lemma split_nonempty sep s : JsString.split sep s <> [].
Proof.
  destruct s as [|c s]; simpl; [done|].
  destruct (Ascii.eqb c sep); [done|]. by destruct (JsString.split sep s).
Qed.

Lemma split_cons_other sep c s :
  c <> sep ->
  JsString.split sep (String c s)
  = match JsString.split sep s with
    | [] => [String c EmptyString]
    | p :: ps => String c p :: ps
    end.
Proof. intros Hc. simpl. by destruct (Ascii.eqb_spec c sep). Qed.

Lemma split_cons_sep sep s :
  JsString.split sep (String sep s) = EmptyString :: JsString.split sep s.
Proof. simpl. by rewrite Ascii.eqb_refl. Qed.

Lemma split_no_sep sep s : sep ∉ chars s -> JsString.split sep s = [s].
Proof.
  induction s as [|c s IH]; [done|]. cbn [list_ascii_of_string].
  intros Hs. apply not_elem_of_cons in Hs as [Hne Hs].
  rewrite split_cons_other by done. by rewrite (IH Hs).
Qed.

Lemma split_app_sep sep s rest :
  sep ∉ chars s ->
  JsString.split sep (s +:+ String sep rest) = s :: JsString.split sep rest.
Proof.
  induction s as [|c s IH]; [intros _; apply split_cons_sep|].
  cbn [list_ascii_of_string]. intros Hs.
  apply not_elem_of_cons in Hs as [Hne Hs].
  rewrite app_String_l, split_cons_other by done. by rewrite (IH Hs).
Qed.

Lemma split_chars sep s p : p ∈ JsString.split sep s -> sep ∉ chars p.
Proof.
  revert p. induction s as [|c s IH]; intros p Hp.
  - apply list_elem_of_singleton in Hp as ->. apply not_elem_of_nil.
  - destruct (decide (c = sep)) as [-> | Hne].
    + rewrite split_cons_sep in Hp.
      apply elem_of_cons in Hp as [-> | Hp]; [apply not_elem_of_nil | by apply IH].
    + rewrite split_cons_other in Hp by done.
      destruct (JsString.split sep s) as [|p0 ps] eqn:Hs.
      { by destruct (split_nonempty sep s). }
      apply elem_of_cons in Hp as [-> | Hp]; [|apply IH; by right].
      cbn [list_ascii_of_string]. apply not_elem_of_cons. split; [congruence|].
      apply IH. left.
Qed.

Lemma split_app_sep_end sep s :
  JsString.split sep (s +:+ String sep "") = JsString.split sep s ++ [""].
Proof.
  induction s as [|c s IH].
  { change ("" +:+ String sep "") with (String sep ""). by rewrite split_cons_sep. }
  rewrite app_String_l. destruct (decide (c = sep)) as [-> | Hne].
  - by rewrite !split_cons_sep, IH.
  - rewrite !split_cons_other, IH by done.
    destruct (JsString.split sep s) as [|p0 ps] eqn:Hs; [|done].
    by destruct (split_nonempty sep s).
Qed.

Lemma split_app_other sep c s :
  c <> sep ->
  exists init last,
    JsString.split sep s = init ++ [last]
    ∧ JsString.split sep (s +:+ String c "") = init ++ [last +:+ String c ""].
Proof.
  intros Hc. induction s as [|x s (init & last & Hs & Hsc)].
  - exists [], "". split; [done|].
    change ("" +:+ String c "") with (String c ""). by rewrite split_cons_other.
  - rewrite app_String_l. destruct (decide (x = sep)) as [-> | Hne].
    + exists ("" :: init), last. by rewrite !split_cons_sep, Hs, Hsc.
    + rewrite !split_cons_other, Hs, Hsc by done.
      destruct init as [|p ps]; simpl.
      * exists [], (String x last). done.
      * exists (String x p :: ps), last. done.
Qed.

Lemma trimStart_chars c s : c ∈ chars (JsString.trimStart s) -> c ∈ chars s.
Proof.
  induction s as [|x s IH]; simpl; [done|].
  destruct (Ascii.is_space x); [|done]. intros Hc. right. by apply IH.
Qed.

Lemma trimEnd_chars c s : c ∈ chars (JsString.trimEnd s) -> c ∈ chars s.
Proof.
  induction s as [|x s IH]; [done|]. rewrite trimEnd_cons.
  cbn [list_ascii_of_string].
  destruct (JsString.trimEnd s) as [|y r].
  - destruct (Ascii.is_space x); simpl; [by intros ?%elem_of_nil|].
    intros Hc. apply list_elem_of_singleton in Hc as ->. left.
  - cbn [list_ascii_of_string]. intros Hc.
    apply elem_of_cons in Hc as [-> | Hc]; [left | right; by apply IH].
Qed.

Lemma toLowerCaseChar_comma c : JsString.toLowerCaseChar c = ","%char -> c = ","%char.
Proof. by destruct c as [[] [] [] [] [] [] [] []]. Qed.

Lemma toLowerCase_comma s :
  ","%char ∈ chars (JsString.toLowerCase s) -> ","%char ∈ chars s.
Proof.
  induction s as [|x s IH]; simpl; [done|]. intros Hc.
  apply elem_of_cons in Hc as [Hc | Hc]; [|right; by apply IH].
  symmetry in Hc. apply toLowerCaseChar_comma in Hc as ->. left.
Qed.

Lemma dropSeen_NoDup_id seen l :
  NoDup l -> (forall t, t ∈ l -> t ∉ seen) -> dropSeen seen l = l.
Proof.
  revert seen. induction l as [|t r IH]; intros seen Hnd Hseen; simpl; [done|].
  apply NoDup_cons in Hnd as [Ht Hnd].
  rewrite bool_decide_eq_false_2 by (apply Hseen; left).
  f_equal. apply IH; [done|]. intros u Hu. rewrite not_elem_of_cons.
  split; [intros -> ; done | apply Hseen; by right].
Qed.

Lemma join_cons2 (sep : string) (x y : string) (r : list string) :
  JsString.join sep (x :: y :: r) = x +:+ sep +:+ JsString.join sep (y :: r).
Proof. reflexivity. Qed.

(** The text shown for a list of tags splits back into the tags, each but
    the first behind a space. *)
Lemma split_join_tags l :
  (forall t, t ∈ l -> ","%char ∉ chars t) ->
  map JsString.trim (JsString.split "," (JsString.join ", " l))
  = match l with [] => [""] | _ => map JsString.trim l end.
Proof.
  induction l as [|x r IH]; intros Hl; [done|].
  destruct r as [|y r].
  - rewrite split_no_sep; [done | apply Hl; left].
  - rewrite join_cons2.
    change (", " +:+ ?z) with (String ","%char (String " "%char z)).
    rewrite split_app_sep by (apply Hl; left).
    rewrite split_cons_other by done.
    assert (Hr : forall t, t ∈ y :: r -> ","%char ∉ chars t)
      by (intros t Ht; apply Hl; by right).
    specialize (IH Hr).
    destruct (JsString.split "," (JsString.join ", " (y :: r))) as [|p ps] eqn:Hs.
    { by destruct (split_nonempty "," (JsString.join ", " (y :: r))). }
    simpl in IH. cbn [map]. f_equal. exact IH.
Qed.

(** A list of tags as [normalizeTags] returns them is read back from its
    display text unchanged. *)
Lemma normalizeTags_join l :
  NoDup l ->
  (forall t, t ∈ l ->
     t <> "" ∧ JsString.trim t = t ∧ JsString.toLowerCase t = t
     ∧ ","%char ∉ chars t) ->
  normalizeTags (JsString.join ", " l) = l.
Proof.
  intros Hnd Hl.
  assert (Htrim : map JsString.trim l = l).
  { rewrite <- (map_id l) at 2. apply map_ext_in. intros t Ht.
    by apply Hl, list_elem_of_In. }
  assert (Hlow : map JsString.toLowerCase l = l).
  { rewrite <- (map_id l) at 2. apply map_ext_in. intros t Ht.
    by apply Hl, list_elem_of_In. }
  assert (Hkeep : List.filter JsString.truthy l = l).
  { clear -Hl. induction l as [|t r IH]; [done|]. simpl.
    destruct (Hl t) as [Hne _]; [left|].
    destruct t; [done|]. simpl. rewrite IH; [done|].
    intros u Hu. apply Hl. by right. }
  unfold normalizeTags. cbv zeta.
  rewrite split_join_tags by (intros t Ht; by apply Hl).
  destruct l as [|x r]; [done|].
  rewrite Htrim, Hkeep, Hlow. unfold JsArray.filteri.
  etrans; [apply (filteri_indexOf_dropSeen [] []); done|].
  apply dropSeen_NoDup_id; [done|]. intros; apply not_elem_of_nil.
Qed.
End TagFacts.

Lemma normalizeTags_dropSeen (input : string) :
  normalizeTags input
  = dropSeen [] (map JsString.toLowerCase
                   (List.filter JsString.truthy
                      (map JsString.trim (JsString.split "," input)))).
Proof.
  unfold normalizeTags, JsArray.filteri.
  apply (filteri_indexOf_dropSeen [] []). done.
Qed.

Lemma normalizeTags_shape (input : string) :
  NoDup (normalizeTags input)
  ∧ (forall t, t ∈ normalizeTags input ->
       t <> "" ∧ JsString.trim t = t ∧ JsString.toLowerCase t = t
       ∧ ","%char ∉ list_ascii_of_string t).
Proof.
  rewrite normalizeTags_dropSeen. split; [apply dropSeen_NoDup|].
  intros t Ht. apply dropSeen_elem in Ht as [Ht _].
  apply list_elem_of_In, in_map_iff in Ht as (u & <- & Hu).
  apply filter_In in Hu as [Hu Hne].
  apply in_map_iff in Hu as (p & <- & Hp). apply list_elem_of_In in Hp.
  split; [|split; [|split]].
  - destruct (JsString.trim p); done.
  - by rewrite toLowerCase_trim, trim_idem.
  - apply toLowerCase_idem.
  - intros Hc. apply toLowerCase_comma in Hc. unfold JsString.trim in Hc.
    apply trimEnd_chars, trimStart_chars in Hc.
    by apply (split_chars ","%char input p).
Qed.

Lemma toString_JString (l : list string) : map Js.toString (map JString l) = l.
Proof. rewrite map_map. simpl. apply map_id. Qed.

(** Tags that the tags field itself stored are shown joined by ", ", and
    that text is read back as the same tags.  An edit of the tags field
    stores the normalized tags of the text typed; for every entry whose
    tags are such a list, whatever has been done to it since, the field
    shows them joined by ", ", normalizing what it shows gives the same
    list, and an edit that submits the shown text stores the tags that are
    already there.  Tags that came in with an import need not be of that
    kind. *)
Theorem tags_field_roundtrip (input : string) :
  (forall e now,
     tags (applyPatch e (patchOfEdit (EditTags input)) now)
     = map JString (normalizeTags input))
  ∧ (forall e,
       tags e = map JString (normalizeTags input) ->
       tagsFieldText e = JsString.join ", " (normalizeTags input)
       ∧ normalizeTags (tagsFieldText e) = normalizeTags input
       ∧ patchOfEdit (EditTags (tagsFieldText e)) = patchOfEdit (EditTags input)
       ∧ (forall now,
            tags (applyPatch e (patchOfEdit (EditTags (tagsFieldText e))) now)
            = tags e)).
Proof.
  assert (Hstore : forall txt e now,
            tags (applyPatch e (patchOfEdit (EditTags txt)) now)
            = map JString (normalizeTags txt)).
  { intros txt e now.
    by destruct (applyPatch_reads e (patchOfEdit (EditTags txt)) now)
      as (_ & _ & _ & _ & -> & _). }
  split; [apply Hstore|]. intros e He.
  assert (Htext : tagsFieldText e = JsString.join ", " (normalizeTags input)).
  { unfold tagsFieldText. by rewrite He, toString_JString. }
  assert (Hrt : normalizeTags (tagsFieldText e) = normalizeTags input).
  { rewrite Htext. destruct (normalizeTags_shape input) as [Hnd Hl].
    by apply normalizeTags_join. }
  split; [done|]. split; [done|]. split.
  - unfold patchOfEdit. by rewrite Hrt.
  - intros now. by rewrite Hstore, Hrt.
Qed.

(** A comma or a space typed at the end of the tags field is not kept: the
    tags, and with them the text the field shows, are what they were
    before the key was pressed. *)
Theorem tags_field_drops_trailing_separator (input : string) :
  normalizeTags (input +:+ ",") = normalizeTags input
  ∧ normalizeTags (input +:+ " ") = normalizeTags input
  ∧ normalizeTags (input +:+ ", ") = normalizeTags input.
Proof.
  assert (Hcomma : forall s, normalizeTags (s +:+ ",") = normalizeTags s).
  { intros s. rewrite !normalizeTags_dropSeen.
    rewrite (split_app_sep_end ","%char s), map_app, List.filter_app. simpl.
    by rewrite app_nil_r. }
  assert (Hspace : forall s, normalizeTags (s +:+ " ") = normalizeTags s).
  { intros s. rewrite !normalizeTags_dropSeen.
    destruct (split_app_other ","%char " "%char s) as (init & last & Hs & Hsc);
      [done|].
    rewrite Hs, Hsc, !map_app. simpl. by rewrite (trim_app_space last). }
  split; [apply Hcomma|]. split; [apply Hspace|].
  change (input +:+ ", ") with (input +:+ "," +:+ " ").
  rewrite <- app_assoc_s. by rewrite Hspace, Hcomma.
Qed.

(** * Further properties of the import, of creation and of updates *)

Section MapFacts2.
Context {K V : Type} `{EqDecision K}.
Implicit Types (k : K) (v : V) (m : list (K * V)).

Lemma get_None k m : k ∉ map fst m -> JsMap.get k m = None.
Proof.
  induction m as [|[k0 v0] r IH]; simpl; intros Hk; [done|].
  apply not_elem_of_cons in Hk as [Hne Hk].
  rewrite decide_False by congruence. by apply IH.
Qed.

(** Two maps with the same keys in the same order and the same values
    are the same list. *)
Lemma assoc_ext m1 m2 :
  map fst m1 = map fst m2 -> NoDup (map fst m1) ->
  (forall k, JsMap.get k m1 = JsMap.get k m2) -> m1 = m2.
Proof.
  revert m2. induction m1 as [|[k v] r1 IH]; intros m2 Hk Hnd Hg.
  - by destruct m2.
  - destruct m2 as [|[k' v'] r2]; [done|]. simpl in Hk. injection Hk as <- Hk.
    apply NoDup_cons in Hnd as [Hkr Hnd].
    pose proof (Hg k) as Hgk. simpl in Hgk. rewrite !decide_True in Hgk by done.
    injection Hgk as <-. f_equal. apply IH; [done|done|].
    intros k0. destruct (decide (k = k0)) as [<- | Hne].
    + rewrite !get_None; [done | by rewrite <- Hk | done].
    + specialize (Hg k0). simpl in Hg. by rewrite !decide_False in Hg by done.
Qed.

Lemma set_length k v m : (length (JsMap.set k v m) <= S (length m))%nat.
Proof.
  induction m as [|[k0 v0] r IH]; simpl; [lia|].
  destruct (decide (k0 = k)); simpl; lia.
Qed.
End MapFacts2.

Lemma fill_keys_present (l : list Entry) (m : list (string * Entry)) :
  (forall e, e ∈ l -> id e ∈ map fst m) -> map fst (fill l m) = map fst m.
Proof.
  revert m. induction l as [|e r IH]; intros m Hl; simpl; [done|].
  assert (Hset : map fst (JsMap.set (id e) e m) = map fst m).
  { rewrite set_keys, bool_decide_eq_true_2; [done | apply Hl; left]. }
  unfold fill in IH. rewrite IH; [done|].
  intros x Hx. rewrite Hset. apply Hl. by right.
Qed.

Lemma fill_length (l : list Entry) (m : list (string * Entry)) :
  (length (fill l m) <= length m + length l)%nat.
Proof.
  revert m. induction l as [|e r IH]; intros m; simpl; [lia|].
  unfold fill in IH. etrans; [apply IH|].
  pose proof (set_length (id e) e m). lia.
Qed.

Lemma sort_sorted_id (l : list Entry) :
  StronglySorted (fun a b => updatedAt b <= updatedAt a) l ->
  JsArray.sort byUpdatedDesc l = l.
Proof. intros Hs. symmetry. by apply (sort_unique updatedAt). Qed.

Lemma mergeById_sorted (seen prev : list Entry) :
  StronglySorted (fun a b => updatedAt b <= updatedAt a) (mergeById seen prev).
Proof. apply (sort_sorted updatedAt). Qed.

(** Two readings of the same incoming entries put the same entry under
    every id when the incoming ids are distinct. *)
Lemma lastWithId_perm (seen1 seen2 : list Entry) :
  seen1 ≡ₚ seen2 -> NoDup (map id seen1) ->
  forall i, lastWithId i seen2 = lastWithId i seen1.
Proof.
  intros Hp Hnd i.
  assert (Hnd2 : NoDup (map id seen2)).
  { pose proof (Permutation_map id Hp) as Hp'. by rewrite <- Hp'. }
  destruct (lastWithId i seen1) as [e|] eqn:He.
  - apply lastWithId_Some in He as [He <-].
    apply lastWithId_unique; [done|]. by rewrite <- Hp.
  - apply lastWithId_None. apply lastWithId_None in He.
    intros Hi. apply He. by rewrite (Permutation_map id Hp).
Qed.

(** Merging again entries that put the same entry under every id changes
    nothing. *)
Lemma mergeById_again (seen1 seen2 prev : list Entry) :
  (forall i, lastWithId i seen2 = lastWithId i seen1) ->
  mergeById seen2 (mergeById seen1 prev) = mergeById seen1 prev.
Proof.
  intros Hsame12.
  set (M := mergeById seen1 prev).
  assert (Hnd : NoDup (map id M)) by apply mergeById_NoDup.
  assert (Hpairs : map fst (map (fun e => (id e, e)) M) = map id M)
    by (by rewrite map_map).
  unfold mergeById at 1. rewrite ofPairs_fill.
  rewrite (fill_distinct M []); [|done|intros; apply not_elem_of_nil].
  simpl.
  assert (Hsame : fill seen2 (map (fun e => (id e, e)) M) = map (fun e => (id e, e)) M).
  { apply assoc_ext.
    - apply fill_keys_present. intros e He. rewrite Hpairs.
      apply mergeById_ids. right.
      destruct (lastWithId (id e) seen1) as [x|] eqn:Hx.
      + apply lastWithId_Some in Hx as [Hx <-]. by apply elem_of_ids.
      + rewrite <- Hsame12 in Hx. apply lastWithId_None in Hx.
        exfalso. apply Hx. by apply elem_of_ids.
    - apply fill_NoDup. by rewrite Hpairs.
    - intros i. rewrite fill_get, Hsame12.
      destruct (lastWithId i seen1) as [e|] eqn:He; [|done].
      pose proof (lastWithId_Some _ _ _ He) as [_ Hid].
      symmetry. apply elem_of_get; [by rewrite Hpairs|].
      rewrite <- Hid. apply list_elem_of_In, in_map_iff. exists e.
      split; [done|]. apply list_elem_of_In, mergeById_elem.
      by rewrite lastWithId_app, Hid, He. }
  rewrite Hsame. unfold JsMap.values. rewrite map_map. simpl. rewrite map_id.
  apply sort_sorted_id, mergeById_sorted.
Qed.

(** After a successful import, from a state the application shows, the
    collection is stored in descending order of [updatedAt], so with an
    empty query the list shows it as stored; its ids are the ids before
    together with the incoming ones; and it has at most as many entries as
    there were before plus the incoming ones. *)
Theorem import_result_order `{Runtime} (eager : bool) (text : string) (w : World)
    (incoming : list Entry) :
  renders w = true ->
  readIncoming text = Ok incoming ->
  let w' := step (ImportJsonFile eager text) w in
  StronglySorted (fun a b => updatedAt b <= updatedAt a) (entries w')
  ∧ filtered (entries w') "" = entries w'
  ∧ (forall i, i ∈ map id (entries w') <->
               i ∈ map id (entries w) ∨ i ∈ map id incoming)
  ∧ (length (entries w') <= length (entries w) + length incoming)%nat
  ∧ entries w' <> [].
Proof.
  intros Hw Hr w'.
  destruct (step_import_Ok eager text w incoming Hw Hr) as [Hes _]. fold w' in Hes.
  pose proof (seen_perm eager incoming) as Hseen.
  set (seen := if eager then incoming else JsArray.sort byUpdatedDesc incoming) in *.
  assert (Hids : forall i, i ∈ map id (entries w') <->
                           i ∈ map id (entries w) ∨ i ∈ map id incoming).
  { intros i. by rewrite Hes, mergeById_ids, Hseen. }
  split; [rewrite Hes; apply mergeById_sorted|].
  split; [rewrite Hes; apply sort_sorted_id, mergeById_sorted|].
  split; [exact Hids|]. split.
  - rewrite Hes, mergeById_fill. unfold byUpdatedDesc.
    rewrite (sort_perm updatedAt). unfold JsMap.values. rewrite length_map.
    etrans; [apply fill_length|]. simpl. rewrite length_app.
    by rewrite (Permutation_length Hseen).
  - apply readIncoming_Ok in Hr as (items & _ & _ & Hne).
    destruct incoming as [|e r]; [done|]. intros Hnil.
    assert (Hi : id e ∈ map id (entries w')) by (apply Hids; right; left).
    rewrite Hnil in Hi. by apply elem_of_nil in Hi.
Qed.

(** Importing the same file a second time changes nothing, when its valid
    entries have distinct ids or both imports read them in the same order:
    the entries, the selection and the stored snapshot are those after the
    first import, and no message is shown.  The order in which an import
    reads the entries is chosen at each import. *)
Theorem import_twice `{Runtime} (eager1 eager2 : bool) (text : string) (w : World)
    (incoming : list Entry) :
  readIncoming text = Ok incoming ->
  NoDup (map id incoming) ∨ eager1 = eager2 ->
  let w1 := step (ImportJsonFile eager1 text) w in
  let w2 := step (ImportJsonFile eager2 text) w1 in
  entries w2 = entries w1
  ∧ selectedId w2 = selectedId w1
  ∧ localStorage w2 = localStorage w1
  ∧ alerts w2 = alerts w.
Proof.
  intros Hr Hmode w1 w2.
  destruct (renders w) eqn:Hw; [|by subst w2 w1; rewrite !(step_dead _ w Hw)].
  destruct (step_import_Ok eager1 text w incoming Hw Hr) as (Hes1 & Hal1 & _).
  fold w1 in Hes1, Hal1.
  destruct (renders w1) eqn:Hw1; [|by subst w2; rewrite (step_dead _ w1 Hw1)].
  destruct (step_import_Ok eager2 text w1 incoming Hw1 Hr) as (Hes2 & Hal2 & _).
  fold w2 in Hes2, Hal2.
  assert (Hes : entries w2 = entries w1).
  { rewrite Hes2, Hes1. apply mergeById_again.
    destruct Hmode as [Hnd | <-]; [|done].
    apply lastWithId_perm.
    - etrans; [apply seen_perm | symmetry; apply seen_perm].
    - pose proof (Permutation_map id (seen_perm eager1 incoming)) as Hp'.
      by rewrite Hp'. }
  assert (Hv1 : renders (applyUpdate (importJsonFile eager1 text w) w) = true).
  { apply render_renders. unfold w1 in Hw1. by rewrite step_live in Hw1. }
  split; [done|]. split; [|split; [|congruence]].
  - assert (Hs : exists newest rest,
               JsArray.sort byUpdatedDesc incoming = newest :: rest).
    { destruct (JsArray.sort byUpdatedDesc incoming) as [|newest rest] eqn:Hs;
        [|by eauto].
      apply (proj1 (sort_nil updatedAt incoming)) in Hs.
      apply readIncoming_Ok in Hr as (items & _ & _ & Hne). by destruct Hne. }
    destruct Hs as (newest & rest & Hs).
    pose proof (step_import_selected eager1 text w incoming newest rest Hw Hr Hs) as H1.
    pose proof (step_import_selected eager2 text w1 incoming newest rest Hw1 Hr Hs) as H2.
    cbv zeta in H1, H2. fold w1 in H1, H2. fold w2 in H2.
    rewrite Hv1 in H1. rewrite Hes in H2. rewrite H2.
    generalize (renders (applyUpdate (importJsonFile eager2 text w1) w1)).
    intros b.
    destruct (JsString.truthy (id newest)) eqn:Hn.
    + rewrite H1. by destruct b, (entries w1); rewrite ?Hn.
    + destruct (entries w1) as [|e r]; [by destruct b|].
      destruct (JsString.truthy (selectedId w1)) eqn:Hs1; [by destruct b|].
      destruct b; [|done].
      destruct (JsString.truthy (selectedId w)) eqn:Hs0; congruence.
  - assert (Hst : forall eager v, renders v = true ->
                localStorage (step (ImportJsonFile eager text) v)
                = if renders (applyUpdate (importJsonFile eager text v) v)
                  then saveEntries (entries (step (ImportJsonFile eager text) v))
                         (localStorage v)
                  else localStorage v).
    { intros eager v Hv. rewrite step_live by done. cbn [handle].
      apply render_localStorage_set.
      rewrite (importJsonFile_Ok eager text v incoming Hr). by eexists. }
    pose proof (Hst eager1 w Hw) as H1. pose proof (Hst eager2 w1 Hw1) as H2.
    fold w1 in H1, H2. fold w2 in H2. rewrite Hv1 in H1.
    rewrite H2.
    destruct (renders (applyUpdate (importJsonFile eager2 text w1) w1)); [|done].
    rewrite Hes, H1.
    unfold saveEntries. apply insert_insert_eq.
Qed.


Lemma updatedAt_applyPatch (e : Entry) (patch : Patch) (now : Z) :
  updatedAt (applyPatch e patch now) = now.
Proof. apply applyPatch_reads. Qed.

Lemma first_updated (i : string) (es : list Entry) (sel : Entry)
    (patch : Patch) (now : Z) :
  JsArray.find (fun e => bool_decide (id e = i)) es = Some sel ->
  (forall e, e ∈ es -> updatedAt e < now) ->
  List.hd_error
    (List.filter (fun e => updatedAt e =? now)
       (map (fun e => if bool_decide (id e = i)
                      then applyPatch e patch now else e) es))
  = Some (applyPatch sel patch now).
Proof.
  induction es as [|e r IH]; simpl; [done|]. intros Hf Hlt.
  case_bool_decide as He.
  - injection Hf as ->. by rewrite updatedAt_applyPatch, Z.eqb_refl.
  - assert (Hne : (updatedAt e =? now) = false).
    { apply Z.eqb_neq. assert (updatedAt e < now) by (apply Hlt; left). lia. }
    rewrite Hne. apply IH; [done|]. intros x Hx. apply Hlt. by right.
Qed.


(** With the clock ahead of every entry, the entry just updated, in a state
    the application shows, is the first of the list shown for an empty
    query. *)
Theorem updateSelected_on_top `{Runtime} (patch : Patch) (now : Z) (w : World)
    (sel : Entry) :
  renders w = true ->
  selected w = Some sel ->
  (forall e, e ∈ entries w -> updatedAt e < now) ->
  let w' := step (UpdateSelected patch now) w in
  List.hd_error (filtered (entries w') "") = Some (applyPatch sel patch now).
Proof.
  intros Hw Hsel Hlt w'.
  assert (Hes : entries w' = map (fun e => if bool_decide (id e = id sel)
                                          then applyPatch e patch now else e)
                               (entries w)).
  { subst w'. by rewrite step_update_entries, Hsel. }
  destruct (find_id_elem _ _ _ Hsel) as [Hin Hid].
  unfold selected in Hsel. rewrite <- Hid in Hsel.
  pose proof (first_updated (id sel) (entries w) sel patch now Hsel Hlt) as Hfirst.
  rewrite <- Hes in Hfirst.
  assert (Hle : forall e, e ∈ entries w' -> updatedAt e <= now).
  { intros e He. rewrite Hes in He.
    apply list_elem_of_In, in_map_iff in He as (x & <- & Hx).
    apply list_elem_of_In in Hx. case_bool_decide.
    - rewrite updatedAt_applyPatch. lia.
    - specialize (Hlt x Hx). lia. }
  rewrite filtered_as_sort. simpl JsString.trim. simpl JsString.toLowerCase.
  rewrite (filter_ext _ (fun _ => true)) by (intros; apply includes_empty).
  assert (Hall : forall l : list Entry, List.filter (fun _ => true) l = l).
  { induction l as [|e r IH]; simpl; congruence. }
  rewrite Hall.
  destruct (JsArray.sort byUpdatedDesc (entries w')) as [|h t] eqn:Hs.
  { assert (Hnil : entries w' = []) by (by apply (sort_nil updatedAt)).
    by rewrite Hnil in Hfirst. }
  destruct (sort_head updatedAt h t (entries w') Hs) as (Hh & Hge & Hhd).
  assert (Hupd : applyPatch sel patch now ∈ entries w').
  { destruct (List.filter _ (entries w')) as [|y r] eqn:Hf; [done|].
    injection Hfirst as ->.
    assert (Hy : In (applyPatch sel patch now)
                   (List.filter (fun e => updatedAt e =? now) (entries w')))
      by (rewrite Hf; left; done).
    apply filter_In in Hy as [Hy _]. by apply list_elem_of_In. }
  assert (Hk : updatedAt h = now).
  { apply Z.le_antisymm; [by apply Hle|].
    rewrite <- (updatedAt_applyPatch sel patch now). by apply Hge. }
  rewrite Hk in Hhd. simpl. congruence.
Qed.

(** ** The entry shape *)


(** ** Moving a collection with export and import *)

(** A backup restores: when the exported collection is not empty and has
    distinct ids, and the runtime parses the exported text back to the
    array it printed, importing that file into any state the application
    shows brings in every exported entry as it was; an entry of the
    importing side is kept when its id is not in the file and the ids of
    that side are distinct. *)
Theorem backup_restores `{Runtime} (eager : bool) (w1 w2 : World) :
  renders w2 = true ->
  entries w1 <> [] ->
  NoDup (map id (entries w1)) ->
  JSON_parse (snd (exportJson w1)) = Ok (entriesToJSON (entries w1)) ->
  let w2' := step (ImportJsonFile eager (snd (exportJson w1))) w2 in
  alerts w2' = alerts w2
  ∧ (forall e, e ∈ entries w1 -> e ∈ entries w2')
  ∧ (NoDup (map id (entries w2)) ->
     forall e, e ∈ entries w2 -> id e ∉ map id (entries w1) -> e ∈ entries w2')
  ∧ (forall e, e ∈ entries w2' -> e ∈ entries w1 ∨ e ∈ entries w2).
Proof.
  intros Hw2 Hne Hnd Hp w2'.
  pose proof (readIncoming_exported _ _ Hne Hp) as Hr.
  destruct (step_import_Ok eager _ w2 _ Hw2 Hr) as (Hes & Hal & _).
  fold w2' in Hes, Hal.
  pose proof (seen_perm eager (entries w1)) as Hseen.
  set (seen := if eager then entries w1 else JsArray.sort byUpdatedDesc (entries w1)) in *.
  split; [done|]. split; [|split].
  - intros e He. rewrite Hes, mergeById_elem, lastWithId_app.
    rewrite (lastWithId_unique seen e); [done | by rewrite Hseen | by rewrite Hseen].
  - intros Hnd2 e He Hid. rewrite Hes, mergeById_elem, lastWithId_app.
    assert (Hn : lastWithId (id e) seen = None)
      by (apply lastWithId_None; by rewrite Hseen).
    rewrite Hn. by apply lastWithId_unique.
  - intros e He. rewrite Hes, mergeById_elem in He.
    apply lastWithId_Some in He as [He _].
    apply elem_of_app in He as [He | He]; [by right | left; by rewrite <- Hseen].
Qed.

(** ** Clicking an item of the list *)

(** A click on an item of the list the application shows, whose id is not
    the empty string, selects that id and changes nothing else; when ids
    are distinct the editor then shows the clicked entry.  A click past
    the end of the list does nothing. *)
Theorem select_shows_clicked `{Runtime} (k : nat) (w : World) :
  renders w = true ->
  let w' := step (Select k) w in
  (filtered (entries w) (query w) !! k = None -> w' = w)
  ∧ (forall e, filtered (entries w) (query w) !! k = Some e -> id e <> "" ->
       selectedId w' = id e
       ∧ entries w' = entries w
       ∧ localStorage w' = localStorage w
       ∧ query w' = query w
       ∧ (NoDup (map id (entries w)) -> selected w' = Some e)).
Proof.
  intros Hw w'. subst w'. rewrite step_live by done.
  cbn [handle]. unfold selectVisible. split.
  - intros ->. apply render_noUpdate.
  - intros e Hk Hid. rewrite Hk.
    assert (He : e ∈ entries w).
    { apply list_elem_of_lookup_2 in Hk. by apply filtered_elem in Hk as [? _]. }
    assert (Hs : selectedId (render (mkUpdate None (Some (id e)) None None) w) = id e).
    { rewrite render_selected. simpl. apply truthy_true in Hid. rewrite Hid.
      destruct (_ && _); [|done]. by destruct (entries (render _ _)). }
    assert (Hes : entries (render (mkUpdate None (Some (id e)) None None) w) = entries w)
      by (by rewrite render_entries).
    split; [done|]. split; [done|].
    split; [by rewrite render_localStorage|]. split; [by rewrite render_query|].
    intros Hnd. unfold selected. rewrite Hs, Hes.
    clear -He Hnd. induction (entries w) as [|x r IH]; [by apply elem_of_nil in He|].
    simpl. simpl in Hnd. apply NoDup_cons in Hnd as [Hx Hnd].
    apply elem_of_cons in He as [<- | He].
    + by rewrite bool_decide_eq_true_2.
    + rewrite bool_decide_eq_false_2; [by apply IH|].
      intros Heq. apply Hx. rewrite Heq. by apply elem_of_ids.
Qed.

(** ** The view keeps showing *)

(** The view never throws in ordinary use.  After a start-up on a stored
    collection none of whose tags is or holds an object (or on no stored
    collection at all), and after any actions that bring no such tag, as
    creation, deletion, search, selection and the four edits of the editor
    never do, the application shows its state, no tag is or holds an
    object, and [localStorage] holds the text of the collection in
    memory. *)
Theorem view_keeps_showing `{Runtime} (storage : gmap string string)
    (id1 id2 : string) (now : Z) (w0 : World) (acts : list Action) :
  mount storage id1 id2 now = Some w0 ->
  loadEntries storage = [] ∨ plainTags (entries w0) ->
  Forall bringsPlainTags acts ->
  let w := run acts w0 in
  renders w = true
  ∧ plainTags (entries w)
  ∧ written w
  ∧ (forall newId t, bringsPlainTags (CreateNew newId t))
  ∧ bringsPlainTags DeleteSelected
  ∧ (forall k, bringsPlainTags (Select k))
  ∧ (forall q, bringsPlainTags (Search q))
  ∧ (forall ed t, bringsPlainTags (UpdateSelected (patchOfEdit ed) t)).
Proof.
  intros Hm H0 Hacts w.
  assert (Hp0 : plainTags (entries w0)).
  { destruct H0 as [Hnil | Hp]; [|done].
    rewrite (mount_firstEntries storage id1 id2 now w0 [] Hm) by (by rewrite Hnil).
    apply plainTags_seedEntries. }
  assert (Hp : plainTags (entries w)).
  { subst w. induction acts as [|a acts IH] using rev_ind; [done|].
    apply Forall_app in Hacts as [Hacts Ha]. apply Forall_inv in Ha.
    rewrite run_snoc. apply step_plainTags; [by apply IH | exact Ha]. }
  assert (Hr : renders w = true) by (by apply plainTags_renders).
  split; [done|]. split; [done|]. split.
  - apply run_written; [|done]. by apply (mount_written storage id1 id2 now).
  - repeat split; try done. intros ed t. apply bringsPlainTags_edit.
Qed.

(** ** The further properties on sample states *)

Section ConcreteMore.
#[local] Existing Instance RefRuntime.runtime.

Lemma sample_world_shows : renders Sample.world = true.
Proof. vm_compute. reflexivity. Qed.

Lemma sample_worldOf_shows : renders (Sample.worldOf [Sample.older]) = true.
Proof. vm_compute. reflexivity. Qed.

Lemma sample_mount : mount ∅ "u1" "u2" 1000 = Some Sample.world.
Proof. vm_compute. reflexivity. Qed.

Lemma sample_times (bound : Z) :
  1001 <= bound ->
  forall e, e ∈ entries Sample.world -> updatedAt e <= bound.
Proof.
  intros Hb e He. rewrite (proj1 sample_world_entries) in He.
  unfold seedEntries in He.
  apply elem_of_cons in He as [-> | He]; [rewrite updatedAt_mkEntry; lia|].
  apply list_elem_of_singleton in He as ->. rewrite updatedAt_mkEntry. lia.
Qed.

Lemma mount_selects_first_witness :
  exists e rest,
    entries Sample.world = e :: rest
    ∧ selectedId Sample.world = id e
    ∧ selected Sample.world = Some e.
Proof.
  exact (mount_selects_first ∅ "u1" "u2" 1000 Sample.world sample_mount).
Defined.

Lemma deleteSelected_correct_witness :
  (length (entries (step DeleteSelected Sample.world))
   < length (entries Sample.world))%nat.
Proof.
  assert (Hsel : exists sel, selected Sample.world = Some sel).
  { eexists. vm_compute. reflexivity. }
  destruct Hsel as [sel Hsel].
  pose proof (proj2 (deleteSelected_correct Sample.world sample_world_shows)
                sel Hsel) as Hd.
  exact (proj1 (proj2 (proj2 (proj2 Hd)))).
Defined.

Lemma storage_frame_witness :
  delete KEY (localStorage (run [CreateNew "n1" 1500] Sample.world))
  = delete KEY ∅.
Proof.
  exact (storage_frame ∅ "u1" "u2" 1000 Sample.world [CreateNew "n1" 1500]
           sample_mount).
Defined.

Lemma alerts_only_on_failed_import_witness :
  alerts (step (Search "door") Sample.world) = alerts Sample.world.
Proof.
  exact (alerts_only_on_failed_import (Search "door") Sample.world
           sample_world_shows).
Defined.

Lemma create_then_delete_witness :
  entries (step DeleteSelected (step (CreateNew "u3" 2000) Sample.world))
  = entries Sample.world.
Proof.
  apply (create_then_delete "u3" 2000 Sample.world).
  apply (bool_decide_unpack _). vm_compute. exact I.
Defined.

Lemma reload_restores_witness :
  let w := run [CreateNew "n1" 1500] Sample.world in
  exists w', mount (localStorage w) "u3" "u4" 2000 = Some w'
             ∧ entries w' = entries w.
Proof.
  intros w.
  assert (Hr : renders w = true) by (vm_compute; reflexivity).
  assert (Hne : entries w <> []) by (vm_compute; discriminate).
  assert (Ht : JSON_stringify 0 (entriesToJSON (entries w)) <> "")
    by (vm_compute; discriminate).
  assert (Hp : JSON_parse (JSON_stringify 0 (entriesToJSON (entries w)))
               = Ok (entriesToJSON (entries w)))
    by (vm_compute; reflexivity).
  destruct (reload_restores ∅ "u1" "u2" "u3" "u4" 1000 2000 Sample.world
              [CreateNew "n1" 1500] sample_mount Hr Hne Ht Hp)
    as (w' & Hm & He & _).
  exists w'. split; [exact Hm | exact He].
Defined.

Lemma reload_reseeds_witness :
  let w := run [DeleteSelected; DeleteSelected] Sample.world in
  exists w', mount (localStorage w) "u3" "u4" 2000 = Some w'
             ∧ entries w' = seedEntries "u3" "u4" 2000.
Proof.
  apply (reload_reseeds ∅ "u1" "u2" "u3" "u4" 1000 2000 Sample.world
           [DeleteSelected; DeleteSelected] sample_mount).
  - vm_compute. reflexivity.
  - vm_compute. reflexivity.
Defined.


Lemma search_refines_witness :
  filtered (filtered (seedEntries "u1" "u2" 1000) "door") "door decisions"
  = filtered (seedEntries "u1" "u2" 1000) "door decisions".
Proof.
  assert (Hq : contains (JsString.toLowerCase (JsString.trim "door decisions"))
                        (JsString.toLowerCase (JsString.trim "door")))
    by (exists "", " decisions"; reflexivity).
  exact (proj1 (search_refines (seedEntries "u1" "u2" 1000)
                  "door decisions" "door" Hq)).
Defined.

(** Tags that an import brought in are not read back from the text the
    tags field shows. *)
Example imported_tags_not_read_back :
  let e := mkEntry "t" "T" "" "" [JString "A"; JString "c,d"; JString " x"] 1 1 in
  tagsFieldText e = "A, c,d,  x"
  ∧ normalizeTags (tagsFieldText e) = ["a"; "c"; "d"; "x"]
  ∧ isEntry (object e) = true.
Proof. vm_compute. done. Qed.

Lemma import_result_order_witness :
  let w := Sample.worldOf [Sample.older] in
  let w' := step (ImportJsonFile true (Sample.fileOf [Sample.newer])) w in
  filtered (entries w') "" = entries w'.
Proof.
  assert (Hr : readIncoming (Sample.fileOf [Sample.newer]) = Ok [Sample.newer])
    by (vm_compute; reflexivity).
  exact (proj1 (proj2 (import_result_order true (Sample.fileOf [Sample.newer])
                         (Sample.worldOf [Sample.older]) [Sample.newer]
                         sample_worldOf_shows Hr))).
Defined.

Lemma import_twice_witness :
  let w := Sample.worldOf [Sample.older] in
  let w1 := step (ImportJsonFile true (Sample.fileOf [Sample.newer])) w in
  let w2 := step (ImportJsonFile false (Sample.fileOf [Sample.newer])) w1 in
  entries w2 = entries w1.
Proof.
  assert (Hr : readIncoming (Sample.fileOf [Sample.newer]) = Ok [Sample.newer])
    by (vm_compute; reflexivity).
  assert (Hnd : NoDup (map id [Sample.newer]))
    by (apply (bool_decide_unpack _); vm_compute; exact I).
  exact (proj1 (import_twice true false (Sample.fileOf [Sample.newer])
                  (Sample.worldOf [Sample.older]) [Sample.newer] Hr
                  (or_introl Hnd))).
Defined.

(** A file with two records of one id, read once in the order of the
    file and once in descending order of [updatedAt]: the second import
    puts the older record back. *)
Example import_twice_needs_distinct_ids :
  let text := Sample.fileOf [Sample.older; Sample.newer] in
  let w1 := step (ImportJsonFile true text) Sample.world in
  let w2 := step (ImportJsonFile false text) w1 in
  List.filter (fun e => bool_decide (id e = "x")) (entries w1) = [Sample.newer]
  ∧ List.filter (fun e => bool_decide (id e = "x")) (entries w2) = [Sample.older].
Proof. vm_compute. done. Qed.


Lemma updateSelected_on_top_witness :
  let patch := patchOfEdit (EditTitle "doors") in
  exists sel,
    selected Sample.world = Some sel
    ∧ List.hd_error
        (filtered (entries (step (UpdateSelected patch 2000) Sample.world)) "")
      = Some (applyPatch sel patch 2000).
Proof.
  assert (Hsel : exists sel, selected Sample.world = Some sel).
  { eexists. vm_compute. reflexivity. }
  destruct Hsel as [sel Hsel]. exists sel. split; [exact Hsel|].
  apply (updateSelected_on_top (patchOfEdit (EditTitle "doors")) 2000
           Sample.world sel sample_world_shows Hsel).
  intros e He. pose proof (sample_times 1001 (Z.le_refl _) e He). lia.
Defined.

Lemma backup_restores_witness :
  let w2 := Sample.worldOf [Sample.older] in
  let w2' := step (ImportJsonFile true (snd (exportJson Sample.world))) w2 in
  alerts w2' = alerts w2.
Proof.
  assert (Hne : entries Sample.world <> []) by (vm_compute; discriminate).
  assert (Hnd : NoDup (map id (entries Sample.world)))
    by (apply (bool_decide_unpack _); vm_compute; exact I).
  assert (Hp : JSON_parse (snd (exportJson Sample.world))
               = Ok (entriesToJSON (entries Sample.world)))
    by (vm_compute; reflexivity).
  exact (proj1 (backup_restores true Sample.world (Sample.worldOf [Sample.older])
                  sample_worldOf_shows Hne Hnd Hp)).
Defined.

Lemma select_shows_clicked_witness :
  selectedId (step (Select 0) Sample.world) = "u2".
Proof.
  assert (Hk : exists e, filtered (entries Sample.world) (query Sample.world) !! 0%nat
                         = Some e ∧ id e = "u2").
  { eexists. split; vm_compute; reflexivity. }
  destruct Hk as (e & Hk & Hid).
  assert (Hne : id e <> "") by (rewrite Hid; discriminate).
  rewrite <- Hid.
  exact (proj1 (proj2 (select_shows_clicked 0 Sample.world sample_world_shows)
                  e Hk Hne)).
Defined.

Lemma view_keeps_showing_witness :
  renders (run [CreateNew "n1" 1500;
                UpdateSelected (patchOfEdit (EditTags "a, b")) 1600]
             Sample.world) = true.
Proof.
  assert (Hl : loadEntries ∅ = []) by (vm_compute; reflexivity).
  assert (Hacts : Forall bringsPlainTags
                    [CreateNew "n1" 1500;
                     UpdateSelected (patchOfEdit (EditTags "a, b")) 1600]).
  { apply Forall_cons; split; [exact I|].
    apply Forall_cons; split; [vm_compute; reflexivity | apply Forall_nil_2]. }
  exact (proj1 (view_keeps_showing ∅ "u1" "u2" 1000 Sample.world _
                  sample_mount (or_introl Hl) Hacts)).
Defined.
End ConcreteMore.
